(** * gparse: a shallow embedding of the parser-combinator core

    The development follows [src/index.ts].  Parse states are the tagged
    union [ParseResult | ParseError]; the two class constructors are
    fallible functions; token parsers are objects that own a memo table
    and a last-seen target living in an explicit heap; the symbol layer is
    the stack machine of [SymbolParser.generate] with its continuations
    written as data. *)

From stdpp Require Import base gmap strings list pretty.
From Stdlib Require Import ZArith Lia Ascii.

Local Open Scope string_scope.
Local Open Scope Z_scope.

(** ** Identifiable values *)

(** [interface Identifiable { readonly identity: string }] *)
Class Identifiable (A : Type) := identity : A → string.

(** [class StaticSemantics]: a user-chosen identity and a payload. *)
Record StaticSemantics := mkStatic {
  static_identity : string;
  static_value : Z;
}.

#[export] Instance StaticSemantics_identifiable : Identifiable StaticSemantics :=
  static_identity.

(** ** JavaScript string primitives used by the source *)

(** [s.length] *)
Definition js_length (s : string) : Z := Z.of_nat (String.length s).

(** [result.join('')] *)
Definition join (l : list string) : string := foldr String.append "" l.

(** [s.substring(a, b)]: both ends are clamped to [0, s.length] and
    swapped when [a > b]. *)
Definition js_substring (s : string) (a b : Z) : string :=
  let clamp x := Z.max 0 (Z.min x (js_length s)) in
  let lo := Z.min (clamp a) (clamp b) in
  let hi := Z.max (clamp a) (clamp b) in
  String.substring (Z.to_nat lo) (Z.to_nat (hi - lo)) s.

(** [s.slice(a)]: a negative start counts from the end. *)
Definition js_slice (s : string) (a : Z) : string :=
  let len := js_length s in
  let from := if a <? 0 then Z.max (len + a) 0 else Z.min a len in
  String.substring (Z.to_nat from) (Z.to_nat (len - from)) s.

(** [target.startsWith(s)] *)
Definition js_startsWith (target s : string) : bool := String.prefix s target.

(** [`${n}`] for an integer [n]. *)
Definition js_number_to_string (n : Z) : string := pretty n.

(** ** Engine faults (exceptions) *)

Inductive Fault :=
  | RangeError (msg : string)
  | TypeError (msg : string)
  | Error (msg : string).

Definition index_fault : Fault :=
  RangeError "Index specified is greater that the target's length.".
Definition result_fault : Fault :=
  RangeError "Result is larger than index specified.".
Definition breadth_fault : Fault :=
  Error "Maximum ambiguity breadth reached. Check for infinite ambiguity in the grammar produced by your parser.".

(** ** Semantic values

    A state's [data] (or [error]) is an [Identifiable] object.  Both class
    constructors store [new NoSemantics()] when they are handed [null] or
    [undefined] ([data ?? new NoSemantics()]), so the three are one value
    here: [NoSemantics], whose identity is the empty string. *)
Inductive Semantics (A : Type) :=
  | NoSemantics
  | Value (a : A).
Arguments NoSemantics {A}.
Arguments Value {A} a.

#[export] Instance Semantics_identifiable {A} `{!Identifiable A}
  : Identifiable (Semantics A) :=
  fun v => match v with NoSemantics => "" | Value a => identity a end.

Section ParseStates.
Context {D E : Type} `{!Identifiable D, !Identifiable E}.

(** ** Parse states *)

(** [type ParseState<D, E> = ParseResult<D> | ParseError<E>] *)
Inductive ParseState :=
  | ParseResult (target : string) (index : Z) (result : list string)
      (data : Semantics D)
  | ParseError (target : string) (index : Z) (result : list string)
      (error : Semantics E).

Definition target (s : ParseState) : string :=
  match s with ParseResult t _ _ _ | ParseError t _ _ _ => t end.

Definition index (s : ParseState) : Z :=
  match s with ParseResult _ i _ _ | ParseError _ i _ _ => i end.

Definition result (s : ParseState) : list string :=
  match s with ParseResult _ _ r _ | ParseError _ _ r _ => r end.

Definition isError (s : ParseState) : bool :=
  match s with ParseResult _ _ _ _ => false | ParseError _ _ _ _ => true end.

(** [state.data]; reading it off a [ParseError] gives [undefined]. *)
Definition data (s : ParseState) : Semantics D :=
  match s with ParseResult _ _ _ d => d | ParseError _ _ _ _ => NoSemantics end.

(** [state.error]; reading it off a [ParseResult] gives [undefined]. *)
Definition error (s : ParseState) : Semantics E :=
  match s with ParseResult _ _ _ _ => NoSemantics | ParseError _ _ _ e => e end.

(** [this.data.identity] for a result, [this.error.identity] for an error. *)
Definition semantics_identity (s : ParseState) : string :=
  match s with
  | ParseResult _ _ _ d => identity d
  | ParseError _ _ _ e => identity e
  end.

(** [get identity()] of both classes:
    [`${target}_${index}` + (id.length > 0 ? `_${id}` : '')] *)
Definition state_identity (s : ParseState) : string :=
  target s +:+ "_" +:+ js_number_to_string (index s) +:+
  (if 0 <? js_length (semantics_identity s)
   then "_" +:+ semantics_identity s else "").

(** [new ParseResult(target, index, result, data)] *)
Definition new_ParseResult (t : string) (i : Z) (r : list string)
    (d : Semantics D) : Fault + ParseState :=
  if js_length t <? i then inl index_fault
  else if i <? js_length (join r) then inl result_fault
  else inr (ParseResult t i r d).

(** [new ParseError(target, index, result, error)] *)
Definition new_ParseError (t : string) (i : Z) (r : list string)
    (e : Semantics E) : Fault + ParseState :=
  if js_length t <? i then inl index_fault
  else inr (ParseError t i r e).

(** The invariants the specification states for every parse state. *)
Definition state_invariant (s : ParseState) : Prop :=
  0 ≤ index s ≤ js_length (target s) ∧ js_length (join (result s)) ≤ index s.

(** Truthiness of the optional [newResult?: string] argument: absent and
    the empty string are both falsy. *)
Definition js_truthy (o : option string) : bool :=
  match o with
  | Some s => negb (String.eqb s "")
  | None => false
  end.

(** [updateParseResult(old, index, data, newResult?)] *)
Definition updateParseResult (old : ParseState) (i : Z) (d : Semantics D)
    (newResult : option string) : Fault + ParseState :=
  new_ParseResult (target old) i
    (if js_truthy newResult then result old ++ [default "" newResult]
     else result old)
    d.

(** [updateParseError(old, error)] *)
Definition updateParseError (old : ParseState) (e : Semantics E)
  : Fault + ParseState :=
  new_ParseError (target old) (index old) (result old) e.

End ParseStates.

Arguments ParseState D E : clear implicits.

(** ** The heap of a run

    Every [TokenParser] owns a [memotable : Map<string, ParseState>] and a
    [currentTarget : string]; a token [chain] with an action allocates one
    more [Map] for its back-references.  The heap holds those objects by
    location. *)
Record Heap {D E : Type} := mkHeap {
  next_loc : nat;
  maps : gmap nat (gmap string (ParseState D E));
  currentTargets : gmap nat string;
}.
Arguments Heap D E : clear implicits.
Arguments mkHeap {D E} _ _ _.

(** What a call does: it returns a value and the state it leaves, throws,
    or is still running when the fuel of the model is used up. *)
Inductive Outcome (S A : Type) :=
  | Ret (a : A) (s : S)
  | Throw (f : Fault)
  | Timeout.
Arguments Ret {S A} a s.
Arguments Throw {S A} f.
Arguments Timeout {S A}.

(** Computations over the heap; the first argument is the fuel, consumed
    only by the iterations of [while (true)] loops. *)
Definition M (D E A : Type) : Type :=
  nat → Heap D E → Outcome (Heap D E) A.

Definition ret {D E A} (a : A) : M D E A := fun _ h => Ret a h.

Definition throw {D E A} (f : Fault) : M D E A := fun _ _ => Throw f.

Definition bind {D E A B} (c : M D E A) (k : A → M D E B) : M D E B :=
  fun n h =>
    match c n h with
    | Ret a h' => k a n h'
    | Throw f => Throw f
    | Timeout => Timeout
    end.

(** A constructor call inside a computation. *)
Definition lift {D E A} (r : Fault + A) : M D E A :=
  match r with
  | inl f => throw f
  | inr a => ret a
  end.

Notation "'let*' x ':=' c 'in' k" := (bind c (fun x => k))
  (at level 10, x name, c at level 100, k at level 200).

(** [class TokenParser]: the location of its private fields and the
    function handed to its constructor. *)
Record TokenParser {D E : Type} := mkTokenParser {
  self : nat;
  raw : ParseState D E → M D E (ParseState D E);
}.
Arguments TokenParser D E : clear implicits.
Arguments mkTokenParser {D E} _ _.

(** [type ParseErrorProduction<E> = (target: string, index: number) => E] *)
Definition ParseErrorProduction (E : Type) : Type := string → Z → Semantics E.

Section TokenLayer.
Context {D E : Type} `{!Identifiable D, !Identifiable E}.

Abbreviation State := (ParseState D E).
Abbreviation Parser := (TokenParser D E).
Abbreviation Comp := (M D E).

(** *** Heap accessors *)

Definition empty_heap : Heap D E := mkHeap 0%nat ∅ ∅.

Definition currentTarget (l : nat) (h : Heap D E) : string :=
  default "" (currentTargets h !! l).

Definition map_at (l : nat) (h : Heap D E) : gmap string State :=
  default ∅ (maps h !! l).

Definition set_currentTarget (l : nat) (t : string) (h : Heap D E) : Heap D E :=
  mkHeap (next_loc h) (maps h) (<[l := t]> (currentTargets h)).

Definition set_map_at (l : nat) (m : gmap string State) (h : Heap D E)
  : Heap D E :=
  mkHeap (next_loc h) (<[l := m]> (maps h)) (currentTargets h).

(** [map.set(key, value)] on the [Map] at [l]. *)
Definition map_set (l : nat) (key : string) (v : State) : Comp unit :=
  fun _ h => Ret tt (set_map_at l (<[key := v]> (map_at l h)) h).

(** The heap after [new Map()]. *)
Definition with_new_Map (h : Heap D E) : Heap D E :=
  mkHeap (S (next_loc h)) (<[next_loc h := ∅]> (maps h)) (currentTargets h).

(** [new Map()] *)
Definition new_Map : Comp nat :=
  fun _ h => Ret (next_loc h) (with_new_Map h).

(** *** [class TokenParser] *)

(** The target-change flush at the head of the wrapped transformer:
    [if (state.target !== self.currentTarget) { ...; self.memotable.clear() }] *)
Definition flush (l : nat) (state : State) (h : Heap D E) : Heap D E :=
  if decide (target state = currentTarget l h) then h
  else set_map_at l ∅ (set_currentTarget l (target state) h).

(** [parser.transformer]: the memoising wrapper the constructor installs
    around the function it is given. *)
Definition transformer (p : Parser) (state : State) : Comp State :=
  fun n h =>
    let h1 := flush (self p) state h in
    match map_at (self p) h1 !! state_identity state with
    | Some memoised => Ret memoised h1
    | None =>
        match raw p state n h1 with
        | Ret nextState h2 =>
            Ret nextState
              (set_map_at (self p)
                 (<[state_identity state := nextState]> (map_at (self p) h2)) h2)
        | Throw f => Throw f
        | Timeout => Timeout
        end
    end.

(** The heap after [new TokenParser(...)]: fresh fields,
    [currentTarget = ''] and an empty memo table. *)
Definition with_new_TokenParser (h : Heap D E) : Heap D E :=
  mkHeap (S (next_loc h)) (<[next_loc h := ∅]> (maps h))
    (<[next_loc h := ""]> (currentTargets h)).

(** [new TokenParser(transformer)] *)
Definition new_TokenParser (f : State → Comp State) : Comp Parser :=
  fun _ h => Ret (mkTokenParser (next_loc h) f) (with_new_TokenParser h).

(** [TokenParser.run(target, data, index?)] *)
Definition run (p : Parser) (t : string) (d : Semantics D) (i : option Z)
  : Comp (list State) :=
  let* s0 := lift (new_ParseResult t (default 0 i) [] d) in
  let* out := transformer p s0 in
  ret [out].

(** *** Primitive and structural token combinators *)

(** [str(s, EOFError, matchError)] *)
Definition str_raw (s : string) (EOFError matchError : ParseErrorProduction E)
    (state : State) : Comp State :=
  if isError state then ret state
  else if js_length (target state) <=? index state then
    lift (updateParseError state (EOFError (target state) (index state)))
  else if negb (js_startsWith (js_slice (target state) (index state)) s) then
    lift (updateParseError state (matchError (target state) (index state)))
  else
    lift (updateParseResult state (index state + js_length s) (data state) (Some s)).

Definition str (s : string) (EOFError matchError : ParseErrorProduction E)
  : Comp Parser :=
  new_TokenParser (str_raw s EOFError matchError).

(** The [while (true)] loop of [many]; one unit of fuel per iteration. *)
Fixpoint many_loop (parser : Parser) (n : nat) (nextState : State)
    (h : Heap D E) : Outcome (Heap D E) State :=
  match n with
  | O => Timeout
  | S n' =>
      match transformer parser nextState n' h with
      | Ret output h' =>
          if isError output then Ret nextState h'
          else if js_length (target output) <=? index output then Ret output h'
          else many_loop parser n' output h'
      | Throw f => Throw f
      | Timeout => Timeout
      end
  end.

(** [many(parser)] *)
Definition many_raw (parser : Parser) (state : State) : Comp State :=
  if isError state then ret state
  else fun n h => many_loop parser n state h.

Definition many (parser : Parser) : Comp Parser :=
  new_TokenParser (many_raw parser).

(** [many1(parser, matchError)] *)
Definition many1_raw (parser : Parser) (matchError : ParseErrorProduction E)
    (state : State) : Comp State :=
  if isError state then ret state
  else
    let* inner := many parser in
    let* nextState := transformer inner state in
    if negb (isError nextState) && (length (result nextState) =? 0)%nat then
      lift (updateParseError state (matchError (target state) (index state)))
    else ret nextState.

Definition many1 (parser : Parser) (matchError : ParseErrorProduction E)
  : Comp Parser :=
  new_TokenParser (many1_raw parser matchError).

(** The [while (true)] loop of [until] together with the two statements
    that follow its [break]. *)
Fixpoint until_loop (terminator : Parser) (EOFError : ParseErrorProduction E)
    (start : Z) (n : nat) (nextState : State) (h : Heap D E)
  : Outcome (Heap D E) State :=
  match n with
  | O => Timeout
  | S n' =>
      match transformer terminator nextState n' h with
      | Ret output h' =>
          if negb (isError output) then
            lift (updateParseResult nextState (index nextState) (data nextState)
                    (Some (js_substring (target nextState) start (index nextState))))
                 n' h'
          else if js_length (target nextState) <=? index nextState then
            lift (updateParseError nextState
                    (EOFError (target nextState) (index nextState))) n' h'
          else
            match updateParseResult nextState (index nextState + 1)
                    (data nextState) None with
            | inl f => Throw f
            | inr next => until_loop terminator EOFError start n' next h'
            end
      | Throw f => Throw f
      | Timeout => Timeout
      end
  end.

(** [until(terminator, EOFError)] *)
Definition until_raw (terminator : Parser) (EOFError : ParseErrorProduction E)
    (state : State) : Comp State :=
  if isError state then ret state
  else fun n h => until_loop terminator EOFError (index state) n state h.

Definition until (terminator : Parser) (EOFError : ParseErrorProduction E)
  : Comp Parser :=
  new_TokenParser (until_raw terminator EOFError).

(** [error(error)] *)
Definition error_raw (e : Semantics E) (state : State) : Comp State :=
  if isError state then ret state else lift (updateParseError state e).

Definition error_ (e : Semantics E) : Comp Parser :=
  new_TokenParser (error_raw e).

(** [recovery(data)] *)
Definition recovery_raw (d : Semantics D) (state : State) : Comp State :=
  if negb (isError state) then ret state
  else lift (updateParseResult state (index state) d None).

Definition recovery (d : Semantics D) : Comp Parser :=
  new_TokenParser (recovery_raw d).

(** [map(parser, mdata, merror)], token branch *)
Definition map_raw (parser : Parser) (mdata : State → Semantics D)
    (merror : State → Semantics E) (state : State) : Comp State :=
  let* nextState := transformer parser state in
  if isError nextState then lift (updateParseError nextState (merror nextState))
  else lift (updateParseResult nextState (index nextState) (mdata nextState) None).

Definition map (parser : Parser) (mdata : State → Semantics D)
    (merror : State → Semantics E) : Comp Parser :=
  new_TokenParser (map_raw parser mdata merror).

(** *** [chain(parsers, action?)], token branch

    [backrefs] is the location of the [Map] shared by the closures of one
    invocation; [chains] holds one parser at a time, so the loop that
    pops and pushes it is a fold over the parsers it visits, last first. *)

(** The loop of the action closure: [data[i] = searchState!.data;
    searchState = backrefs.get(searchState.identity)!] for [i] from
    [parsers.length - 1] down to 0.  Reading [.data] off [undefined]
    throws. *)
Fixpoint chain_data (backrefs : gmap string State) (k : nat)
    (searchState : option State) (acc : list (Semantics D))
  : Fault + list (Semantics D) :=
  match k with
  | O => inr acc
  | S k' =>
      match searchState with
      | None => inl (TypeError "Cannot read properties of undefined")
      | Some s =>
          chain_data backrefs k' (backrefs !! state_identity s) (data s :: acc)
      end
  end.

(** The closure pushed first when an action is given. *)
Definition chain_action_raw (backrefs : nat) (len : nat)
    (action : list (Semantics D) → Semantics D) (state : State) : Comp State :=
  if isError state then ret state
  else fun n h =>
    match chain_data (map_at backrefs h) len (Some state) [] with
    | inl f => Throw f
    | inr data => lift (updateParseResult state (index state) (action data) None) n h
    end.

(** The closure pushed for [parsers[i]]. *)
Definition chain_step_raw (backrefs : nat) (hasAction : bool) (parser : Parser)
    (nextChain : Parser) (state : State) : Comp State :=
  let* nextState := transformer parser state in
  let* _ := (if hasAction && negb (isError nextState)
             then map_set backrefs (state_identity nextState) state
             else ret tt) in
  transformer nextChain nextState.

(** The [for] loop over [chains]: [steps] lists the visited parsers in
    the order of the visit. *)
Fixpoint chain_link (backrefs : nat) (hasAction : bool) (steps : list Parser)
    (nextChain : Parser) : Comp Parser :=
  match steps with
  | [] => ret nextChain
  | parser :: steps' =>
      let* c := new_TokenParser (chain_step_raw backrefs hasAction parser nextChain) in
      chain_link backrefs hasAction steps' c
  end.

Definition chain_raw (parsers : list Parser)
    (action : option (list (Semantics D) → Semantics D)) (state : State)
  : Comp State :=
  let* backrefs := new_Map in
  match action with
  | Some a =>
      let* final :=
        new_TokenParser (chain_action_raw backrefs (length parsers) a) in
      let* first := chain_link backrefs true (rev parsers) final in
      transformer first state
  | None =>
      match last parsers with
      | None => throw (TypeError "Cannot read properties of undefined")
      | Some final =>
          let* first := chain_link backrefs false (rev (removelast parsers)) final in
          transformer first state
      end
  end.

Definition chain (parsers : list Parser)
    (action : option (list (Semantics D) → Semantics D)) : Comp Parser :=
  new_TokenParser (chain_raw parsers action).

End TokenLayer.

(** ** The symbol layer

    Closures of the source are data here.  A continuation is one of the
    closures the source creates; a function object handed to
    [new SymbolParser(...)] is named by its position in the grammar's
    table of functions, which is its reference identity; a [SymbolParser]
    object is named by its position in the table of parsers and wraps one
    function object.  (The symbol branch of [chain], which constructs new
    parsers while it runs, is not part of this table.) *)

(** [type Continuation<D, E> = (state: ParseState<D, E>) => void] *)
Inductive Continuation {D E : Type} :=
  | KCollect
      (* generate: function (state) { results.push(state) } *)
  | KPublish (parser : nat) (key : string)
      (* the closure pushed with the work item of [parser] for the input
         state whose identity is [key] *)
  | KMap (mdata : ParseState D E → Semantics D)
      (merror : ParseState D E → Semantics E) (continuation : Continuation)
      (* map, symbol branch *)
  | KAssert (assertion : ParseState D E → option (Semantics E))
      (continuation : Continuation).
      (* assert, symbol branch *)
Arguments Continuation D E : clear implicits.

(** The function objects a [SymbolParser] is built from. *)
Inductive RawCode {D E : Type} :=
  | CodeToSymbol (parser : TokenParser D E)
  | CodeEmpty
  | CodeAlternatives (parsers : list nat)
  | CodeLazy (memoisedParser : nat)
  | CodeMap (parser : nat) (mdata : ParseState D E → Semantics D)
      (merror : ParseState D E → Semantics E)
  | CodeAssert (parser : nat) (assertion : ParseState D E → option (Semantics E)).
Arguments RawCode D E : clear implicits.

Record Grammar {D E : Type} := mkGrammar {
  functions : list (RawCode D E);
  parsers : list nat;
}.
Arguments Grammar D E : clear implicits.
Arguments mkGrammar {D E} _ _.

(** First component of a work item: [this.transformer] of a parser, or
    the function object the parser wraps. *)
Inductive Transformer :=
  | Wrapped (parser : nat)
  | RawFn (function : nat).

#[export] Instance Transformer_eq_dec : EqDecision Transformer.
Proof. solve_decision. Defined.

(** One memo entry: [{ results: Map<string, ParseState>, continuations }].
    [results] keeps the insertion order of the [Map]. *)
Record Entry {D E : Type} := mkEntry {
  results : list (string * ParseState D E);
  continuations : list (Continuation D E);
}.
Arguments Entry D E : clear implicits.
Arguments mkEntry {D E} _ _.

(** The mutable state of one run: the heap of the token parsers, the
    entry objects by location, and for every symbol parser its
    [currentTarget] and its [memotable] (keys to entry locations); the
    parse stack (top first) and the [results] array of [generate]. *)
Record Machine {D E : Type} := mkMachine {
  heap : Heap D E;
  entries : list (Entry D E);
  symTargets : gmap nat string;
  symMemos : gmap nat (gmap string nat);
  parseStack : list (Transformer * ParseState D E * Continuation D E);
  collected : list (ParseState D E);
}.
Arguments Machine D E : clear implicits.
Arguments mkMachine {D E} _ _ _ _ _ _.

(** What the interpreter is asked to do next: a call, or the rest of a
    [forEach] / [for ... of] loop. *)
Inductive Task {D E : Type} :=
  | CallTransformer (t : Transformer) (state : ParseState D E)
      (continuation : Continuation D E)
  | CallContinuation (continuation : Continuation D E) (state : ParseState D E)
  | Replay (entry : nat) (i : nat) (continuation : Continuation D E)
  | ForEachContinuation (ks : list (Continuation D E)) (state : ParseState D E)
  | ForEachParser (ps : list nat) (state : ParseState D E)
      (continuation : Continuation D E).
Arguments Task D E : clear implicits.

Module SymbolParser.
Section SymbolLayer.
Context {D E : Type} `{!Identifiable D, !Identifiable E}.

Abbreviation SState := (ParseState D E).
Abbreviation Mach := (Machine D E).

(** [static MAX_AMBIGUITY_BREADTH: number = Infinity]; [None] is
    [Infinity]. *)
Variable MAX_AMBIGUITY_BREADTH : option nat.

Variable grammar : Grammar D E.

(** Fuel handed to every token transformer the machine calls. *)
Variable token_fuel : nat.

Definition empty_machine (h : Heap D E) : Mach := mkMachine h [] ∅ ∅ [] [].

Definition with_heap (h : Heap D E) (m : Mach) : Mach :=
  mkMachine h (entries m) (symTargets m) (symMemos m) (parseStack m) (collected m).

Definition with_entries (es : list (Entry D E)) (m : Mach) : Mach :=
  mkMachine (heap m) es (symTargets m) (symMemos m) (parseStack m) (collected m).

Definition with_stack (st : list (Transformer * SState * Continuation D E))
    (m : Mach) : Mach :=
  mkMachine (heap m) (entries m) (symTargets m) (symMemos m) st (collected m).

Definition symTarget (p : nat) (m : Mach) : string :=
  default "" (symTargets m !! p).

Definition symMemo (p : nat) (m : Mach) : gmap string nat :=
  default ∅ (symMemos m !! p).

(** [if (state.target !== self.currentTarget) { self.memotable.clear(); ... }] *)
Definition sym_flush (p : nat) (state : SState) (m : Mach) : Mach :=
  if decide (target state = symTarget p m) then m
  else mkMachine (heap m) (entries m) (<[p := target state]> (symTargets m))
         (<[p := ∅]> (symMemos m)) (parseStack m) (collected m).

(** [entry.continuations.push(continuation)] *)
Definition subscribe (loc : nat) (k : Continuation D E) (m : Mach) : Mach :=
  with_entries
    (alter (fun e => mkEntry (results e) (continuations e ++ [k])) loc (entries m)) m.

(** [self.memotable.set(state.identity, { results: new Map(), continuations: [] })] *)
Definition new_entry (p : nat) (key : string) (m : Mach) : nat * Mach :=
  let loc := length (entries m) in
  (loc,
   mkMachine (heap m) (entries m ++ [mkEntry [] []]) (symTargets m)
     (<[p := <[key := loc]> (symMemo p m)]> (symMemos m))
     (parseStack m) (collected m)).

(** [entry.results.set(resultState.identity, resultState)] for a new key *)
Definition store_result (loc : nat) (r : SState) (m : Mach) : Mach :=
  with_entries
    (alter (fun e => mkEntry (results e ++ [(state_identity r, r)]) (continuations e))
       loc (entries m)) m.

(** [results.push(state)] in [generate] *)
Definition collect (state : SState) (m : Mach) : Mach :=
  mkMachine (heap m) (entries m) (symTargets m) (symMemos m) (parseStack m)
    (collected m ++ [state]).

(** [entry.results.get(id)] *)
Definition results_get (e : Entry D E) (id : string) : option SState :=
  match list_find (fun kv => kv.1 = id) (results e) with
  | Some (_, (_, r)) => Some r
  | None => None
  end.

(** The array [parseStack.filter(item => item[0] === transformer &&
    item[1].identity === state.identity)]. *)
Definition pending_items (f : nat) (key : string) (m : Mach)
  : list (Transformer * SState * Continuation D E) :=
  filter (fun item => item.1.1 = RawFn f ∧ state_identity item.1.2 = key)
    (parseStack m).

(** An array is an object, and every object is truthy. *)
Definition js_truthy_array {A} (a : list A) : bool := true.

(** [Array.from(results).filter(v => v[1].index === v[1].target.length).length] *)
Definition full_length_count (e : Entry D E) : nat :=
  length (filter (fun kv => index kv.2 = js_length (target kv.2)) (results e)).

(** The guard of the publisher:
    [MAX_AMBIGUITY_BREADTH !== Infinity && count > MAX_AMBIGUITY_BREADTH] *)
Definition breadth_exceeded (e : Entry D E) : bool :=
  match MAX_AMBIGUITY_BREADTH with
  | None => false
  | Some bound => bool_decide (bound < full_length_count e)%nat
  end.

Definition undefined_fault : Fault :=
  TypeError "Cannot read properties of undefined".

(** The interpreter; one unit of fuel per call or loop step. *)
Fixpoint perform (n : nat) (task : Task D E) (m : Mach) : Outcome Mach unit :=
  match n with
  | O => Timeout
  | S n' =>
    let andThen (r : Outcome Mach unit) (next : Task D E) :=
      match r with
      | Ret _ m' => perform n' next m'
      | other => other
      end in
    match task with
    | CallTransformer (Wrapped p) state continuation =>
        (* the function the constructor of [SymbolParser] installs *)
        match parsers grammar !! p with
        | None => Throw undefined_fault
        | Some f =>
            let m1 := sym_flush p state m in
            match symMemo p m1 !! state_identity state with
            | Some loc =>
                perform n' (Replay loc 0 continuation) (subscribe loc continuation m1)
            | None =>
                let '(loc, m2) := new_entry p (state_identity state) m1 in
                let m3 := subscribe loc continuation m2 in
                if js_truthy_array (pending_items f (state_identity state) m3) then
                  Ret tt (with_stack
                            ((RawFn f, state, KPublish p (state_identity state))
                               :: parseStack m3) m3)
                else Ret tt m3
            end
        end
    | CallTransformer (RawFn f) state continuation =>
        match functions grammar !! f with
        | None => Throw undefined_fault
        | Some (CodeToSymbol parser) =>
            match transformer parser state token_fuel (heap m) with
            | Ret out h' => perform n' (CallContinuation continuation out) (with_heap h' m)
            | Throw e => Throw e
            | Timeout => Timeout
            end
        | Some CodeEmpty => perform n' (CallContinuation continuation state) m
        | Some (CodeAlternatives ps) =>
            if isError state then perform n' (CallContinuation continuation state) m
            else perform n' (ForEachParser ps state continuation) m
        | Some (CodeLazy q) =>
            perform n' (CallTransformer (Wrapped q) state continuation) m
        | Some (CodeMap q mdata merror) =>
            perform n' (CallTransformer (Wrapped q) state (KMap mdata merror continuation)) m
        | Some (CodeAssert q assertion) =>
            if isError state then perform n' (CallContinuation continuation state) m
            else perform n' (CallTransformer (Wrapped q) state (KAssert assertion continuation)) m
        end
    | CallContinuation KCollect state => Ret tt (collect state m)
    | CallContinuation (KPublish p key) resultState =>
        match symMemo p m !! key ≫= (fun loc => entries m !! loc ≫= (fun e => Some (loc, e))) with
        | None => Throw undefined_fault
        | Some (loc, e) =>
            if breadth_exceeded e then Throw breadth_fault
            else
              match results_get e (state_identity resultState) with
              | Some _ => Ret tt m
              | None =>
                  let m1 := store_result loc resultState m in
                  perform n' (ForEachContinuation (continuations e) resultState) m1
              end
        end
    | CallContinuation (KMap mdata merror k) nextState =>
        match (if isError nextState
               then updateParseError nextState (merror nextState)
               else updateParseResult nextState (index nextState) (mdata nextState) None) with
        | inl f => Throw f
        | inr mapped => perform n' (CallContinuation k mapped) m
        end
    | CallContinuation (KAssert assertion k) state =>
        if isError state then perform n' (CallContinuation k state) m
        else
          match assertion state with
          | Some e =>
              match updateParseError state e with
              | inl f => Throw f
              | inr failed => perform n' (CallContinuation k failed) m
              end
          | None => perform n' (CallContinuation k state) m
          end
    | Replay loc i k =>
        (* results.forEach(result => continuation(result)); a [Map] also
           visits the entries added while it is being traversed *)
        match entries m !! loc ≫= (fun e => results e !! i) with
        | None => Ret tt m
        | Some (_, r) =>
            andThen (perform n' (CallContinuation k r) m) (Replay loc (S i) k)
        end
    | ForEachContinuation [] _ => Ret tt m
    | ForEachContinuation (k :: ks) state =>
        andThen (perform n' (CallContinuation k state) m) (ForEachContinuation ks state)
    | ForEachParser [] _ _ => Ret tt m
    | ForEachParser (p :: ps) state k =>
        andThen (perform n' (CallTransformer (Wrapped p) state k) m)
                (ForEachParser ps state k)
    end
  end.

(** The first inner loop of [generate]:
    [while (parseStack.length > 0 && results.length <= resultsCount)
       { pop one work item and call it }] *)
Fixpoint pop_loop (n : nat) (resultsCount : nat) (m : Mach) : Outcome Mach unit :=
  match n with
  | O => Timeout
  | S n' =>
      match parseStack m with
      | [] => Ret tt m
      | (t, nextState, continuation) :: rest =>
          if (length (collected m) <=? resultsCount)%nat then
            match perform n' (CallTransformer t nextState continuation)
                    (with_stack rest m) with
            | Ret _ m' => pop_loop n' resultsCount m'
            | other => other
            end
          else Ret tt m
      end
  end.

(** The outer loop of [generate], drained by a [for ... of]: after each
    round of pops the second inner loop yields [results[resultsCount]],
    [results[resultsCount + 1]], ... up to the end of [results]. *)
Fixpoint generate_loop (n : nat) (resultsCount : nat) (yielded : list SState)
    (m : Mach) : Outcome Mach (list SState) :=
  match n with
  | O => Timeout
  | S n' =>
      match parseStack m with
      | [] => Ret yielded m
      | _ :: _ =>
          match pop_loop n' resultsCount m with
          | Ret _ m' =>
              generate_loop n' (resultsCount `max` length (collected m'))
                (yielded ++ drop resultsCount (collected m')) m'
          | Throw f => Throw f
          | Timeout => Timeout
          end
      end
  end.

(** [generate(target, data, index?)] of the parser [root], with every
    yielded state collected in order. *)
Definition generate (root : nat) (t : string) (d : Semantics D) (i : option Z)
    (n : nat) (m : Mach) : Outcome Mach (list SState) :=
  match new_ParseResult t (default 0 i) [] d with
  | inl f => Throw f
  | inr s0 =>
      generate_loop n 0 []
        (mkMachine (heap m) (entries m) (symTargets m) (symMemos m)
           [(Wrapped root, s0, KCollect)] [])
  end.

(** [results.sort((a, b) => a.index - b.index)]: ascending by [index];
    the sort of an array is stable. *)
Fixpoint insert_by_index (x : SState) (l : list SState) : list SState :=
  match l with
  | [] => [x]
  | y :: l' => if index x <=? index y then x :: y :: l' else y :: insert_by_index x l'
  end.

Definition sort_by_index (l : list SState) : list SState :=
  foldr insert_by_index [] l.

(** The statements of [run] after the generator is drained. *)
Definition select_results (collected : list SState) : Fault + list SState :=
  let sorted := sort_by_index collected in
  match last sorted with
  | None => inl undefined_fault
  | Some top =>
      let maxIndex := index top in
      let maxResults := filter (fun state => maxIndex ≤ index state) sorted in
      let nonErrorResults := filter (fun state => isError state = false) maxResults in
      inr (if (0 <? length nonErrorResults)%nat then nonErrorResults else maxResults)
  end.

(** [run(target, data, index?)] of the parser [root]. *)
Definition run (root : nat) (t : string) (d : Semantics D) (i : option Z)
    (n : nat) (m : Mach) : Outcome Mach (list SState) :=
  match generate root t d i n m with
  | Ret results m' =>
      match select_results results with
      | inl f => Throw f
      | inr selected => Ret selected m'
      end
  | Throw f => Throw f
  | Timeout => Timeout
  end.

End SymbolLayer.

(** [SymbolParser.toSymbol(parser)]: one function object, one parser. *)
Definition toSymbol {D E} (parser : TokenParser D E) : Grammar D E :=
  mkGrammar [CodeToSymbol parser] [0%nat].

End SymbolParser.

(** ** Concrete parsers, states and grammars used in the examples *)

Module Examples.

Abbreviation St := (ParseState StaticSemantics StaticSemantics).
Abbreviation TP := (TokenParser StaticSemantics StaticSemantics).

Definition eof : ParseErrorProduction StaticSemantics :=
  fun _ _ => Value (mkStatic "EOF" 0).

Definition mismatch : ParseErrorProduction StaticSemantics :=
  fun _ _ => Value (mkStatic "match" 0).

Definition onEmpty : ParseErrorProduction StaticSemantics :=
  fun _ _ => Value (mkStatic "empty" 0).

(** [str("a", eof, mismatch)], [str("c", ...)] and [str("x", ...)], built first. *)
Definition a : TP := mkTokenParser 0 (str_raw "a" eof mismatch).
Definition c : TP := mkTokenParser 1 (str_raw "c" eof mismatch).
Definition x : TP := mkTokenParser 2 (str_raw "x" eof mismatch).

(** The heap right after the three constructions. *)
Definition heap3 : Heap StaticSemantics StaticSemantics :=
  mkHeap 3 (<[2%nat := ∅]> (<[1%nat := ∅]> (<[0%nat := ∅]> ∅)))
    (<[2%nat := ""]> (<[1%nat := ""]> (<[0%nat := ""]> ∅))).

(** [many(a)], [many1(x, onEmpty)], [until(c, eof)] and the [map]s of
    [a], each constructed after its argument. *)
Definition many_a : TP := mkTokenParser 3 (many_raw a).
Definition many1_x : TP := mkTokenParser 3 (many1_raw x onEmpty).
Definition until_c : TP := mkTokenParser 3 (until_raw c eof).

Definition tag (id : string) : St → Semantics StaticSemantics :=
  fun _ => Value (mkStatic id 0).

Definition a_as (id : string) (l : nat) : TP :=
  mkTokenParser l (map_raw a (tag id) error).

(** [action = data => data[0]] and the two sides of the singleton law. *)
Definition first_datum (data : list (Semantics StaticSemantics))
  : Semantics StaticSemantics :=
  default NoSemantics (head data).

(** [chain([a, many1(x, onEmpty)])] *)
Definition a_then_many1_x : TP := mkTokenParser 4 (chain_raw [a; many1_x] None).

(** The heap after two more constructions, for the objects at 3 and 4. *)
Definition heap5 : Heap StaticSemantics StaticSemantics :=
  with_new_TokenParser (with_new_TokenParser heap3).

Definition chain_a : TP := mkTokenParser 3 (chain_raw [a] None).
Definition chain_a_action : TP := mkTokenParser 3 (chain_raw [a] (Some first_datum)).
Definition map_a_action : TP :=
  mkTokenParser 4 (map_raw a (fun s => first_datum [data s]) error).

(** Input states. *)
Definition at_start (t : string) : St := ParseResult t 0 [] NoSemantics.
Definition after_a : St := ParseResult "ab" 1 ["a"] NoSemantics.
Definition failed : St := ParseError "ab" 1 ["a"] (Value (mkStatic "match" 0)).

(** The two calls [many(a)] makes to [a] on the target ["aa"] before the
    end of the target stops the loop: the state handed over and the heap
    of that moment. *)
Definition many_a_heap0 : Heap StaticSemantics StaticSemantics :=
  flush 3 (at_start "aa") heap3.

Definition many_a_heap1 : Heap StaticSemantics StaticSemantics :=
  match transformer a (at_start "aa") 0%nat many_a_heap0 with
  | Ret _ h => h
  | _ => many_a_heap0
  end.

Definition many_a_calls (state : St) (h : Heap StaticSemantics StaticSemantics) : Prop :=
  (state = at_start "aa" ∧ h = many_a_heap0) ∨
  (state = ParseResult "aa" 1 ["a"] NoSemantics ∧ h = many_a_heap1).

(** [alternatives([A, B])] where [A] and [B] are two [SymbolParser]s built
    from the same function object [f = (state, k, stack) => k(state)]. *)
Definition shared_function : Grammar StaticSemantics StaticSemantics :=
  mkGrammar [CodeAlternatives [1; 2]%nat; CodeEmpty] [0; 1; 1]%nat.

(** [alternatives([toSymbol(map(a, x)), toSymbol(map(a, y))])]: two parses
    of ["a"] with distinct identities. *)
Definition two_parses : Grammar StaticSemantics StaticSemantics :=
  mkGrammar [CodeAlternatives [1; 2]%nat; CodeToSymbol (a_as "x" 1);
             CodeToSymbol (a_as "y" 2)] [0; 1; 2]%nat.

(** The same with a third parse, tagged [z]. *)
Definition three_parses : Grammar StaticSemantics StaticSemantics :=
  mkGrammar [CodeAlternatives [1; 2; 3]%nat; CodeToSymbol (a_as "x" 1);
             CodeToSymbol (a_as "y" 2); CodeToSymbol (a_as "z" 3)] [0; 1; 2; 3]%nat.

(** [alternatives([toSymbol(a), empty])] *)
Definition optional_a : Grammar StaticSemantics StaticSemantics :=
  mkGrammar [CodeAlternatives [1; 2]%nat; CodeToSymbol a; CodeEmpty] [0; 1; 2]%nat.

End Examples.

(** ** Vocabulary of the statements *)

Section Vocabulary.
Context {D E : Type} `{!Identifiable D, !Identifiable E}.

(** The memo table of [p] has no answer for [state] once the target-change
    flush has been applied: the call runs the function [p] wraps. *)
Definition miss (p : TokenParser D E) (state : ParseState D E) (h : Heap D E) : Prop :=
  map_at (self p) (flush (self p) state h) !! state_identity state = None.

(** What a caller sees of a call: the value, the fault, or no answer. *)
Definition observe {S A} (o : Outcome S A) : Outcome unit A :=
  match o with
  | Ret a _ => Ret a tt
  | Throw f => Throw f
  | Timeout => Timeout
  end.

(** The computation [c], started in [h], ends (with a value or a fault)
    as soon as it is given enough fuel. *)
Definition returns {A} (c : M D E A) (h : Heap D E) : Prop :=
  ∃ N r, r ≠ Timeout ∧ ∀ n, (N ≤ n)%nat → c n h = r.

(** Along the calls described by [J] (a state handed to [p] and the heap
    of that moment), [p] ends, and each of its successes strictly
    increases [index], keeps the target, and leaves a state and a heap
    that [J] describes again unless the end of the target is reached. *)
Definition progresses (p : TokenParser D E)
    (J : ParseState D E → Heap D E → Prop) : Prop :=
  ∀ state h,
    J state h → isError state = false →
    ∃ N r, r ≠ Timeout ∧
           (∀ n, (N ≤ n)%nat → transformer p state n h = r) ∧
           (∀ out h', r = Ret out h' → isError out = false →
                      index state < index out ∧ target out = target state ∧
                      (index out < js_length (target out) → J out h')).

(** [p] is [new TokenParser(state => state)]: it hands every state back
    as it is, consuming nothing. *)
Definition hands_back (p : TokenParser D E) : Prop :=
  ∀ state n h, raw p state n h = Ret state h.

(** Every answer recorded in the table at [l] is a result that has not
    reached the end of its target. *)
Definition table_of_unfinished (l : nat) (h : Heap D E) : Prop :=
  ∀ key out, map_at l h !! key = Some out →
             isError out = false ∧ index out < js_length (target out).

(** The largest [index] of a non-empty list of states. *)
Definition max_index (first : ParseState D E) (others : list (ParseState D E)) : Z :=
  foldr (fun s acc => Z.max (index s) acc) (index first) others.

(** Along the heaps described by [J], [terminator] answers every result
    state at once, with a success exactly where [matches] says. *)
Definition decides (terminator : TokenParser D E) (J : Heap D E → Prop)
    (matches : string → Z → bool) : Prop :=
  ∀ st h, J h → isError st = false →
    ∃ out h', (∀ n, transformer terminator st n h = Ret out h') ∧ J h' ∧
              isError out = negb (matches (target st) (index st)).

(** No token parser promoted by the grammar throws the breadth fault itself. *)
Definition tokens_never_raise_breadth (g : Grammar D E) (tf : nat) : Prop :=
  ∀ (f : nat) (parser : TokenParser D E) s h,
    functions g !! f = Some (CodeToSymbol parser) →
    transformer parser s tf h ≠ Throw breadth_fault.

(** The private fields of the object at [l] are the same in both heaps. *)
Definition same_fields (l : nat) (h1 h2 : Heap D E) : Prop :=
  map_at l h1 = map_at l h2 ∧ currentTarget l h1 = currentTarget l h2.

(** What [p] answers depends only on the fields of the objects
    constructed up to [p]: itself and the parsers it was built from. *)
Definition reads_up_to_self (p : TokenParser D E) : Prop :=
  ∀ s n h1 h2,
    (self p < next_loc h1)%nat → (self p < next_loc h2)%nat →
    (∀ l, (l ≤ self p)%nat → same_fields l h1 h2) →
    observe (transformer p s n h1) = observe (transformer p s n h2).

(** A call of [p] leaves the fields of the objects constructed after [p]
    as they were. *)
Definition leaves_later_objects (p : TokenParser D E) : Prop :=
  ∀ s n h out h' l,
    transformer p s n h = Ret out h' →
    (self p < l < next_loc h)%nat → same_fields l h' h.

(** The function handed to the constructor of [p] is pure: it computes
    its answer from the state alone. *)
Definition pure_raw (p : TokenParser D E) : Prop :=
  ∃ f : ParseState D E → Fault + ParseState D E,
    ∀ s n h, raw p s n h = lift (f s) n h.

(** What [chain([p], action)] makes of the answer of [p]. *)
Definition rebuilt (action : list (Semantics D) → Semantics D) (n : nat)
    (h : Heap D E) (o : Outcome unit (ParseState D E))
  : Outcome unit (ParseState D E) :=
  match o with
  | Ret nextState _ =>
      if isError nextState then Ret nextState tt
      else observe (lift (updateParseResult nextState (index nextState)
                            (action [data nextState]) None) n h)
  | Throw f => Throw f
  | Timeout => Timeout
  end.

(** The machine a symbol parser [p] wrapping the function [f] leaves when
    it is called on a state its memo table does not know: a new entry
    subscribed to by [k], and one more work item on the stack. *)
Definition pushed (p f : nat) (s : ParseState D E) (k : Continuation D E)
    (m : Machine D E) : Machine D E :=
  let m1 := SymbolParser.sym_flush p s m in
  let created := SymbolParser.new_entry p (state_identity s) m1 in
  let m3 := SymbolParser.subscribe created.1 k created.2 in
  SymbolParser.with_stack
    ((RawFn f, s, KPublish p (state_identity s)) :: parseStack m3) m3.

(** The answer of the eager driver in the words of the specification:
    of the collected states, those at the largest index; among them the
    results when there is one, the errors otherwise. *)
Definition farthest_progress (first : ParseState D E) (others : list (ParseState D E))
  : list (ParseState D E) :=
  let farthest :=
    filter (fun s => index s = max_index first others) (first :: others) in
  if decide (Exists (fun s => isError s = false) farthest)
  then filter (fun s => isError s = false) farthest
  else filter (fun s => isError s = true) farthest.

End Vocabulary.

(** ** More token combinators *)

Section ChoiceCombinator.
Context {D E : Type} `{!Identifiable D, !Identifiable E}.

(** The [for (let parser of parsers)] loop of [choice]: the first answer
    that is not an error, if there is one. *)
Fixpoint choice_loop (parsers : list (TokenParser D E)) (state : ParseState D E)
  : M D E (option (ParseState D E)) :=
  match parsers with
  | [] => ret None
  | parser :: rest =>
      let* output := transformer parser state in
      if negb (isError output) then ret (Some output) else choice_loop rest state
  end.

(** [choice(parsers, matchError)] *)
Definition choice_raw (parsers : list (TokenParser D E))
    (matchError : ParseErrorProduction E) (state : ParseState D E)
  : M D E (ParseState D E) :=
  if isError state then ret state
  else
    let* found := choice_loop parsers state in
    match found with
    | Some output => ret output
    | None => lift (updateParseError state (matchError (target state) (index state)))
    end.

Definition choice (parsers : list (TokenParser D E))
    (matchError : ParseErrorProduction E) : M D E (TokenParser D E) :=
  new_TokenParser (choice_raw parsers matchError).

End ChoiceCombinator.

(** ** More vocabulary *)

(** No character of [s] is the underscore. *)
Fixpoint no_underscore (s : string) : Prop :=
  match s with
  | EmptyString => True
  | String c s' => c ≠ "_"%char ∧ no_underscore s'
  end.

(** [s] is empty or starts with an underscore. *)
Definition starts_a_field (s : string) : Prop :=
  s = "" ∨ ∃ s', s = String "_"%char s'.

Section TraceVocabulary.
Context {D E : Type} `{!Identifiable D, !Identifiable E}.

(** What [get identity()] appends after the index. *)
Definition identity_suffix (s : ParseState D E) : string :=
  if 0 <? js_length (semantics_identity s) then "_" +:+ semantics_identity s else "".

(** Called one after the other on [state], starting in [h], every parser
    of the list answers with an error, and [h'] is the heap they leave. *)
Fixpoint all_fail (parsers : list (TokenParser D E)) (state : ParseState D E)
    (n : nat) (h h' : Heap D E) : Prop :=
  match parsers with
  | [] => h' = h
  | parser :: rest =>
      ∃ out h1, transformer parser state n h = Ret out h1 ∧ isError out = true ∧
                all_fail rest state n h1 h'
  end.

(** Called on the result states of [t] at [i], [i + 1], ..., one call for
    each of [k] positions, starting in [h], [terminator] answers every
    time with an error, whatever the fuel; [h'] is the heap it leaves. *)
Fixpoint rejects (terminator : TokenParser D E) (t : string) (r : list string)
    (d : Semantics D) (i : Z) (k : nat) (h h' : Heap D E) : Prop :=
  match k with
  | O => h' = h
  | S k' =>
      ∃ out h1, (∀ n, transformer terminator (ParseResult t i r d) n h = Ret out h1) ∧
                isError out = true ∧
                rejects terminator t r d (i + 1) k' h1 h'
  end.

End TraceVocabulary.

(** ** More concrete heaps and grammars *)

Module MoreExamples.

(** The heap [a] leaves after it has answered the start of ["ab"]. *)
Definition heap_after_ab : Heap StaticSemantics StaticSemantics :=
  match transformer Examples.a (Examples.at_start "ab") 0%nat Examples.heap3 with
  | Ret _ h => h
  | _ => Examples.heap3
  end.

End MoreExamples.

(** ** Vocabulary of the machine invariant *)

Section MachineVocabulary.
Context {D E : Type} `{!Identifiable D, !Identifiable E}.

(** [k] is not the closure of [generate] that collects, nor a closure
    built around it. *)
Fixpoint collect_free (k : Continuation D E) : Prop :=
  match k with
  | KCollect => False
  | KPublish _ _ => True
  | KMap _ _ k' => collect_free k'
  | KAssert _ k' => collect_free k'
  end.

(** The continuations a task is about to call or to hand on are
    [collect_free]. *)
Definition task_collect_free (task : Task D E) : Prop :=
  match task with
  | CallTransformer _ _ k => collect_free k
  | CallContinuation k _ => collect_free k
  | Replay _ _ k => collect_free k
  | ForEachContinuation ks _ => Forall collect_free ks
  | ForEachParser _ _ k => collect_free k
  end.

(** The memo entry of the seed call of a run that has collected [coll]:
    its first subscriber is the collecting closure, which is subscribed
    nowhere else; its results are keyed by their identities, no key
    occurs twice, and they are the collected states in order. *)
Definition seed_entry (e0 : Entry D E) (coll : list (ParseState D E)) : Prop :=
  (∃ ks, continuations e0 = KCollect :: ks ∧ Forall collect_free ks) ∧
  coll = (results e0).*2 ∧
  NoDup (results e0).*1 ∧
  Forall (fun kv => kv.1 = state_identity kv.2) (results e0).

(** The state of a run between two calls, after the seed call of
    [generate] on a machine that was empty. *)
Definition run_invariant (m : Machine D E) : Prop :=
  match entries m with
  | [] => False
  | e0 :: rest =>
      seed_entry e0 (collected m) ∧
      Forall (fun e => Forall collect_free (continuations e)) rest
  end ∧
  Forall (fun item => collect_free item.2) (parseStack m).

End MachineVocabulary.

(** ** Grammars over one token parser *)

Section SymbolGrammars.
Context {D E : Type} `{!Identifiable D, !Identifiable E}.

(** [currentTarget] of every symbol parser after [p] was called on [s]. *)
Definition flushed_targets (p : nat) (s : ParseState D E) (tg : gmap nat string)
  : gmap nat string :=
  if decide (target s = default "" (tg !! p)) then tg else <[p := target s]> tg.

(** [SymbolParser.lazy(() => toSymbol(parser))] *)
Definition lazy_toSymbol (parser : TokenParser D E) : Grammar D E :=
  mkGrammar [CodeLazy 1; CodeToSymbol parser] [0; 1]%nat.

(** [map(toSymbol(parser), mdata, merror)] *)
Definition map_toSymbol (parser : TokenParser D E)
    (mdata : ParseState D E → Semantics D) (merror : ParseState D E → Semantics E)
  : Grammar D E :=
  mkGrammar [CodeMap 1 mdata merror; CodeToSymbol parser] [0; 1]%nat.

(** [alternatives([toSymbol(parser), empty])] *)
Definition toSymbol_or_empty (parser : TokenParser D E) : Grammar D E :=
  mkGrammar [CodeAlternatives [1; 2]%nat; CodeToSymbol parser; CodeEmpty] [0; 1; 2]%nat.

End SymbolGrammars.

(** ** Vocabulary of the statements about [chain] *)

Section SequenceVocabulary.
Context {D E : Type} `{!Identifiable D, !Identifiable E}.

(** The parsers of a list run one after the other, each on the answer of
    the one before; an error is handed on like a result. *)
Fixpoint sequence (parsers : list (TokenParser D E)) (state : ParseState D E)
  : M D E (ParseState D E) :=
  match parsers with
  | [] => ret state
  | parser :: rest =>
      let* nextState := transformer parser state in
      sequence rest nextState
  end.

(** The objects below [L] have the same fields in both heaps. *)
Definition agree_below (L : nat) (h1 h2 : Heap D E) : Prop :=
  ∀ l, (l < L)%nat → same_fields l h1 h2.

(** [p] lives below [L]: what it answers, and what it does to the objects
    below [L], depends on the objects below [L] only; the other objects
    that exist when it is called are left as they are, and no object is
    removed. *)
Definition local_below (L : nat) (p : TokenParser D E) : Prop :=
  ∀ s n h1 h2,
    agree_below L h1 h2 → (L ≤ next_loc h1)%nat → (L ≤ next_loc h2)%nat →
    match transformer p s n h1, transformer p s n h2 with
    | Ret out1 h1', Ret out2 h2' =>
        out1 = out2 ∧ agree_below L h1' h2' ∧
        (next_loc h1 ≤ next_loc h1')%nat ∧ (next_loc h2 ≤ next_loc h2')%nat ∧
        ∀ l, (L ≤ l < next_loc h1)%nat → same_fields l h1' h1
    | Throw f1, Throw f2 => f1 = f2
    | Timeout, Timeout => True
    | _, _ => False
    end.

(** What a closure of [chain] that stands for the parsers [rest] owes:
    called in a heap where the tables of the closures up to [top] are
    empty, it answers as the parsers of [rest] do in sequence. *)
Definition stands_for (L top : nat) (c : TokenParser D E)
    (rest : list (TokenParser D E)) : Prop :=
  ∀ s n h1 h2,
    agree_below L h1 h2 → (L ≤ next_loc h2)%nat → (top < next_loc h1)%nat →
    (∀ l, (L < l ≤ top)%nat → map_at l h1 = ∅) →
    observe (transformer c s n h1) = observe (sequence rest s n h2).

End SequenceVocabulary.

Section ChainActionVocabulary.
Context {D E : Type} `{!Identifiable D, !Identifiable E}.

(** The answers of the parsers of a list run in sequence, in order. *)
Fixpoint trace (parsers : list (TokenParser D E)) (state : ParseState D E)
  : M D E (list (ParseState D E)) :=
  match parsers with
  | [] => ret []
  | parser :: rest =>
      let* nextState := transformer parser state in
      let* others := trace rest nextState in
      ret (nextState :: others)
  end.

(** The back-references the closures of [chain] have written to the
    [Map] [backrefs] after the answers [outs], the first of them to the
    state [previous]: every success is entered under its identity with
    the state it was computed from; a later entry replaces an earlier
    one under the same key. *)
Fixpoint recorded (backrefs : gmap string (ParseState D E)) (previous : ParseState D E)
    (outs : list (ParseState D E)) : gmap string (ParseState D E) :=
  match outs with
  | [] => backrefs
  | out :: rest =>
      recorded (if isError out then backrefs
                else <[state_identity out := previous]> backrefs) out rest
  end.

(** What the action closure of [chain] makes of the last answer, given
    the back-references. *)
Definition concluded (action : list (Semantics D) → Semantics D) (len : nat)
    (backrefs : gmap string (ParseState D E)) (final : ParseState D E)
  : Outcome unit (ParseState D E) :=
  if isError final then Ret final tt
  else
    match chain_data backrefs len (Some final) [] with
    | inl f => Throw f
    | inr data =>
        match updateParseResult final (index final) (action data) None with
        | inl f => Throw f
        | inr rebuilt => Ret rebuilt tt
        end
    end.

(** What a closure of [chain] with an action owes when it stands for the
    parsers [rest]. *)
Definition stands_for_with_action (L top : nat)
    (action : list (Semantics D) → Semantics D) (len : nat)
    (c : TokenParser D E) (rest : list (TokenParser D E)) : Prop :=
  ∀ s n h1 h2,
    agree_below L h1 h2 → (L ≤ next_loc h2)%nat → (top < next_loc h1)%nat →
    (∀ l, (L < l ≤ top)%nat → map_at l h1 = ∅) →
    observe (transformer c s n h1)
    = match trace rest s n h2 with
      | Ret outs _ =>
          concluded action len (recorded (map_at L h1) s outs) (default s (last outs))
      | Throw f => Throw f
      | Timeout => Timeout
      end.

End ChainActionVocabulary.

(** ** [optional] and [assert] on the token layer *)

Section OptionalAndAssert.
Context {D E : Type} `{!Identifiable D, !Identifiable E}.

(** [optional(parser)] *)
Definition optional_raw (parser : TokenParser D E) (state : ParseState D E)
  : M D E (ParseState D E) :=
  if isError state then ret state
  else
    let* nextState := transformer parser state in
    ret (if isError nextState then state else nextState).

Definition optional (parser : TokenParser D E) : M D E (TokenParser D E) :=
  new_TokenParser (optional_raw parser).

(** [assert(parser, assertion)], token branch; [None] is [null]. *)
Definition assert_raw (parser : TokenParser D E)
    (assertion : ParseState D E → option (Semantics E)) (state : ParseState D E)
  : M D E (ParseState D E) :=
  if isError state then ret state
  else
    let* nextState := transformer parser state in
    if isError nextState then ret nextState
    else
      match assertion nextState with
      | Some assertionResult => lift (updateParseError nextState assertionResult)
      | None => ret nextState
      end.

Definition assert (parser : TokenParser D E)
    (assertion : ParseState D E → option (Semantics E)) : M D E (TokenParser D E) :=
  new_TokenParser (assert_raw parser assertion).

(** [assert(toSymbol(parser), assertion)] *)
Definition assert_toSymbol (parser : TokenParser D E)
    (assertion : ParseState D E → option (Semantics E)) : Grammar D E :=
  mkGrammar [CodeAssert 1 assertion; CodeToSymbol parser] [0; 1]%nat.

End OptionalAndAssert.

(** ** Vocabulary of the statements about [many] *)

Section RepetitionVocabulary.
Context {D E : Type} `{!Identifiable D, !Identifiable E}.

(** Called on [state] in [h] and then on each of its own answers,
    [parser] gives the answers [outs] in turn, every one a result short
    of the end of its target, whatever the fuel; [h'] is the heap it
    leaves. *)
Fixpoint repeats (parser : TokenParser D E) (state : ParseState D E)
    (outs : list (ParseState D E)) (h h' : Heap D E) : Prop :=
  match outs with
  | [] => h' = h
  | out :: rest =>
      ∃ h1, (∀ n, transformer parser state n h = Ret out h1) ∧
            isError out = false ∧ index out < js_length (target out) ∧
            repeats parser out rest h1 h'
  end.

End RepetitionVocabulary.

(** ** Facts about the constructors *)

Section ConstructorFacts.
Context {D E : Type} `{!Identifiable D, !Identifiable E}.

Lemma js_length_nonneg (s : string) : 0 ≤ js_length s.
Proof. unfold js_length. lia. Qed.

Lemma new_ParseResult_inr (t : string) (i : Z) (r : list string)
    (d : Semantics D) (s : ParseState D E) :
  new_ParseResult t i r d = inr s →
  s = ParseResult t i r d ∧ i ≤ js_length t ∧ js_length (join r) ≤ i.
Proof.
  unfold new_ParseResult. intros H.
  destruct (js_length t <? i) eqn:H1; [discriminate |].
  destruct (i <? js_length (join r)) eqn:H2; [discriminate |].
  apply Z.ltb_ge in H1, H2. by inversion H.
Qed.

Lemma new_ParseResult_checked (t : string) (i : Z) (r : list string) (d : Semantics D) :
  i ≤ js_length t → js_length (join r) ≤ i →
  new_ParseResult (E := E) t i r d = inr (ParseResult t i r d).
Proof.
  intros H1 H2. unfold new_ParseResult.
  apply Z.ltb_ge in H1, H2. by rewrite H1, H2.
Qed.

Lemma new_ParseError_inr (t : string) (i : Z) (r : list string)
    (e : Semantics E) (s : ParseState D E) :
  new_ParseError t i r e = inr s → s = ParseError t i r e ∧ i ≤ js_length t.
Proof.
  unfold new_ParseError. intros H.
  destruct (js_length t <? i) eqn:H1; [discriminate |].
  apply Z.ltb_ge in H1. by inversion H.
Qed.

Lemma new_ParseError_checked (t : string) (i : Z) (r : list string) (e : Semantics E) :
  i ≤ js_length t → new_ParseError (D := D) t i r e = inr (ParseError t i r e).
Proof.
  intros H1. unfold new_ParseError. apply Z.ltb_ge in H1. by rewrite H1.
Qed.

(** Every [ParseResult] that its constructor lets through satisfies the
    invariants, and every violation is a [RangeError]. *)
Lemma new_ParseResult_invariant (t : string) (i : Z) (r : list string) (d : Semantics D) :
  match new_ParseResult (E := E) t i r d with
  | inr s => state_invariant s
  | inl f =>
      (js_length t < i ∨ i < js_length (join r)) ∧
      (f = index_fault ∨ f = result_fault)
  end.
Proof.
  unfold new_ParseResult.
  destruct (js_length t <? i) eqn:H1.
  - apply Z.ltb_lt in H1. split; [by left | by left].
  - destruct (i <? js_length (join r)) eqn:H2.
    + apply Z.ltb_lt in H2. split; [by right | by right].
    + apply Z.ltb_ge in H1, H2. unfold state_invariant. simpl.
      pose proof (js_length_nonneg (join r)). lia.
Qed.

End ConstructorFacts.

(** C5 (the code departs from the specification).  [new ParseError] checks only
    [index > target.length]: with the target ["ASDF"] it constructs an
    error state whose tokens are longer than its index, and one whose
    index is negative, where [new ParseResult] throws a [RangeError] on
    the same arguments. *)
Theorem ParseError_constructed_outside_invariants :
  let e := Value (mkStatic "match" 0) in
  new_ParseError (D := StaticSemantics) "ASDF" 1 ["ASDF"] e
    = inr (ParseError "ASDF" 1 ["ASDF"] e) ∧
  ¬ state_invariant (ParseError (D := StaticSemantics) "ASDF" 1 ["ASDF"] e) ∧
  new_ParseError (D := StaticSemantics) "ASDF" (-1) [] e
    = inr (ParseError "ASDF" (-1) [] e) ∧
  ¬ state_invariant (ParseError (D := StaticSemantics) "ASDF" (-1) [] e) ∧
  new_ParseResult (E := StaticSemantics) "ASDF" 1 ["ASDF"] e = inl result_fault ∧
  new_ParseResult (E := StaticSemantics) "ASDF" (-1) [] e = inl result_fault.
Proof.
  cbv zeta. repeat split; try reflexivity.
  - unfold state_invariant. simpl. vm_compute. intros [_ H]. by apply H.
  - unfold state_invariant. simpl. intros [[H _] _]. lia.
Qed.

(** ** Facts about the memoising wrapper *)

Section WrapperFacts.
Context {D E : Type} `{!Identifiable D, !Identifiable E}.

Lemma map_at_set_map_at (l l' : nat) (m : gmap string (ParseState D E)) (h : Heap D E) :
  map_at l' (set_map_at l m h) = if decide (l = l') then m else map_at l' h.
Proof.
  unfold map_at, set_map_at. simpl. rewrite lookup_insert.
  by destruct (decide (l = l')).
Qed.

Lemma map_at_set_currentTarget (l l' : nat) (t : string) (h : Heap D E) :
  map_at l' (set_currentTarget l t h) = map_at l' h.
Proof. reflexivity. Qed.

Lemma map_at_flush_other (l l' : nat) (s : ParseState D E) (h : Heap D E) :
  l ≠ l' → map_at l' (flush l s h) = map_at l' h.
Proof.
  intros Hne. unfold flush. destruct (decide _); [done |].
  rewrite map_at_set_map_at. by destruct (decide (l = l')).
Qed.

Lemma next_loc_flush (l : nat) (s : ParseState D E) (h : Heap D E) :
  next_loc (flush l s h) = next_loc h.
Proof. unfold flush. by destruct (decide _). Qed.

(** A parser whose table is empty misses on every state. *)
Lemma fresh_miss (p : TokenParser D E) (s : ParseState D E) (h : Heap D E) :
  map_at (self p) h = ∅ → miss p s h.
Proof.
  intros Hempty. unfold miss, flush. destruct (decide _).
  - by rewrite Hempty.
  - rewrite map_at_set_map_at. by destruct (decide (self p = self p)).
Qed.

(** On a miss the wrapper runs the wrapped function and records its answer. *)
Lemma transformer_miss (p : TokenParser D E) (s : ParseState D E) (n : nat) (h : Heap D E) :
  miss p s h →
  transformer p s n h =
    match raw p s n (flush (self p) s h) with
    | Ret nextState h2 =>
        Ret nextState
          (set_map_at (self p)
             (<[state_identity s := nextState]> (map_at (self p) h2)) h2)
    | Throw f => Throw f
    | Timeout => Timeout
    end.
Proof. unfold miss, transformer. by intros ->. Qed.

Lemma observe_transformer_miss (p : TokenParser D E) (s : ParseState D E) (n : nat)
    (h : Heap D E) :
  miss p s h →
  observe (transformer p s n h) = observe (raw p s n (flush (self p) s h)).
Proof.
  intros Hm. rewrite (transformer_miss _ _ _ _ Hm). by destruct (raw p s n _).
Qed.

(** On a hit the wrapped function is not run at all. *)
Lemma transformer_hit (p : TokenParser D E) (s memoised : ParseState D E) (n : nat)
    (h : Heap D E) :
  map_at (self p) (flush (self p) s h) !! state_identity s = Some memoised →
  transformer p s n h = Ret memoised (flush (self p) s h).
Proof. unfold transformer. by intros ->. Qed.

Lemma map_at_with_new_TokenParser (h : Heap D E) :
  map_at (next_loc h) (with_new_TokenParser h) = ∅.
Proof. unfold map_at, with_new_TokenParser. simpl. by rewrite lookup_insert_eq. Qed.

(** Whatever the table holds, the wrapper ends when the wrapped function does. *)
Lemma transformer_returns (p : TokenParser D E) (s : ParseState D E) (h : Heap D E) :
  returns (raw p s) (flush (self p) s h) → returns (transformer p s) h.
Proof.
  intros (N & r & Hr & Hn). unfold returns, transformer.
  destruct (map_at (self p) (flush (self p) s h) !! state_identity s) as [memoised |].
  - exists 0%nat, (Ret memoised (flush (self p) s h)). split; [done |]. done.
  - destruct r as [out h2 | f |]; [| | done].
    + exists N, (Ret out (set_map_at (self p)
                 (<[state_identity s := out]> (map_at (self p) h2)) h2)).
      split; [done |]. intros n Hle. by rewrite (Hn n Hle).
    + exists N, (Throw f). split; [done |]. intros n Hle. by rewrite (Hn n Hle).
Qed.

End WrapperFacts.

(** ** [many1]: the emptiness test looks at the whole token list *)

Section Many1Facts.
Context {D E : Type} `{!Identifiable D, !Identifiable E}.

(** When [parser] fails on the state entering [many1], the outcome is
    decided by the tokens that state already carries: [matchError] when
    it has none, the state itself otherwise. *)
Lemma many1_raw_no_match (parser : TokenParser D E) (matchError : ParseErrorProduction E)
    (state out : ParseState D E) (n : nat) (h h2 : Heap D E) :
  isError state = false →
  transformer parser state n
    (flush (next_loc h) state (with_new_TokenParser h)) = Ret out h2 →
  isError out = true →
  observe (many1_raw parser matchError state (S n) h) =
    if (length (result state) =? 0)%nat
    then observe (lift (updateParseError state
                          (matchError (target state) (index state))) n h)
    else Ret state tt.
Proof.
  intros Hs Hp Hout. unfold many1_raw. rewrite Hs.
  unfold bind at 1. unfold many, new_TokenParser.
  unfold bind.
  rewrite transformer_miss
    by (apply fresh_miss; simpl; apply map_at_with_new_TokenParser).
  cbn [raw self]. unfold many_raw. rewrite Hs. cbn [many_loop].
  rewrite Hp, Hout. rewrite Hs. cbn [negb andb].
  destruct (length (result state) =? 0)%nat; [| done].
  unfold lift. by destruct (updateParseError _ _).
Qed.

End Many1Facts.

(** C3 (the code departs from the specification).  [many1(x, onEmpty)] applied to
    the state [chain] hands it after [a] consumed ["a"] of ["ab"]: [x]
    does not match, no token is appended, and the answer is the input
    state, a success, where the specification promises the [onEmpty] error. *)
Theorem many1_succeeds_without_a_match :
  observe (transformer Examples.x Examples.after_a 5%nat Examples.heap3)
    = Ret (ParseError "ab" 1 ["a"] (Examples.mismatch "ab" 1)) tt ∧
  observe (transformer Examples.many1_x Examples.after_a 5%nat Examples.heap3)
    = Ret Examples.after_a tt ∧
  observe (transformer Examples.many1_x Examples.after_a 5%nat Examples.heap3)
    ≠ Ret (ParseError "ab" 1 ["a"] (Examples.onEmpty "ab" 1)) tt ∧
  observe (run Examples.a_then_many1_x "ab" NoSemantics None 5%nat
             (with_new_TokenParser (with_new_TokenParser Examples.heap3)))
    = Ret [Examples.after_a] tt.
Proof. repeat split; try (vm_compute; reflexivity). vm_compute. discriminate. Qed.

(** C2 (the code departs from the specification).  [until(c, eof)] on the target
    ["c"]: the terminator matches at once, the skipped substring is the
    empty string, and [updateParseResult] drops it as falsy; the answer
    carries no new token where the specification promises the token [""].  On
    ["abc"] the skipped ["ab"] is appended and the index stops before
    ["c"]. *)
Theorem until_drops_the_empty_token :
  observe (transformer Examples.c (Examples.at_start "c") 5%nat Examples.heap3)
    = Ret (ParseResult "c" 1 ["c"] NoSemantics) tt ∧
  observe (transformer Examples.until_c (Examples.at_start "c") 5%nat
             (with_new_TokenParser Examples.heap3))
    = Ret (ParseResult "c" 0 [] NoSemantics) tt ∧
  observe (transformer Examples.until_c (Examples.at_start "c") 5%nat
             (with_new_TokenParser Examples.heap3))
    ≠ Ret (ParseResult "c" 0 [""] NoSemantics) tt ∧
  updateParseResult (Examples.at_start "c") 0 NoSemantics (Some "")
    = inr (Examples.at_start "c") ∧
  observe (transformer Examples.until_c (Examples.at_start "abc") 5%nat
             (with_new_TokenParser Examples.heap3))
    = Ret (ParseResult "abc" 2 ["ab"] NoSemantics) tt.
Proof. repeat split; try (vm_compute; reflexivity). vm_compute. discriminate. Qed.

(** ** [map] on the token layer *)

Section MapFacts.
Context {D E : Type} `{!Identifiable D, !Identifiable E}.

(** C10.  [map(p, mdata, merror)] has no [isError] test of its own.  On an
    error state [s] that its memo table does not answer, it calls [p] on
    [s] and rebuilds whatever comes back: an error becomes a new
    [ParseError] carrying [merror] of it.  So when [p] hands [s] back
    unchanged, the answer is [s] with its error replaced by [merror s],
    at the same target, index and tokens; whereas [str], [many], [many1],
    [until] and [error] return an error state as it is. *)
Theorem map_rewrites_upstream_error (p : TokenParser D E)
    (mdata : ParseState D E → Semantics D) (merror : ParseState D E → Semantics E)
    (l : nat) (s : ParseState D E) (n : nat) (h : Heap D E) :
  let m := mkTokenParser l (map_raw p mdata merror) in
  isError s = true →
  miss m s h →
  observe (transformer m s n h) =
    match transformer p s n (flush l s h) with
    | Ret nextState _ =>
        if isError nextState
        then observe (lift (updateParseError nextState (merror nextState)) n h)
        else observe (lift (updateParseResult nextState (index nextState)
                              (mdata nextState) None) n h)
    | Throw f => Throw f
    | Timeout => Timeout
    end ∧
  (∀ h', index s ≤ js_length (target s) →
         transformer p s n (flush l s h) = Ret s h' →
         observe (transformer m s n h) =
           Ret (ParseError (target s) (index s) (result s) (merror s)) tt) ∧
  (∀ q EOFError matchError t e,
      str_raw t EOFError matchError s n h = Ret s h ∧
      many_raw q s n h = Ret s h ∧
      many1_raw q matchError s n h = Ret s h ∧
      until_raw q EOFError s n h = Ret s h ∧
      error_raw e s n h = Ret s h).
Proof.
  intros m Hs Hmiss.
  assert (Hgen : observe (transformer m s n h) =
    match transformer p s n (flush l s h) with
    | Ret nextState _ =>
        if isError nextState
        then observe (lift (updateParseError nextState (merror nextState)) n h)
        else observe (lift (updateParseResult nextState (index nextState)
                              (mdata nextState) None) n h)
    | Throw f => Throw f
    | Timeout => Timeout
    end).
  { rewrite (observe_transformer_miss _ _ _ _ Hmiss). cbn [raw self m].
    unfold map_raw, bind.
    destruct (transformer p s n (flush l s h)) as [ns h2 | f |]; [| done | done].
    unfold lift. destruct (isError ns).
    - by destruct (updateParseError ns (merror ns)).
    - by destruct (updateParseResult ns (index ns) (mdata ns) None). }
  split; [exact Hgen |]. split.
  - intros h' Hidx Hp. rewrite Hgen, Hp, Hs.
    unfold updateParseError. by rewrite new_ParseError_checked.
  - intros q EOFError matchError t e.
    unfold str_raw, many_raw, many1_raw, until_raw, error_raw.
    by rewrite Hs.
Qed.

End MapFacts.

(** The law at work: [map(a, ..., merror)] handed the error state left by
    a failed match answers with the error [merror] chose. *)
Lemma map_rewrites_upstream_error_witness :
  let merror := fun _ : Examples.St => Value (mkStatic "rewritten" 0) in
  let m := mkTokenParser 3 (map_raw Examples.a (Examples.tag "d") merror) in
  observe (transformer m Examples.failed 5%nat Examples.heap3) =
    Ret (ParseError "ab" 1 ["a"] (Value (mkStatic "rewritten" 0))) tt.
Proof.
  intros merror m.
  eapply (proj1 (proj2 (map_rewrites_upstream_error Examples.a (Examples.tag "d")
            merror 3 Examples.failed 5 Examples.heap3 eq_refl eq_refl))).
  - vm_compute. discriminate.
  - vm_compute. reflexivity.
Defined.

(** ** Termination of [many] *)

Section ManyFacts.
Context {D E : Type} `{!Identifiable D, !Identifiable E}.

(** The loop ends when every call it makes to [parser] ends and moves on. *)
Lemma many_loop_returns (parser : TokenParser D E)
    (J : ParseState D E → Heap D E → Prop) :
  progresses parser J →
  ∀ (k : nat) (state : ParseState D E) (h : Heap D E),
    J state h → isError state = false →
    (Z.to_nat (js_length (target state) - index state) ≤ k)%nat →
    returns (fun n h => many_loop parser n state h) h.
Proof.
  intros HJ. induction k as [| k IH]; intros state h Hin Hstate Hk.
  - destruct (HJ state h Hin Hstate) as (N & r & Hr & Hcall & Hout).
    destruct r as [out h' | f |]; [| | done].
    + destruct (isError out) eqn:Herr.
      * exists (S N), (Ret state h'). split; [done |].
        intros [| n] Hle; [lia |]. cbn [many_loop].
        rewrite (Hcall n) by lia. by rewrite Herr.
      * destruct (Hout out h' eq_refl Herr) as (Hlt & Htarget & _).
        exists (S N), (Ret out h'). split; [done |].
        intros [| n] Hle; [lia |]. cbn [many_loop].
        rewrite (Hcall n) by lia. rewrite Herr.
        replace (js_length (target out) <=? index out) with true; [done |].
        symmetry. apply Z.leb_le. rewrite Htarget. lia.
    + exists (S N), (Throw f). split; [done |].
      intros [| n] Hle; [lia |]. cbn [many_loop]. by rewrite (Hcall n) by lia.
  - destruct (HJ state h Hin Hstate) as (N & r & Hr & Hcall & Hout).
    destruct r as [out h' | f |]; [| | done].
    + destruct (isError out) eqn:Herr.
      * exists (S N), (Ret state h'). split; [done |].
        intros [| n] Hle; [lia |]. cbn [many_loop].
        rewrite (Hcall n) by lia. by rewrite Herr.
      * destruct (Hout out h' eq_refl Herr) as (Hlt & Htarget & Hnext).
        destruct (js_length (target out) <=? index out) eqn:Hend.
        -- exists (S N), (Ret out h'). split; [done |].
           intros [| n] Hle; [lia |]. cbn [many_loop].
           rewrite (Hcall n) by lia. by rewrite Herr, Hend.
        -- apply Z.leb_gt in Hend.
           destruct (IH out h' (Hnext Hend) Herr) as (N2 & r2 & Hr2 & Hloop).
           { rewrite Htarget in *. lia. }
           exists (S (N `max` N2)), r2. split; [done |].
           intros [| n] Hle; [lia |]. cbn [many_loop].
           rewrite (Hcall n) by lia. rewrite Herr.
           replace (js_length (target out) <=? index out) with false
             by (symmetry; by apply Z.leb_gt).
           apply Hloop. lia.
    + exists (S N), (Throw f). split; [done |].
      intros [| n] Hle; [lia |]. cbn [many_loop]. by rewrite (Hcall n) by lia.
Qed.

(** A parser that hands its state back keeps the table of unfinished
    results unfinished, and the loop around it never ends. *)
Lemma many_loop_diverges (parser : TokenParser D E) :
  hands_back parser →
  ∀ (n : nat) (state : ParseState D E) (h : Heap D E),
    isError state = false → index state < js_length (target state) →
    table_of_unfinished (self parser) h →
    many_loop parser n state h = Timeout.
Proof.
  intros Hback. induction n as [| n IH]; intros state h Hstate Hidx Htable; [done |].
  cbn [many_loop]. unfold transformer.
  assert (Hflushed : table_of_unfinished (self parser) (flush (self parser) state h)).
  { unfold flush. destruct (decide _); [done |].
    intros key out. rewrite map_at_set_map_at.
    destruct (decide (self parser = self parser)); [| done].
    by rewrite lookup_empty. }
  destruct (map_at (self parser) (flush (self parser) state h) !! state_identity state)
    as [memoised |] eqn:Hlookup.
  - destruct (Hflushed _ _ Hlookup) as [Herr Hlt].
    rewrite Herr. replace (js_length (target memoised) <=? index memoised) with false
      by (symmetry; by apply Z.leb_gt).
    by apply IH.
  - rewrite Hback, Hstate.
    replace (js_length (target state) <=? index state) with false
      by (symmetry; by apply Z.leb_gt).
    apply IH; [done | done |].
    intros key out. rewrite map_at_set_map_at.
    destruct (decide (self parser = self parser)); [| done].
    rewrite lookup_insert. destruct (decide (state_identity state = key)).
    + intros [= <-]. done.
    + apply Hflushed.
Qed.

(** C9.  [many(parser)] ends on every state from which every call the
    loop makes to [parser] ends and, on success, strictly increases
    [index] within the same target; and [many] of the parser
    [state => state], which succeeds in place, never ends on the result
    state at index 0 of ["a"]. *)
Theorem many_ends_exactly_when_the_parser_moves_on :
  (∀ (parser : TokenParser D E) (J : ParseState D E → Heap D E → Prop) (l : nat),
      progresses parser J →
      ∀ state h, J state (flush l state h) →
                 returns (transformer (mkTokenParser l (many_raw parser)) state) h) ∧
  (∀ (parser : TokenParser D E) (l : nat) (state : ParseState D E) (h : Heap D E),
      hands_back parser →
      isError state = false → index state < js_length (target state) →
      table_of_unfinished (self parser) (flush l state h) →
      miss (mkTokenParser l (many_raw parser)) state h →
      ∀ n, transformer (mkTokenParser l (many_raw parser)) state n h = Timeout) ∧
  (∃ (parser : TokenParser D E) (state : ParseState D E),
      hands_back parser ∧ isError state = false ∧
      ∀ n, transformer (mkTokenParser 1 (many_raw parser)) state n empty_heap = Timeout).
Proof.
  split; [| split].
  - intros parser J l HJ state h Hin.
    apply transformer_returns. cbn [raw self]. unfold many_raw.
    destruct (isError state) eqn:Hstate.
    + exists 0%nat, (Ret state (flush l state h)). by split.
    + eapply (many_loop_returns parser J HJ); [exact Hin | exact Hstate | reflexivity].
  - intros parser l state h Hback Hstate Hidx Htable Hmiss n.
    rewrite (transformer_miss _ _ _ _ Hmiss). cbn [raw self].
    unfold many_raw. rewrite Hstate.
    by rewrite (many_loop_diverges parser Hback n state _ Hstate Hidx Htable).
  - exists (mkTokenParser 0 (fun state => ret state)),
           (ParseResult "a" 0 [] NoSemantics).
    split; [done |]. split; [done |].
    intros n.
    rewrite transformer_miss by (apply fresh_miss; reflexivity).
    cbn [raw self]. unfold many_raw. cbn [isError].
    rewrite many_loop_diverges; [done | done | done | reflexivity |].
    intros key out. cbn [self]. vm_compute. discriminate.
Qed.

End ManyFacts.

(** [str("a")] moves on at both calls [many] makes on the target ["aa"]. *)
Lemma a_progresses : progresses Examples.a Examples.many_a_calls.
Proof.
  intros state h [[-> ->] | [-> ->]] _.
  - exists 0%nat, (Ret (ParseResult "aa" 1 ["a"] NoSemantics) Examples.many_a_heap1).
    split; [discriminate |]. split.
    + intros n _. vm_compute. reflexivity.
    + intros out h' [= <- <-] _. split; [reflexivity |]. split; [reflexivity |].
      intros _. right. by split.
  - eexists 0%nat, (Ret (ParseResult "aa" 2 ["a"; "a"] NoSemantics) _).
    split; [discriminate |]. split.
    + intros n _. vm_compute. reflexivity.
    + intros out h' [= <- <-] _. split; [reflexivity |]. split; [reflexivity |].
      intros Hlt. vm_compute in Hlt. discriminate.
Qed.

(** [many(str("a"))] ends on the target ["aa"]. *)
Lemma many_ends_exactly_when_the_parser_moves_on_witness :
  returns (transformer Examples.many_a (Examples.at_start "aa")) Examples.heap3.
Proof.
  apply (proj1 (many_ends_exactly_when_the_parser_moves_on
                  (D := StaticSemantics) (E := StaticSemantics))
           Examples.a Examples.many_a_calls 3%nat a_progresses).
  left. split; reflexivity.
Defined.

(** ** The selection made by the eager driver *)

Section SelectFacts.
Context {D E : Type} `{!Identifiable D, !Identifiable E}.

Implicit Types (s x y first : ParseState D E) (l others : list (ParseState D E)).

Lemma filter_iff_elem (P Q : ParseState D E → Prop)
    `{!∀ s, Decision (P s), !∀ s, Decision (Q s)} l :
  (∀ s, s ∈ l → P s ↔ Q s) → filter P l = filter Q l.
Proof.
  induction l as [| x l IH]; intros Hiff; [done |].
  rewrite !filter_cons, IH by (intros s Hs; apply Hiff; set_solver).
  destruct (decide (P x)) as [HP | HP], (decide (Q x)) as [HQ | HQ]; try done.
  - exfalso. apply HQ, (Hiff x); [set_solver | done].
  - exfalso. apply HP, (Hiff x); [set_solver | done].
Qed.

(** The sort is stable: the states at one index keep their order. *)
Lemma filter_insert_by_index (k : Z) x l :
  filter (fun s => index s = k) (SymbolParser.insert_by_index x l)
  = filter (fun s => index s = k) (x :: l).
Proof.
  induction l as [| y l IH]; [done |]. cbn [SymbolParser.insert_by_index].
  destruct (index x <=? index y) eqn:Hle; [done |].
  apply Z.leb_gt in Hle.
  rewrite (filter_cons _ y), IH, !filter_cons.
  destruct (decide (index y = k)), (decide (index x = k)); try done. lia.
Qed.

Lemma filter_sort_by_index (k : Z) l :
  filter (fun s => index s = k) (SymbolParser.sort_by_index l)
  = filter (fun s => index s = k) l.
Proof.
  induction l as [| x l IH]; [done |].
  cbn [SymbolParser.sort_by_index foldr].
  rewrite filter_insert_by_index. fold (SymbolParser.sort_by_index l).
  by rewrite !filter_cons, IH.
Qed.

Lemma elem_of_insert_by_index s x l :
  s ∈ SymbolParser.insert_by_index x l ↔ s = x ∨ s ∈ l.
Proof.
  induction l as [| y l IH]; cbn [SymbolParser.insert_by_index].
  - set_solver.
  - destruct (index x <=? index y); [set_solver |].
    rewrite !elem_of_cons, IH. tauto.
Qed.

Lemma elem_of_sort_by_index s l : s ∈ SymbolParser.sort_by_index l ↔ s ∈ l.
Proof.
  induction l as [| x l IH]; [done |].
  cbn [SymbolParser.sort_by_index foldr]. fold (SymbolParser.sort_by_index l).
  rewrite elem_of_insert_by_index, elem_of_cons, IH. tauto.
Qed.

(** The last state of the sorted array is at the largest index. *)
Lemma last_insert_by_index x l top :
  last l = Some top → (∀ s, s ∈ l → index s ≤ index top) →
  ∃ top', last (SymbolParser.insert_by_index x l) = Some top' ∧
          index top' = Z.max (index x) (index top).
Proof.
  revert top. induction l as [| y l IH]; intros top Hlast Hmax; [done |].
  cbn [SymbolParser.insert_by_index].
  destruct (index x <=? index y) eqn:Hle.
  - apply Z.leb_le in Hle. exists top. split.
    + by rewrite last_cons_cons.
    + assert (index y ≤ index top) by (apply Hmax; set_solver). lia.
  - apply Z.leb_gt in Hle. destruct l as [| z l].
    + cbn in Hlast. inversion Hlast; subst. exists x. split; [done | lia].
    + rewrite last_cons_cons in Hlast.
      destruct (IH top Hlast) as (top' & Hlast' & Htop').
      { intros s Hs. apply Hmax. set_solver. }
      exists top'. split; [| done].
      rewrite last_cons, Hlast'. done.
Qed.

Lemma max_index_swap x y l :
  Z.max (index x) (max_index y l) = Z.max (index y) (max_index x l).
Proof.
  induction l as [| z l IH]; cbn [max_index foldr]; [lia |].
  fold (max_index y l). fold (max_index x l). lia.
Qed.

Lemma last_sort_by_index l : ∀ first,
  ∃ top, last (SymbolParser.sort_by_index (first :: l)) = Some top ∧
         index top = max_index first l ∧
         ∀ s, s ∈ first :: l → index s ≤ index top.
Proof.
  induction l as [| y l IH]; intros first.
  - exists first. split; [done |]. split; [done |]. intros s Hs.
    apply list_elem_of_singleton in Hs. by subst.
  - destruct (IH y) as (top & Hlast & Htop & Hmax).
    destruct (last_insert_by_index first _ top Hlast) as (top' & Hlast' & Htop').
    { intros s Hs. apply Hmax. by rewrite <- elem_of_sort_by_index. }
    exists top'. split; [exact Hlast' |]. split.
    + rewrite Htop', Htop. cbn [max_index foldr]. fold (max_index first l).
      apply max_index_swap.
    + intros s Hs. apply elem_of_cons in Hs as [-> | Hs]; [lia |].
      specialize (Hmax s Hs). lia.
Qed.

Lemma filter_all_errors l :
  Forall (fun s => isError s = true) l → filter (fun s => isError s = true) l = l.
Proof.
  induction 1 as [| s l Hs Hl IH]; [done |].
  rewrite filter_cons_True by done. by rewrite IH.
Qed.

Lemma filter_no_result l :
  Forall (fun s => isError s = true) l → filter (fun s => isError s = false) l = [].
Proof.
  induction 1 as [| s l Hs Hl IH]; [done |].
  rewrite filter_cons_False; [done |]. by rewrite Hs.
Qed.

(** What [run] does with the states it collected, when there is one. *)
Lemma select_results_farthest first others :
  SymbolParser.select_results (first :: others)
  = inr (farthest_progress first others).
Proof.
  unfold SymbolParser.select_results, farthest_progress.
  destruct (last_sort_by_index others first) as (top & -> & Htop & Hmax).
  rewrite Htop. f_equal.
  set (top_index := max_index first others) in *.
  assert (Hfar :
    filter (fun state => top_index ≤ index state)
      (SymbolParser.sort_by_index (first :: others))
    = filter (fun s => index s = top_index) (first :: others)).
  { rewrite <- (filter_sort_by_index top_index (first :: others)).
    apply filter_iff_elem. intros s Hs.
    rewrite elem_of_sort_by_index in Hs. specialize (Hmax s Hs). lia. }
  rewrite Hfar.
  set (farthest := filter (fun s => index s = top_index) (first :: others)).
  destruct (decide (Exists (fun s => isError s = false) farthest)) as [Hex | Hno].
  - apply Exists_exists in Hex as (s & Hs & Herr).
    assert (Hin : s ∈ filter (fun state => isError state = false) farthest)
      by (apply list_elem_of_filter; done).
    destruct (filter (fun state => isError state = false) farthest); [| done].
    by apply elem_of_nil in Hin.
  - assert (Hall : Forall (fun s => isError s = true) farthest).
    { apply Forall_forall. intros s Hs. destruct (isError s) eqn:Herr; [done |].
      exfalso. apply Hno, Exists_exists. eauto. }
    clearbody farthest.
    rewrite (filter_all_errors _ Hall), (filter_no_result _ Hall). done.
Qed.

End SelectFacts.

(** C4.  Whenever the generator of a symbol parser yields at least one
    state, [run] returns exactly the collected states at the largest
    index, in the order they were collected: the results among them when
    there is one, and otherwise all of them, which are then all errors. *)
Theorem run_returns_farthest_progress {D E : Type} `{!Identifiable D, !Identifiable E}
    (MAX_AMBIGUITY_BREADTH : option nat) (grammar : Grammar D E) (token_fuel : nat)
    (root : nat) (t : string) (d : Semantics D) (i : option Z) (n : nat)
    (m m' : Machine D E) (first : ParseState D E) (others : list (ParseState D E)) :
  SymbolParser.generate MAX_AMBIGUITY_BREADTH grammar token_fuel root t d i n m
    = Ret (first :: others) m' →
  SymbolParser.run MAX_AMBIGUITY_BREADTH grammar token_fuel root t d i n m
    = Ret (farthest_progress first others) m'.
Proof.
  intros Hgen. unfold SymbolParser.run. rewrite Hgen.
  by rewrite select_results_farthest.
Qed.

(** [alternatives([toSymbol(str("a")), empty]).run("a", ...)]: the
    generator yields the empty match at index 0 and the match of ["a"] at
    index 1, and [run] keeps the second. *)
Lemma run_returns_farthest_progress_witness :
  observe (SymbolParser.run None Examples.optional_a 5 0 "a" NoSemantics None 50
             (SymbolParser.empty_machine Examples.heap3))
    = Ret [ParseResult "a" 1 ["a"] NoSemantics] tt.
Proof.
  assert (Hgen : ∃ m',
    SymbolParser.generate None Examples.optional_a 5 0 "a" NoSemantics None 50
      (SymbolParser.empty_machine Examples.heap3)
    = Ret [ParseResult "a" 0 [] NoSemantics; ParseResult "a" 1 ["a"] NoSemantics] m').
  { eexists. vm_compute. reflexivity. }
  destruct Hgen as [m' Hgen].
  rewrite (run_returns_farthest_progress _ _ _ _ _ _ _ _ _ _ _ _ Hgen).
  vm_compute. reflexivity.
Defined.

(** ** Facts about the symbol machine *)

Section MachineFacts.
Context {D E : Type} `{!Identifiable D, !Identifiable E}.
Variable MAX : option nat.
Variable g : Grammar D E.
Variable tf : nat.

Implicit Types (m : Machine D E) (s r : ParseState D E) (k : Continuation D E).

(** On a state its memo table does not know, a symbol parser pushes its
    work item whatever the stack already holds: the guard of the push is
    the truthiness of an array. *)
Lemma perform_wrapped_miss (n p f : nat) s k m :
  parsers g !! p = Some f →
  SymbolParser.symMemo p (SymbolParser.sym_flush p s m) !! state_identity s = None →
  SymbolParser.perform MAX g tf (S n) (CallTransformer (Wrapped p) s k) m
  = Ret tt (pushed p f s k m).
Proof.
  intros Hp Hmiss. cbn [SymbolParser.perform]. rewrite Hp, Hmiss. reflexivity.
Qed.

Lemma pop_loop_S (n rc : nat) m :
  SymbolParser.pop_loop MAX g tf (S n) rc m =
    match parseStack m with
    | [] => Ret tt m
    | (t, nextState, continuation) :: rest =>
        if (length (collected m) <=? rc)%nat then
          match SymbolParser.perform MAX g tf n (CallTransformer t nextState continuation)
                  (SymbolParser.with_stack rest m) with
          | Ret _ m' => SymbolParser.pop_loop MAX g tf n rc m'
          | other => other
          end
        else Ret tt m
    end.
Proof. reflexivity. Qed.

Lemma generate_loop_S (n rc : nat) (yielded : list (ParseState D E)) m :
  SymbolParser.generate_loop MAX g tf (S n) rc yielded m =
    match parseStack m with
    | [] => Ret yielded m
    | _ :: _ =>
        match SymbolParser.pop_loop MAX g tf n rc m with
        | Ret _ m' =>
            SymbolParser.generate_loop MAX g tf n (rc `max` length (collected m'))
              (yielded ++ drop rc (collected m')) m'
        | Throw f => Throw f
        | Timeout => Timeout
        end
    end.
Proof. reflexivity. Qed.

(** The first publication to an entry passes the breadth guard. *)
Lemma perform_publish_first (n p loc : nat) (key : string) r ks m :
  SymbolParser.symMemo p m !! key = Some loc →
  entries m !! loc = Some (mkEntry [] ks) →
  SymbolParser.perform MAX g tf (S n) (CallContinuation (KPublish p key) r) m
  = SymbolParser.perform MAX g tf n (ForEachContinuation ks r)
      (SymbolParser.store_result loc r m).
Proof.
  intros Hmemo Hentry. cbn [SymbolParser.perform]. rewrite Hmemo. cbn [mbind option_bind].
  rewrite Hentry. cbn [mbind option_bind].
  replace (SymbolParser.breadth_exceeded MAX (mkEntry [] ks)) with false.
  - reflexivity.
  - unfold SymbolParser.breadth_exceeded. destruct MAX as [bound |]; [| done].
    symmetry. apply bool_decide_eq_false. cbn. lia.
Qed.

Lemma perform_collect_only (n : nat) r m :
  SymbolParser.perform MAX g tf (S (S n)) (ForEachContinuation [KCollect] r) m
  = Ret tt (SymbolParser.collect r m).
Proof. destruct n; reflexivity. Qed.

Lemma perform_toSymbol (n f : nat) (parser : TokenParser D E) s k m :
  functions g !! f = Some (CodeToSymbol parser) →
  SymbolParser.perform MAX g tf (S n) (CallTransformer (RawFn f) s k) m =
    match transformer parser s tf (heap m) with
    | Ret out h' =>
        SymbolParser.perform MAX g tf n (CallContinuation k out)
          (SymbolParser.with_heap h' m)
    | Throw e => Throw e
    | Timeout => Timeout
    end.
Proof. intros Hf. cbn [SymbolParser.perform]. by rewrite Hf. Qed.

End MachineFacts.

(** ** [toSymbol] *)

Section ToSymbolFacts.
Context {D E : Type} `{!Identifiable D, !Identifiable E}.

Lemma symMemo_flush_empty (p : nat) (s : ParseState D E) (h : Heap D E) :
  SymbolParser.symMemo p (SymbolParser.sym_flush p s (SymbolParser.empty_machine h)) = ∅.
Proof.
  unfold SymbolParser.sym_flush. destruct (decide _); [done |].
  unfold SymbolParser.symMemo. cbn. by rewrite lookup_insert_eq.
Qed.

(** The generator of [toSymbol(p)] yields the one state [p] answers. *)
Lemma toSymbol_generate (p : TokenParser D E) (MAX : option nat) (s0 : ParseState D E)
    (tf n : nat) (h : Heap D E) :
  observe (SymbolParser.generate_loop MAX (SymbolParser.toSymbol p) tf (7 + n) 0 []
             (mkMachine h [] ∅ ∅ [(Wrapped 0, s0, KCollect)] []))
  = observe ((let* out := transformer p s0 in ret [out]) tf h).
Proof.
  cbn [Nat.add]. rewrite generate_loop_S. cbn [parseStack].
  rewrite pop_loop_S. cbn [parseStack collected length Nat.leb].
  change (SymbolParser.with_stack [] (mkMachine h [] ∅ ∅ [(Wrapped 0%nat, s0, KCollect)] []))
    with (SymbolParser.empty_machine h).
  rewrite (perform_wrapped_miss MAX _ tf _ 0 0) by (done || by rewrite symMemo_flush_empty).
  rewrite pop_loop_S.
  set (m1 := pushed 0 0 s0 KCollect (SymbolParser.empty_machine h)).
  assert (Hstack : parseStack m1 = [(RawFn 0, s0, KPublish 0 (state_identity s0))]).
  { unfold m1, pushed, SymbolParser.sym_flush. by destruct (decide _). }
  assert (Hcoll : collected m1 = []).
  { unfold m1, pushed, SymbolParser.sym_flush. by destruct (decide _). }
  assert (Hheap : heap m1 = h).
  { unfold m1, pushed, SymbolParser.sym_flush. by destruct (decide _). }
  assert (Hentries : entries m1 = [mkEntry [] [KCollect]]).
  { unfold m1, pushed, SymbolParser.sym_flush. by destruct (decide _). }
  assert (Hmemo : SymbolParser.symMemo 0 m1 !! state_identity s0 = Some 0%nat).
  { unfold m1, pushed, SymbolParser.sym_flush. destruct (decide _);
      unfold SymbolParser.symMemo; cbn; rewrite lookup_insert_eq; cbn;
      by rewrite lookup_insert_eq. }
  rewrite Hstack, Hcoll. cbn [length Nat.leb].
  rewrite (perform_toSymbol MAX _ tf _ 0 p) by done.
  cbn [heap SymbolParser.with_stack]. rewrite Hheap.
  unfold bind. destruct (transformer p s0 tf h) as [out h' | f |]; [| done | done].
  rewrite (perform_publish_first MAX _ tf _ 0 0 _ out [KCollect]);
    [| exact Hmemo
     | cbn [entries SymbolParser.with_heap SymbolParser.with_stack]; by rewrite Hentries].
  rewrite perform_collect_only.
  rewrite pop_loop_S.
  cbn [parseStack SymbolParser.store_result SymbolParser.with_entries
    SymbolParser.with_heap SymbolParser.with_stack SymbolParser.collect collected].
  rewrite generate_loop_S.
  cbn [parseStack]. rewrite Hcoll. reflexivity.
Qed.

Lemma farthest_progress_single (s : ParseState D E) : farthest_progress s [] = [s].
Proof.
  unfold farthest_progress. cbn [max_index foldr].
  rewrite filter_cons_True by done. rewrite filter_nil.
  destruct (decide _) as [Hex | Hno].
  - apply Exists_cons in Hex as [Hs | Hnil]; [| by apply Exists_nil in Hnil].
    by rewrite filter_cons_True.
  - rewrite filter_cons_True; [done |].
    destruct (isError s) eqn:Herr; [done |]. exfalso. apply Hno. by left.
Qed.

(** C7.  For every token parser [p], target, initial data and index,
    [toSymbol(p).run] returns the one state [p.run] returns, throws the
    fault it throws, and has no answer when it has none. *)
Theorem toSymbol_run_agrees_with_token_run (p : TokenParser D E) (MAX : option nat)
    (t : string) (d : Semantics D) (i : option Z) (tf n : nat) (h : Heap D E) :
  observe (SymbolParser.run MAX (SymbolParser.toSymbol p) tf 0 t d i (7 + n)
             (SymbolParser.empty_machine h))
  = observe (run p t d i tf h).
Proof.
  unfold SymbolParser.run, SymbolParser.generate, run, SymbolParser.empty_machine.
  unfold bind at 1. cbn [heap entries symTargets symMemos].
  destruct (new_ParseResult t (default 0 i) [] d) as [f | s0]; [done |].
  cbn [lift ret].
  pose proof (toSymbol_generate p MAX s0 tf n h) as Hgen.
  unfold bind, ret in *.
  destruct (transformer p s0 tf h) as [out h' | f |];
    destruct (SymbolParser.generate_loop _ _ _ _ _ _ _) as [collected m' | f' |];
    cbn [observe] in Hgen; try discriminate; [| done | done].
  - injection Hgen as ->.
    by rewrite select_results_farthest, farthest_progress_single.
Qed.

End ToSymbolFacts.

(** C1 (the code departs from the specification).  [alternatives([A, B])], where
    [A] and [B] wrap the same function object, run on ["a"]: the seed
    item leaves the work item of [alternatives] on the stack; running
    that item calls [A] and then [B] on the same state, and [B] pushes
    its item although the item of [A], with the same function and the
    same state identity, is pending, matched by the filter of the guard. *)
Theorem duplicate_work_is_enqueued :
  let s0 := Examples.at_start "a" in
  let key := state_identity s0 in
  let run1 :=
    SymbolParser.perform None Examples.shared_function 0 5
      (CallTransformer (Wrapped 0) s0 KCollect)
      (SymbolParser.empty_machine empty_heap) in
  ∃ m1 m2,
    run1 = Ret tt m1 ∧
    parseStack m1 = [(RawFn 0, s0, KPublish 0 key)] ∧
    SymbolParser.perform None Examples.shared_function 0 5
      (CallTransformer (RawFn 0) s0 (KPublish 0 key)) (SymbolParser.with_stack [] m1)
      = Ret tt m2 ∧
    parseStack m2 = [(RawFn 1, s0, KPublish 2 key); (RawFn 1, s0, KPublish 1 key)] ∧
    SymbolParser.pending_items 1 key m2 = parseStack m2.
Proof.
  cbv zeta. eexists _, _.
  split; [vm_compute; reflexivity |].
  split; [reflexivity |].
  split; [vm_compute; reflexivity |].
  split; [reflexivity |]. vm_compute. reflexivity.
Qed.

(** C6 (the code departs from the specification).  With the bound set to 1, the
    run of [two_parses] on ["a"] keeps two full-length results in the
    memo entry of the root, more than the bound, and raises nothing: the
    guard is evaluated before a result is stored and only when one more
    is published.  With a third parse the third publication raises the
    fault; with the bound at [Infinity] it does not. *)
Theorem breadth_bound_exceeded_without_fault :
  let rx := ParseResult "a" 1 ["a"] (Value (mkStatic "x" 0)) in
  let ry := ParseResult "a" 1 ["a"] (Value (mkStatic "y" 0)) in
  let rz := ParseResult "a" 1 ["a"] (Value (mkStatic "z" 0)) in
  (∃ m' e,
     SymbolParser.run (Some 1%nat) Examples.two_parses 5 0 "a" NoSemantics None 50
       (SymbolParser.empty_machine Examples.heap3) = Ret [ry; rx] m' ∧
     SymbolParser.symMemo 0 m' !! "a_0" = Some 0%nat ∧
     entries m' !! 0%nat = Some e ∧
     SymbolParser.full_length_count e = 2%nat ∧
     SymbolParser.breadth_exceeded (Some 1%nat) e = true) ∧
  observe (SymbolParser.run (Some 1%nat) Examples.three_parses 5 0 "a" NoSemantics None 50
             (SymbolParser.empty_machine Examples.heap3)) = Throw breadth_fault ∧
  observe (SymbolParser.run None Examples.three_parses 5 0 "a" NoSemantics None 50
             (SymbolParser.empty_machine Examples.heap3)) = Ret [rz; ry; rx] tt.
Proof.
  cbv zeta. split; [| split; vm_compute; reflexivity].
  eexists _, _.
  split; [vm_compute; reflexivity |].
  split; [vm_compute; reflexivity |].
  split; [vm_compute; reflexivity |].
  split; vm_compute; reflexivity.
Qed.

(** ** [chain] with a single parser *)

Section ChainFacts.
Context {D E : Type} `{!Identifiable D, !Identifiable E}.
Implicit Types (p : TokenParser D E) (s : ParseState D E) (h : Heap D E).

Lemma same_fields_flush (l l' : nat) s h : l ≠ l' → same_fields l' (flush l s h) h.
Proof.
  intros Hne. unfold same_fields, flush. destruct (decide _); [done |].
  split.
  - rewrite map_at_set_map_at. by destruct (decide (l = l')).
  - unfold currentTarget, set_map_at, set_currentTarget. cbn.
    by rewrite lookup_insert_ne.
Qed.

Lemma same_fields_with_new_Map (l : nat) h : l ≠ next_loc h → same_fields l (with_new_Map h) h.
Proof.
  intros Hne. unfold same_fields, with_new_Map, map_at, currentTarget. cbn.
  by rewrite lookup_insert_ne.
Qed.

Lemma same_fields_with_new_TokenParser (l : nat) h :
  l ≠ next_loc h → same_fields l (with_new_TokenParser h) h.
Proof.
  intros Hne. unfold same_fields, with_new_TokenParser, map_at, currentTarget. cbn.
  by rewrite !lookup_insert_ne.
Qed.

Lemma same_fields_trans (l : nat) h1 h2 h3 :
  same_fields l h1 h2 → same_fields l h2 h3 → same_fields l h1 h3.
Proof. unfold same_fields. intros [? ?] [? ?]. split; congruence. Qed.

Lemma chain_of_one_no_action p (lc : nat) s (n : nat) h :
  reads_up_to_self p → (self p < lc)%nat → (self p < next_loc h)%nat →
  miss (mkTokenParser lc (chain_raw [p] None)) s h →
  observe (transformer (mkTokenParser lc (chain_raw [p] None)) s n h)
  = observe (transformer p s n h).
Proof.
  intros Hreads Hlc Hnext Hmiss.
  rewrite (observe_transformer_miss _ _ _ _ Hmiss). cbn [raw self].
  unfold chain_raw, bind, new_Map. cbn [last removelast rev chain_link app ret].
  apply Hreads.
  - cbn. rewrite next_loc_flush. lia.
  - done.
  - intros l Hl. eapply same_fields_trans.
    + apply same_fields_with_new_Map. rewrite next_loc_flush. lia.
    + apply same_fields_flush. lia.
Qed.

Lemma observe_lift {A} (r : Fault + A) (n n' : nat) h h' :
  observe (lift (D := D) (E := E) r n h) = observe (lift r n' h').
Proof. by destruct r. Qed.

Lemma chain_of_one_action p (a : list (Semantics D) → Semantics D) (lc : nat) s (n : nat) h :
  reads_up_to_self p → leaves_later_objects p →
  (self p < lc)%nat → (self p < next_loc h)%nat →
  miss (mkTokenParser lc (chain_raw [p] (Some a))) s h →
  observe (transformer (mkTokenParser lc (chain_raw [p] (Some a))) s n h)
  = rebuilt a n h (observe (transformer p s n h)).
Proof.
  intros Hreads Hleaves Hlc Hnext Hmiss.
  rewrite (observe_transformer_miss _ _ _ _ Hmiss). cbn [raw self].
  unfold chain_raw, bind at 1, new_Map.
  unfold bind at 1, new_TokenParser at 1.
  cbn [rev app chain_link]. unfold bind at 1, new_TokenParser at 1.
  unfold bind at 1, ret at 1.
  set (h1 := flush lc s h).
  set (b := next_loc h1).
  set (h2 := with_new_Map h1).
  set (h3 := with_new_TokenParser h2).
  set (h4 := with_new_TokenParser h3).
  assert (Hb : b = next_loc h) by (unfold b, h1; apply next_loc_flush).
  assert (Hnext2 : next_loc h2 = S b) by done.
  assert (Hnext3 : next_loc h3 = S (S b)) by done.
  assert (Hnext4 : next_loc h4 = S (S (S b))) by done.
  rewrite observe_transformer_miss
    by (apply fresh_miss; cbn [self]; apply map_at_with_new_TokenParser).
  cbn [raw self length]. rewrite Hnext2, Hnext3.
  set (final := mkTokenParser (S b) (chain_action_raw b 1 a)).
  set (h5 := flush (S (S b)) s h4).
  assert (Hnext5 : next_loc h5 = S (S (S b))) by (unfold h5; by rewrite next_loc_flush).
  assert (Hfinal_fresh : map_at (S b) h5 = ∅).
  { unfold h5. rewrite map_at_flush_other by lia.
    unfold h4. destruct (same_fields_with_new_TokenParser (S b) h3) as [-> _]; [lia |].
    unfold h3. rewrite <- Hnext2. apply map_at_with_new_TokenParser. }
  assert (Hp : observe (transformer p s n h5) = observe (transformer p s n h)).
  { apply Hreads; [lia | done |].
    intros l Hl.
    apply (same_fields_trans _ _ h4); [apply same_fields_flush; lia |].
    apply (same_fields_trans _ _ h3); [apply same_fields_with_new_TokenParser; lia |].
    apply (same_fields_trans _ _ h2); [apply same_fields_with_new_TokenParser; lia |].
    apply (same_fields_trans _ _ h1); [apply same_fields_with_new_Map; fold b; lia |].
    apply same_fields_flush; lia. }
  rewrite <- Hp. unfold chain_step_raw, bind.
  destruct (transformer p s n h5) as [ns h6 | f |] eqn:Hcall; [| done | done].
  assert (Hkept : map_at (S b) h6 = ∅).
  { destruct (Hleaves _ _ _ _ _ (S b) Hcall) as [-> _]; [lia | done]. }
  cbn [observe rebuilt andb].
  destruct (isError ns) eqn:Hns; cbn [negb].
  - unfold ret at 1.
    rewrite observe_transformer_miss by (by apply fresh_miss).
    cbn [raw self final]. unfold chain_action_raw. by rewrite Hns.
  - unfold map_set at 1.
    rewrite observe_transformer_miss.
    + cbn [raw self final]. unfold chain_action_raw. rewrite Hns.
      cbn [chain_data]. apply observe_lift.
    + apply fresh_miss. cbn [self final]. rewrite map_at_set_map_at.
      destruct (decide (b = S b)); [lia | done].
Qed.

Lemma map_of_one p (mdata : ParseState D E → Semantics D)
    (merror : ParseState D E → Semantics E) (lm : nat) s (n : nat) h :
  reads_up_to_self p → (self p < lm)%nat → (self p < next_loc h)%nat →
  miss (mkTokenParser lm (map_raw p mdata merror)) s h →
  observe (transformer (mkTokenParser lm (map_raw p mdata merror)) s n h)
  = match observe (transformer p s n h) with
    | Ret ns _ =>
        if isError ns
        then observe (lift (updateParseError ns (merror ns)) n h)
        else observe (lift (updateParseResult ns (index ns) (mdata ns) None) n h)
    | Throw f => Throw f
    | Timeout => Timeout
    end.
Proof.
  intros Hreads Hlm Hnext Hmiss.
  rewrite (observe_transformer_miss _ _ _ _ Hmiss). cbn [raw self].
  assert (Hp : observe (transformer p s n (flush lm s h)) = observe (transformer p s n h)).
  { apply Hreads; [by rewrite next_loc_flush | done |].
    intros l Hl. apply same_fields_flush. lia. }
  rewrite <- Hp. unfold map_raw, bind.
  destruct (transformer p s n (flush lm s h)) as [ns h' | f |]; [| done | done].
  cbn [observe]. destruct (isError ns); apply observe_lift.
Qed.

(** A parser built from a pure function reads and writes its own fields only. *)
Lemma pure_raw_reads_up_to_self p : pure_raw p → reads_up_to_self p.
Proof.
  intros [f Hf] s n h1 h2 _ _ Hsame.
  destruct (Hsame (self p) (le_n _)) as [Hmap Htarget].
  unfold transformer.
  assert (Hflushed : map_at (self p) (flush (self p) s h1)
                     = map_at (self p) (flush (self p) s h2)).
  { unfold flush. rewrite Htarget. destruct (decide _); [done |].
    rewrite !map_at_set_map_at. by destruct (decide (self p = self p)). }
  rewrite Hflushed.
  destruct (map_at (self p) (flush (self p) s h2) !! state_identity s); [done |].
  rewrite !Hf. by destruct (f s).
Qed.

Lemma same_fields_set_map_at (l l' : nat) (m : gmap string (ParseState D E)) h :
  l ≠ l' → same_fields l' (set_map_at l m h) h.
Proof.
  intros Hne. split; [| done].
  rewrite map_at_set_map_at. by destruct (decide (l = l')).
Qed.

Lemma pure_raw_leaves_later_objects p : pure_raw p → leaves_later_objects p.
Proof.
  intros [f Hf] s n h out h' l Hcall [Hlt _].
  unfold transformer in Hcall.
  destruct (map_at (self p) (flush (self p) s h) !! state_identity s).
  - injection Hcall as _ <-. apply same_fields_flush. lia.
  - rewrite Hf in Hcall. destruct (f s) as [e | nextState]; [done |].
    cbn in Hcall. injection Hcall as _ <-.
    eapply same_fields_trans; [apply same_fields_set_map_at; lia |].
    apply same_fields_flush. lia.
Qed.

(** C8.  On a state that their memo tables do not answer, [chain([p])]
    without an action answers what [p] answers, and [chain([p], action)]
    answers what [map(p, s => action([s.data]), s => s.error)] answers. *)
Theorem chain_of_one_parser p (action : list (Semantics D) → Semantics D)
    (lc lm : nat) s (n : nat) h :
  reads_up_to_self p → leaves_later_objects p →
  (self p < lc)%nat → (self p < lm)%nat → (self p < next_loc h)%nat →
  miss (mkTokenParser lc (chain_raw [p] (Some action))) s h →
  miss (mkTokenParser lm (map_raw p (fun st => action [data st]) error)) s h →
  (∀ out, observe (transformer p s n h) = Ret out tt →
          isError out = true → index out ≤ js_length (target out)) →
  observe (transformer (mkTokenParser lc (chain_raw [p] None)) s n h)
    = observe (transformer p s n h) ∧
  observe (transformer (mkTokenParser lc (chain_raw [p] (Some action))) s n h)
    = observe (transformer
                 (mkTokenParser lm (map_raw p (fun st => action [data st]) error)) s n h).
Proof.
  intros Hreads Hleaves Hlc Hlm Hnext Hmiss_c Hmiss_m Hbuilt. split.
  - by apply chain_of_one_no_action.
  - rewrite chain_of_one_action, map_of_one by done.
    destruct (observe (transformer p s n h)) as [nextState [] | f |]; [| done | done].
    cbn [rebuilt]. destruct (isError nextState) eqn:Herr; [| done].
    unfold updateParseError.
    rewrite new_ParseError_checked by (by apply Hbuilt).
    by destruct nextState.
Qed.

End ChainFacts.

Lemma str_raw_pure (t : string) (EOFError matchError : ParseErrorProduction StaticSemantics)
    (l : nat) :
  pure_raw (D := StaticSemantics) (mkTokenParser l (str_raw t EOFError matchError)).
Proof.
  exists (fun s =>
    if isError s then inr s
    else if js_length (target s) <=? index s then
      updateParseError s (EOFError (target s) (index s))
    else if negb (js_startsWith (js_slice (target s) (index s)) t) then
      updateParseError s (matchError (target s) (index s))
    else updateParseResult s (index s + js_length t) (data s) (Some t)).
  intros s n h. cbn [raw]. unfold str_raw.
  destruct (isError s); [done |].
  destruct (js_length (target s) <=? index s); [done |].
  by destruct (negb _).
Qed.

(** [chain([a])], [chain([a], data => data[0])] and the corresponding
    [map] on the target ["ab"]. *)
Lemma chain_of_one_parser_witness :
  observe (transformer Examples.chain_a (Examples.at_start "ab") 5%nat Examples.heap5)
    = observe (transformer Examples.a (Examples.at_start "ab") 5%nat Examples.heap5) ∧
  observe (transformer Examples.chain_a_action (Examples.at_start "ab") 5%nat Examples.heap5)
    = observe (transformer Examples.map_a_action (Examples.at_start "ab") 5%nat Examples.heap5).
Proof.
  apply (chain_of_one_parser Examples.a Examples.first_datum 3 4
           (Examples.at_start "ab") 5 Examples.heap5).
  - apply pure_raw_reads_up_to_self, str_raw_pure.
  - apply pure_raw_leaves_later_objects, str_raw_pure.
  - cbn. lia.
  - cbn. lia.
  - cbn. lia.
  - reflexivity.
  - reflexivity.
  - intros out Hout _. vm_compute in Hout. injection Hout as <-. vm_compute. discriminate.
Defined.

(** ** [until]: what a success appends *)

Lemma String_length_append (s1 s2 : string) :
  String.length (s1 +:+ s2) = (String.length s1 + String.length s2)%nat.
Proof. induction s1 as [| c s1 IH]; simpl; [done | by f_equal]. Qed.

Lemma String_length_substring (n m : nat) (s : string) :
  (n + m ≤ String.length s)%nat → String.length (String.substring n m s) = m.
Proof.
  revert n m. induction s as [| c s IH]; intros n m Hle; cbn in *.
  - destruct n, m; cbn; lia.
  - destruct n as [| n]; cbn.
    + destruct m as [| m]; cbn; [done |]. rewrite IH; lia.
    + apply IH. lia.
Qed.

Lemma js_length_join_snoc (r : list string) (x : string) :
  js_length (join (r ++ [x])) = js_length (join r) + js_length x.
Proof.
  assert (Hnat : String.length (join (r ++ [x]))
                 = (String.length (join r) + String.length x)%nat).
  { induction r as [| y r IH]; simpl.
    - rewrite String_length_append. simpl. lia.
    - rewrite !String_length_append, IH. lia. }
  unfold js_length. lia.
Qed.

Lemma js_length_substring (t : string) (a b : Z) :
  0 ≤ a → a ≤ b → b ≤ js_length t → js_length (js_substring t a b) = b - a.
Proof.
  intros Ha Hab Hb. unfold js_substring, js_length in *.
  rewrite String_length_substring; lia.
Qed.

Lemma js_length_zero (x : string) : js_length x = 0 ↔ x = "".
Proof. unfold js_length. destruct x; cbn; split; (done || lia). Qed.

Section UntilFacts.
Context {D E : Type} `{!Identifiable D, !Identifiable E}.

(** A success of the loop after [k] steps leaves the index before the
    match of the terminator and appends the skipped substring as one
    token, unless nothing was skipped: then it appends nothing. *)
Lemma until_loop_skips (terminator : TokenParser D E) (EOFError : ParseErrorProduction E)
    (J : Heap D E → Prop) (matches : string → Z → bool)
    (t : string) (r : list string) (d : Semantics D) (start : Z) :
  decides terminator J matches →
  0 ≤ start → js_length (join r) ≤ start →
  ∀ (k : nat) (i : Z) (h : Heap D E) (n : nat),
    J h → start ≤ i → i + Z.of_nat k ≤ js_length t →
    (∀ j, i ≤ j < i + Z.of_nat k → matches t j = false) →
    matches t (i + Z.of_nat k) = true →
    (k < n)%nat →
    observe (until_loop terminator EOFError start n (ParseResult t i r d) h)
    = Ret (ParseResult t (i + Z.of_nat k)
             (if decide (start = i + Z.of_nat k) then r
              else r ++ [js_substring t start (i + Z.of_nat k)]) d) tt.
Proof.
  intros HT Hstart Hr. induction k as [| k IH]; intros i h n HJ Hi Hend Hskip Hmatch Hn.
  - destruct n as [| n]; [lia |]. cbn [until_loop].
    destruct (HT (ParseResult t i r d) h HJ eq_refl) as (out & h' & Hcall & _ & Hout).
    rewrite Hcall. cbn [target index] in Hout.
    replace (i + Z.of_nat 0) with i in * by lia. rewrite Hmatch in Hout. rewrite Hout.
    cbn [negb target index data result]. unfold updateParseResult, js_truthy.
    cbn [target result from_option id].
    destruct (decide (start = i)) as [-> | Hne].
    + replace (js_substring t i i) with "".
      * cbn [String.eqb negb]. by rewrite new_ParseResult_checked.
      * symmetry. apply js_length_zero. rewrite js_length_substring; lia.
    + destruct (String.eqb_spec (js_substring t start i) "") as [Hempty | _].
      * apply js_length_zero in Hempty. rewrite js_length_substring in Hempty; lia.
      * cbn [negb]. rewrite new_ParseResult_checked; [done | lia |].
        rewrite js_length_join_snoc, js_length_substring; lia.
  - destruct n as [| n]; [lia |]. cbn [until_loop].
    destruct (HT (ParseResult t i r d) h HJ eq_refl) as (out & h' & Hcall & HJ' & Hout).
    rewrite Hcall. cbn [target index] in Hout.
    rewrite (Hskip i) in Hout by lia. rewrite Hout.
    cbn [negb target index data result].
    replace (js_length t <=? i) with false by (symmetry; apply Z.leb_gt; lia).
    unfold updateParseResult, js_truthy. cbn [target result].
    rewrite new_ParseResult_checked by lia.
    rewrite (IH (i + 1) h' n HJ'); [| lia | lia | | | lia].
    + replace (i + 1 + Z.of_nat k) with (i + Z.of_nat (S k)) by lia. done.
    + intros j Hj. apply Hskip. lia.
    + replace (i + 1 + Z.of_nat k) with (i + Z.of_nat (S k)) by lia. done.
Qed.


Lemma until_skips (terminator : TokenParser D E) (EOFError : ParseErrorProduction E)
    (J : Heap D E → Prop) (matches : string → Z → bool) (l : nat)
    (t : string) (i : Z) (r : list string) (d : Semantics D) (k n : nat) (h : Heap D E) :
  decides terminator J matches →
  miss (mkTokenParser l (until_raw terminator EOFError)) (ParseResult t i r d) h →
  J (flush l (ParseResult t i r d) h) →
  js_length (join r) ≤ i → i + Z.of_nat k ≤ js_length t →
  (∀ j, i ≤ j < i + Z.of_nat k → matches t j = false) →
  matches t (i + Z.of_nat k) = true →
  (k < n)%nat →
  observe (transformer (mkTokenParser l (until_raw terminator EOFError))
             (ParseResult t i r d) n h)
  = Ret (ParseResult t (i + Z.of_nat k)
           (if decide (k = 0%nat) then r
            else r ++ [js_substring t i (i + Z.of_nat k)]) d) tt.
Proof.
  intros HT Hmiss HJ Hr Hend Hskip Hmatch Hn.
  rewrite (observe_transformer_miss _ _ _ _ Hmiss). cbn [raw self].
  unfold until_raw. cbn [isError index].
  pose proof (js_length_nonneg (join r)).
  rewrite (until_loop_skips terminator EOFError J matches t r d i HT
             ltac:(lia) Hr k i _ n HJ) by (done || lia).
  destruct (decide (i = i + Z.of_nat k)), (decide (k = 0%nat)); (done || lia).
Qed.

End UntilFacts.

(** ** The breadth guard with the bound at [Infinity] *)

Section UnboundedFacts.
Context {D E : Type} `{!Identifiable D, !Identifiable E}.
Variable g : Grammar D E.
Variable tf : nat.

Lemma updateParseError_fault (s : ParseState D E) e f :
  updateParseError s e = inl f → f ≠ breadth_fault.
Proof.
  unfold updateParseError, new_ParseError. destruct (_ <? _); [| done].
  by intros [= <-].
Qed.

Lemma updateParseResult_fault (s : ParseState D E) i d o f :
  updateParseResult s i d o = inl f → f ≠ breadth_fault.
Proof.
  unfold updateParseResult, new_ParseResult. destruct (_ <? _); [by intros [= <-] |].
  destruct (_ <? _); [by intros [= <-] | done].
Qed.

Lemma perform_unbounded (Htok : tokens_never_raise_breadth g tf) :
  ∀ n task m, SymbolParser.perform None g tf n task m ≠ Throw breadth_fault.
Proof.
  induction n as [| n IH]; intros task m; [done |].
  cbn [SymbolParser.perform].
  destruct task as [[p | f] s k | [| p key | mdata merror k | assertion k] s
                    | loc i k | [| k ks] s | [| p ps] s k].
  - repeat case_match; try done; apply IH.
  - repeat case_match; try done; try apply IH.
    + intros [= ->]. by eapply Htok.
  - done.
  - repeat case_match; try done; apply IH.
  - repeat case_match; try apply IH.
    all: intros [= ->].
    all: first [ by eapply updateParseError_fault | by eapply updateParseResult_fault ].
  - repeat case_match; try done; try apply IH.
    intros [= ->]. by eapply updateParseError_fault.
  - repeat case_match; try done; try apply IH.
    intros [= ->]. by eapply IH.
  - done.
  - repeat case_match; try done; try apply IH.
    intros [= ->]. by eapply IH.
  - done.
  - repeat case_match; try done; try apply IH.
    intros [= ->]. by eapply IH.
Qed.

Lemma pop_loop_unbounded (Htok : tokens_never_raise_breadth g tf) :
  ∀ n rc m, SymbolParser.pop_loop None g tf n rc m ≠ Throw breadth_fault.
Proof.
  induction n as [| n IH]; intros rc m; [done |].
  cbn [SymbolParser.pop_loop].
  repeat case_match; try done; try apply IH.
  intros [= ->]. by eapply perform_unbounded.
Qed.

Lemma generate_loop_unbounded (Htok : tokens_never_raise_breadth g tf) :
  ∀ n rc yielded m,
    SymbolParser.generate_loop None g tf n rc yielded m ≠ Throw breadth_fault.
Proof.
  induction n as [| n IH]; intros rc yielded m; [done |].
  cbn [SymbolParser.generate_loop].
  repeat case_match; try done; try apply IH.
  intros [= ->]. by eapply pop_loop_unbounded.
Qed.

(** With the bound at [Infinity], [run] never throws the breadth fault,
    whatever the grammar and however many results an entry holds, as
    long as no promoted token parser throws it itself. *)
Lemma run_unbounded (Htok : tokens_never_raise_breadth g tf) root t d i n m :
  SymbolParser.run None g tf root t d i n m ≠ Throw breadth_fault.
Proof.
  unfold SymbolParser.run, SymbolParser.generate, SymbolParser.select_results.
  repeat case_match; try done; simplify_eq.
  all: try (unfold new_ParseResult in *; repeat case_match; by simplify_eq).
  intros [= ->]. by eapply generate_loop_unbounded.
Qed.


End UnboundedFacts.

(** ** Identities and positions *)

Lemma append_cancel_l (p s1 s2 : string) : p +:+ s1 = p +:+ s2 → s1 = s2.
Proof. induction p as [| c p IH]; simpl; [done |]. intros [= H]. by apply IH. Qed.

Lemma split_at_underscore (a b ra rb : string) :
  no_underscore a → no_underscore b → starts_a_field ra → starts_a_field rb →
  a +:+ ra = b +:+ rb → a = b ∧ ra = rb.
Proof.
  revert b. induction a as [| c a IH]; intros b Ha Hb Hra Hrb Heq; simpl in *.
  - destruct b as [| c' b]; simpl in *; [done |].
    destruct Hb as [Hc' _]. destruct Hra as [-> | [s' ->]]; [done |].
    injection Heq as <- _. done.
  - destruct Ha as [Hc Ha]. destruct b as [| c' b]; simpl in *.
    + destruct Hrb as [-> | [s' ->]]; [done |]. injection Heq as -> _. done.
    + destruct Hb as [_ Hb]. injection Heq as -> Heq.
      destruct (IH b Ha Hb Hra Hrb Heq) as [-> ->]. done.
Qed.

Lemma pretty_N_char_no_underscore (x : N) : pretty_N_char x ≠ "_"%char.
Proof. unfold pretty_N_char. by repeat case_match. Qed.

Lemma pretty_N_go_no_underscore (x : N) (s : string) :
  no_underscore s → no_underscore (pretty_N_go x s).
Proof.
  revert s. induction (N.lt_wf_0 x) as [x _ IH]; intros s Hs.
  assert (x = 0 ∨ 0 < x)%N as [-> | Hpos] by lia.
  - by rewrite pretty_N_go_0.
  - rewrite pretty_N_go_step by done. apply IH.
    + by apply N.div_lt.
    + split; [apply pretty_N_char_no_underscore | done].
Qed.

Lemma pretty_N_no_underscore (x : N) : no_underscore (pretty x).
Proof.
  unfold pretty, pretty_N. destruct (decide _).
  - by split.
  - by apply pretty_N_go_no_underscore.
Qed.

Lemma js_number_to_string_no_underscore (z : Z) : no_underscore (js_number_to_string z).
Proof.
  unfold js_number_to_string. destruct z as [| p | p]; unfold pretty, pretty_Z.
  - by split.
  - apply pretty_N_no_underscore.
  - split; [done |]. apply pretty_N_no_underscore.
Qed.

Section IdentityFacts.
Context {D E : Type} `{!Identifiable D, !Identifiable E}.

Lemma identity_suffix_starts_a_field (s : ParseState D E) :
  starts_a_field (identity_suffix s).
Proof. unfold identity_suffix. destruct (_ <? _); [right; by eexists | by left]. Qed.

Lemma semantics_identity_of_suffix (s1 s2 : ParseState D E) :
  identity_suffix s1 = identity_suffix s2 → semantics_identity s1 = semantics_identity s2.
Proof.
  unfold identity_suffix.
  destruct (0 <? js_length (semantics_identity s1)) eqn:H1,
           (0 <? js_length (semantics_identity s2)) eqn:H2; simpl; try done.
  - intros Heq. by injection Heq.
  - intros _. apply Z.ltb_ge in H1, H2.
    pose proof (js_length_nonneg (semantics_identity s1)).
    pose proof (js_length_nonneg (semantics_identity s2)).
    assert (E1 : js_length (semantics_identity s1) = 0) by lia.
    assert (E2 : js_length (semantics_identity s2) = 0) by lia.
    apply js_length_zero in E1, E2. congruence.
Qed.

(** Within one target the identity of a state tells its position: two
    states of the same target with the same identity have the same index
    and the same semantic identity.  This is what lets a memo table that
    is cleared on every change of target be keyed by the identity. *)
Theorem identity_separates_positions (s1 s2 : ParseState D E) :
  target s1 = target s2 → state_identity s1 = state_identity s2 →
  index s1 = index s2 ∧ semantics_identity s1 = semantics_identity s2.
Proof.
  intros Htarget Hid. unfold state_identity in Hid. rewrite Htarget in Hid.
  apply append_cancel_l in Hid. apply (append_cancel_l "_") in Hid.
  apply (split_at_underscore _ _ (identity_suffix s1) (identity_suffix s2))
    in Hid as [Hidx Hsuffix];
    [| apply js_number_to_string_no_underscore | apply js_number_to_string_no_underscore
     | apply identity_suffix_starts_a_field | apply identity_suffix_starts_a_field].
  split.
  - unfold js_number_to_string in Hidx. by apply (inj pretty).
  - by apply semantics_identity_of_suffix.
Qed.

End IdentityFacts.

(** Two states of ["ab"] at index 1 that differ in their tokens and in the
    value of their data. *)
Lemma identity_separates_positions_witness :
  index Examples.after_a
    = index (ParseResult (E := StaticSemantics) "ab" 1 [] (Value (mkStatic "" 7))) ∧
  semantics_identity Examples.after_a
    = semantics_identity (ParseResult (E := StaticSemantics) "ab" 1 [] (Value (mkStatic "" 7))).
Proof.
  apply (identity_separates_positions Examples.after_a
           (ParseResult "ab" 1 [] (Value (mkStatic "" 7)))); reflexivity.
Defined.

(** ** The memo table of a token parser *)

Section MemoFacts.
Context {D E : Type} `{!Identifiable D, !Identifiable E}.
Implicit Types (p parser : TokenParser D E) (s state out : ParseState D E) (h : Heap D E).

Lemma currentTarget_flush (l : nat) s h : currentTarget l (flush l s h) = target s.
Proof.
  unfold flush. destruct (decide _) as [-> | _]; [done |].
  unfold currentTarget, set_map_at, set_currentTarget. cbn. by rewrite lookup_insert_eq.
Qed.

Lemma flush_same_target (l : nat) s h : target s = currentTarget l h → flush l s h = h.
Proof. intros Heq. unfold flush. by rewrite decide_True. Qed.

Lemma currentTarget_set_map_at (l l' : nat) (m : gmap string (ParseState D E)) h :
  currentTarget l' (set_map_at l m h) = currentTarget l' h.
Proof. reflexivity. Qed.

(** After a call, the table of a parser built from a pure function holds
    the answer under the identity of the state, for its target. *)
Lemma transformer_records p s (n : nat) h out h1 :
  pure_raw p → transformer p s n h = Ret out h1 →
  map_at (self p) h1 !! state_identity s = Some out ∧
  currentTarget (self p) h1 = target s.
Proof.
  intros [f Hf] Hcall. unfold transformer in Hcall.
  destruct (map_at (self p) (flush (self p) s h) !! state_identity s)
    as [memoised |] eqn:Hlookup.
  - injection Hcall as <- <-. split; [done | apply currentTarget_flush].
  - rewrite Hf in Hcall. destruct (f s) as [e | nextState]; [done |].
    cbn in Hcall. injection Hcall as <- <-. split.
    + rewrite map_at_set_map_at. destruct (decide _); [| done].
      by rewrite lookup_insert_eq.
    + rewrite currentTarget_set_map_at. apply currentTarget_flush.
Qed.

(** Once a parser built from a pure function has answered a state, every
    later call on a state of the same target with the same identity gets
    that very answer from the memo table and leaves the heap as it is:
    the function is not run again, also when the second state differs in
    its tokens or in the value of its data. *)
Theorem memo_answers_again p s s2 (n n' : nat) h out h1 :
  pure_raw p →
  transformer p s n h = Ret out h1 →
  target s2 = target s → state_identity s2 = state_identity s →
  transformer p s2 n' h1 = Ret out h1.
Proof.
  intros Hpure Hcall Htarget Hid.
  destruct (transformer_records p s n h out h1 Hpure Hcall) as [Hlookup Hcur].
  unfold transformer.
  rewrite flush_same_target by congruence.
  by rewrite Hid, Hlookup.
Qed.

(** A call on a state of another target than the last one clears the
    memo table first: afterwards the table holds the answer of this call
    and nothing else, and the parser remembers the new target. *)
Theorem target_change_clears_the_table p s (n : nat) h out h1 :
  pure_raw p →
  target s ≠ currentTarget (self p) h →
  transformer p s n h = Ret out h1 →
  map_at (self p) h1 = {[state_identity s := out]} ∧
  currentTarget (self p) h1 = target s.
Proof.
  intros [f Hf] Hne Hcall. unfold transformer in Hcall.
  assert (Hflushed : map_at (self p) (flush (self p) s h) = ∅).
  { unfold flush. rewrite decide_False by done.
    rewrite map_at_set_map_at. by destruct (decide _). }
  rewrite Hflushed, lookup_empty, Hf in Hcall.
  destruct (f s) as [e | nextState]; [done |]. cbn in Hcall.
  injection Hcall as <- <-. split.
  - rewrite map_at_set_map_at. destruct (decide _); [| done].
    by rewrite Hflushed, insert_empty.
  - rewrite currentTarget_set_map_at. apply currentTarget_flush.
Qed.

End MemoFacts.

(** [a] answers the start of ["ab"]; asked again with a state of the same
    identity that carries other data, it gives the first answer. *)
Lemma memo_answers_again_witness :
  ∃ out h1,
    transformer Examples.a (Examples.at_start "ab") 1%nat Examples.heap3 = Ret out h1 ∧
    transformer Examples.a (ParseResult "ab" 0 ["zz"] (Value (mkStatic "" 7))) 1%nat h1
      = Ret out h1.
Proof.
  eexists _, _. split; [vm_compute; reflexivity |].
  eapply (memo_answers_again Examples.a (Examples.at_start "ab")
            (ParseResult "ab" 0 ["zz"] (Value (mkStatic "" 7))) 1 1 Examples.heap3).
  - apply str_raw_pure.
  - vm_compute. reflexivity.
  - reflexivity.
  - reflexivity.
Defined.

(** [a], whose last target was ["ab"] and whose table holds an answer
    for it, is called on ["aa"]. *)
Lemma target_change_clears_the_table_witness :
  map_at 0 MoreExamples.heap_after_ab
    = {[state_identity (Examples.at_start "ab") := ParseResult "ab" 1 ["a"] NoSemantics]} ∧
  ∃ out h1,
    transformer Examples.a (Examples.at_start "aa") 1%nat MoreExamples.heap_after_ab
      = Ret out h1 ∧
    map_at 0 h1 = {[state_identity (Examples.at_start "aa") := out]} ∧
    currentTarget 0 h1 = "aa".
Proof.
  split; [vm_compute; reflexivity |].
  eexists _, _. split; [vm_compute; reflexivity |].
  eapply (target_change_clears_the_table Examples.a (Examples.at_start "aa") 1
            MoreExamples.heap_after_ab).
  - apply str_raw_pure.
  - vm_compute. discriminate.
  - vm_compute. reflexivity.
Defined.

(** ** [str]: what it consumes and what it keeps *)

Lemma String_length_prefix (s t : string) :
  String.prefix s t = true → (String.length s ≤ String.length t)%nat.
Proof.
  revert t. induction s as [| a s IH]; intros t Hpre; simpl; [lia |].
  destruct t as [| b t]; simpl in *; [done |].
  destruct (Ascii.ascii_dec a b); [| done]. specialize (IH t Hpre). lia.
Qed.

Lemma js_length_slice (t : string) (i : Z) :
  0 ≤ i → i ≤ js_length t → js_length (js_slice t i) = js_length t - i.
Proof.
  intros Hlo Hhi. unfold js_slice, js_length in *.
  replace (i <? 0) with false by (symmetry; apply Z.ltb_ge; lia).
  rewrite String_length_substring; lia.
Qed.

Section StrFacts.
Context {D E : Type} `{!Identifiable D, !Identifiable E}.

(** On a result state that satisfies the invariants, [str(s, ...)] never
    throws and needs no fuel; it fails exactly when the index is at the
    end of the target or the rest of the target does not start with [s];
    its answer satisfies the invariants and keeps the target.  A failure
    keeps index and tokens; a success advances the index by the length of
    [s], keeps the data and appends [s] as one token unless [s] is empty. *)
Theorem str_keeps_the_invariants (s : string) (EOFError matchError : ParseErrorProduction E)
    (state : ParseState D E) :
  state_invariant state → isError state = false →
  ∃ out, (∀ n h, str_raw s EOFError matchError state n h = Ret out h) ∧
         state_invariant out ∧ target out = target state ∧
         isError out = (js_length (target state) <=? index state)
                       || negb (js_startsWith (js_slice (target state) (index state)) s) ∧
         if isError out
         then index out = index state ∧ result out = result state
         else index out = index state + js_length s ∧ data out = data state ∧
              result out = (if decide (s = "") then result state
                            else (result state ++ [s])%list).
Proof.
  intros [[Hlo Hhi] Hres] Hstate. unfold str_raw. rewrite Hstate.
  destruct (js_length (target state) <=? index state) eqn:Heof.
  { exists (ParseError (target state) (index state) (result state)
              (EOFError (target state) (index state))).
    split; [| by repeat split].
    intros n h. unfold updateParseError. by rewrite new_ParseError_checked. }
  destruct (js_startsWith (js_slice (target state) (index state)) s) eqn:Hpre;
    cbn [negb orb].
  - apply String_length_prefix in Hpre.
    assert (Hlen : js_length s ≤ js_length (target state) - index state).
    { rewrite <- js_length_slice by done. unfold js_length.
      apply Nat2Z.inj_le. exact Hpre. }
    pose proof (js_length_nonneg s) as Hs.
    unfold updateParseResult, js_truthy. cbn [from_option id].
    destruct (String.eqb_spec s "") as [-> | Hne]; cbn [negb].
    + exists (ParseResult (target state) (index state + js_length "") (result state)
                (data state)).
      split; [intros n h; rewrite new_ParseResult_checked; [done | lia ..] |].
      unfold state_invariant. cbn [isError index target result data].
      repeat split; (done || lia).
    + exists (ParseResult (target state) (index state + js_length s)
                (result state ++ [s])%list (data state)).
      assert (js_length (join (result state ++ [s])%list) ≤ index state + js_length s)
        by (rewrite js_length_join_snoc; lia).
      split; [intros n h; rewrite new_ParseResult_checked; [done | lia ..] |].
      unfold state_invariant. cbn [isError index target result data].
      rewrite decide_False by done. repeat split; (done || lia).
  - exists (ParseError (target state) (index state) (result state)
              (matchError (target state) (index state))).
    split; [| by repeat split].
    intros n h. unfold updateParseError. by rewrite new_ParseError_checked.
Qed.

End StrFacts.

(** [str("b", eof, mismatch)] on ["ab"] after ["a"]. *)
Lemma str_keeps_the_invariants_witness :
  ∃ out : Examples.St,
    (∀ n h, str_raw "b" Examples.eof Examples.mismatch Examples.after_a n h = Ret out h) ∧
    state_invariant out ∧ target out = target Examples.after_a ∧
    isError out = (js_length (target Examples.after_a) <=? index Examples.after_a)
                  || negb (js_startsWith
                             (js_slice (target Examples.after_a) (index Examples.after_a)) "b") ∧
    if isError out
    then index out = index Examples.after_a ∧ result out = result Examples.after_a
    else index out = index Examples.after_a + js_length "b" ∧
         data out = data Examples.after_a ∧
         result out = (if decide ("b" = "") then result Examples.after_a
                       else (result Examples.after_a ++ ["b"])%list).
Proof.
  apply (str_keeps_the_invariants "b" Examples.eof Examples.mismatch Examples.after_a).
  - unfold state_invariant. vm_compute. repeat split; congruence.
  - reflexivity.
Defined.

(** ** [many] and [many1] *)

Section ManyNeverFails.
Context {D E : Type} `{!Identifiable D, !Identifiable E}.
Implicit Types (parser : TokenParser D E) (state out : ParseState D E) (h : Heap D E).

Lemma many_loop_never_fails parser (n : nat) state h out h' :
  isError state = false → many_loop parser n state h = Ret out h' → isError out = false.
Proof.
  revert state h. induction n as [| n IH]; intros state h Hstate Hloop; [done |].
  cbn [many_loop] in Hloop.
  destruct (transformer parser state n h) as [output h1 | f |]; [| done | done].
  destruct (isError output) eqn:Herr.
  - by injection Hloop as <- _.
  - destruct (js_length (target output) <=? index output).
    + by injection Hloop as <- _.
    + by eapply IH.
Qed.

(** [many] never fails on its own: whatever the parser it repeats does,
    an answer of [many] is an error only when the state it was given is
    one.  The error that ends the repetition is dropped. *)
Theorem many_never_fails parser state (n : nat) h out h' :
  many_raw parser state n h = Ret out h' → isError out = isError state.
Proof.
  unfold many_raw. destruct (isError state) eqn:Hstate.
  - unfold ret. by intros [= <- _].
  - apply many_loop_never_fails. done.
Qed.

End ManyNeverFails.

(** [many(a)] on ["ab"]: one ["a"], then [a] fails on ["b"]. *)
Lemma many_never_fails_witness :
  isError (ParseResult (D := StaticSemantics) (E := StaticSemantics) "ab" 1 ["a"] NoSemantics)
  = isError (Examples.at_start "ab").
Proof.
  eapply (many_never_fails Examples.a (Examples.at_start "ab") 5 Examples.heap3).
  vm_compute. reflexivity.
Defined.

(** [many1(x, onEmpty)] on the start of ["ab"], where [x] does not match:
    the state carries no token and the answer is the [onEmpty] error. *)
Lemma many1_raw_no_match_witness :
  observe (many1_raw Examples.x Examples.onEmpty (Examples.at_start "ab") 5%nat Examples.heap3)
  = Ret (ParseError "ab" 0 [] (Examples.onEmpty "ab" 0)) tt.
Proof.
  eapply (many1_raw_no_match Examples.x Examples.onEmpty (Examples.at_start "ab") _ 4
            Examples.heap3).
  - reflexivity.
  - vm_compute. reflexivity.
  - reflexivity.
Defined.

(** ** [until]: the scan and its two ends *)

Section UntilTraces.
Context {D E : Type} `{!Identifiable D, !Identifiable E}.

Lemma until_loop_stops_at_the_match (terminator : TokenParser D E)
    (EOFError : ParseErrorProduction E)
    (t : string) (r : list string) (d : Semantics D) (start : Z) :
  0 ≤ start → js_length (join r) ≤ start →
  ∀ (k : nat) (i : Z) (h h1 h2 : Heap D E) (out : ParseState D E) (n : nat),
    start ≤ i → i + Z.of_nat k ≤ js_length t →
    rejects terminator t r d i k h h1 →
    (∀ n, transformer terminator (ParseResult t (i + Z.of_nat k) r d) n h1 = Ret out h2) →
    isError out = false →
    (k < n)%nat →
    until_loop terminator EOFError start n (ParseResult t i r d) h
    = Ret (ParseResult t (i + Z.of_nat k)
             (if decide (start = i + Z.of_nat k) then r
              else (r ++ [js_substring t start (i + Z.of_nat k)])%list) d) h2.
Proof.
  intros Hstart Hr. induction k as [| k IH]; intros i h h1 h2 out n Hi Hend Hrej Hcall Hout Hn.
  - destruct n as [| n]; [lia |]. cbn [until_loop]. cbn in Hrej. subst h1.
    replace (i + Z.of_nat 0) with i in * by lia.
    rewrite Hcall, Hout.
    cbn [negb target index data result]. unfold updateParseResult, js_truthy.
    cbn [target result from_option id].
    destruct (decide (start = i)) as [-> | Hne].
    + replace (js_substring t i i) with "".
      * cbn [String.eqb negb]. by rewrite new_ParseResult_checked.
      * symmetry. apply js_length_zero. rewrite js_length_substring; lia.
    + destruct (String.eqb_spec (js_substring t start i) "") as [Hempty | _].
      * apply js_length_zero in Hempty. rewrite js_length_substring in Hempty; lia.
      * cbn [negb]. rewrite new_ParseResult_checked; [done | lia |].
        rewrite js_length_join_snoc, js_length_substring; lia.
  - destruct n as [| n]; [lia |]. cbn [until_loop].
    cbn [rejects] in Hrej. destruct Hrej as (out' & h' & Hcall' & Hout' & Hrej).
    rewrite Hcall', Hout'.
    cbn [negb target index data result].
    replace (js_length t <=? i) with false by (symmetry; apply Z.leb_gt; lia).
    unfold updateParseResult, js_truthy. cbn [target result].
    rewrite new_ParseResult_checked by lia.
    replace (i + Z.of_nat (S k)) with (i + 1 + Z.of_nat k) in * by lia.
    apply (IH (i + 1) h' h1 h2 out n); (done || lia).
Qed.

(** When the terminator rejects the [k] positions from the index on and
    accepts the next one, [until] stops there without consuming the
    terminator: the index has advanced by [k], the data is kept, and the
    [k] skipped characters are appended as one token, or nothing is
    appended when [k] is 0. *)
Theorem until_appends_what_it_skipped (terminator : TokenParser D E)
    (EOFError : ParseErrorProduction E) (l : nat)
    (t : string) (i : Z) (r : list string) (d : Semantics D) (k n : nat)
    (h h1 h2 : Heap D E) (out : ParseState D E) :
  miss (mkTokenParser l (until_raw terminator EOFError)) (ParseResult t i r d) h →
  js_length (join r) ≤ i → i + Z.of_nat k ≤ js_length t →
  rejects terminator t r d i k (flush l (ParseResult t i r d) h) h1 →
  (∀ n, transformer terminator (ParseResult t (i + Z.of_nat k) r d) n h1 = Ret out h2) →
  isError out = false →
  (k < n)%nat →
  observe (transformer (mkTokenParser l (until_raw terminator EOFError))
             (ParseResult t i r d) n h)
  = Ret (ParseResult t (i + Z.of_nat k)
           (if decide (k = 0%nat) then r
            else (r ++ [js_substring t i (i + Z.of_nat k)])%list) d) tt.
Proof.
  intros Hmiss Hr Hend Hrej Hcall Hout Hn.
  rewrite (observe_transformer_miss _ _ _ _ Hmiss). cbn [raw self].
  unfold until_raw. cbn [isError index].
  pose proof (js_length_nonneg (join r)).
  rewrite (until_loop_stops_at_the_match terminator EOFError t r d i
             ltac:(lia) Hr k i _ h1 h2 out n) by (done || lia).
  cbn [observe].
  destruct (decide (i = i + Z.of_nat k)), (decide (k = 0%nat)); (done || lia).
Qed.

Lemma until_loop_runs_out (terminator : TokenParser D E)
    (EOFError : ParseErrorProduction E)
    (t : string) (r : list string) (d : Semantics D) (start : Z) :
  js_length (join r) ≤ start →
  ∀ (k : nat) (i : Z) (h h1 : Heap D E) (n : nat),
    start ≤ i → i + Z.of_nat k = js_length t →
    rejects terminator t r d i (S k) h h1 →
    (k < n)%nat →
    until_loop terminator EOFError start n (ParseResult t i r d) h
    = Ret (ParseError t (js_length t) r (EOFError t (js_length t))) h1.
Proof.
  intros Hr. induction k as [| k IH]; intros i h h1 n Hi Hend Hrej Hn.
  - destruct n as [| n]; [lia |]. cbn [until_loop].
    cbn [rejects] in Hrej. destruct Hrej as (out' & h' & Hcall' & Hout' & ->).
    rewrite Hcall', Hout'.
    cbn [negb target index data result].
    replace (js_length t <=? i) with true by (symmetry; apply Z.leb_le; lia).
    unfold updateParseError. cbn [target index result].
    rewrite new_ParseError_checked by lia.
    replace i with (js_length t) by lia. done.
  - destruct n as [| n]; [lia |]. cbn [until_loop].
    destruct Hrej as (out' & h' & Hcall' & Hout' & Hrej).
    rewrite Hcall', Hout'.
    cbn [negb target index data result].
    replace (js_length t <=? i) with false by (symmetry; apply Z.leb_gt; lia).
    unfold updateParseResult, js_truthy. cbn [target result].
    rewrite new_ParseResult_checked by lia.
    apply (IH (i + 1) h' h1 n); (done || lia).
Qed.

(** When the terminator rejects every position from the index up to and
    including the end of the target, [until] fails with the [EOFError]
    error; the error sits at the end of the target, not where the scan
    started, and carries the tokens of the entering state. *)
Theorem until_fails_at_the_end (terminator : TokenParser D E)
    (EOFError : ParseErrorProduction E) (l : nat)
    (t : string) (i : Z) (r : list string) (d : Semantics D) (k n : nat)
    (h h1 : Heap D E) :
  miss (mkTokenParser l (until_raw terminator EOFError)) (ParseResult t i r d) h →
  js_length (join r) ≤ i → i + Z.of_nat k = js_length t →
  rejects terminator t r d i (S k) (flush l (ParseResult t i r d) h) h1 →
  (k < n)%nat →
  observe (transformer (mkTokenParser l (until_raw terminator EOFError))
             (ParseResult t i r d) n h)
  = Ret (ParseError t (js_length t) r (EOFError t (js_length t))) tt.
Proof.
  intros Hmiss Hr Hend Hrej Hn.
  rewrite (observe_transformer_miss _ _ _ _ Hmiss). cbn [raw self].
  unfold until_raw. cbn [isError index].
  by rewrite (until_loop_runs_out terminator EOFError t r d i Hr k i _ h1 n).
Qed.

End UntilTraces.

(** [until(c, eof)] on ["abc"]: two positions rejected, then [c] matches. *)
Lemma until_appends_what_it_skipped_witness :
  observe (transformer Examples.until_c (Examples.at_start "abc") 5%nat Examples.heap3)
  = Ret (ParseResult "abc" 2 ["ab"] NoSemantics) tt.
Proof.
  eapply (until_appends_what_it_skipped Examples.c Examples.eof 3 "abc" 0 [] NoSemantics
            2 5 Examples.heap3).
  - reflexivity.
  - vm_compute. congruence.
  - vm_compute. congruence.
  - cbn [rejects]. eexists _, _. split; [intros n; vm_compute; reflexivity |].
    split; [reflexivity |].
    eexists _, _. split; [intros n; vm_compute; reflexivity |].
    split; [reflexivity |]. reflexivity.
  - intros n. vm_compute. reflexivity.
  - reflexivity.
  - lia.
Defined.

(** [until(c, eof)] on ["ab"]: [c] is rejected at 0, 1 and at the end. *)
Lemma until_fails_at_the_end_witness :
  observe (transformer Examples.until_c (Examples.at_start "ab") 5%nat Examples.heap3)
  = Ret (ParseError "ab" 2 [] (Examples.eof "ab" 2)) tt.
Proof.
  eapply (until_fails_at_the_end Examples.c Examples.eof 3 "ab" 0 [] NoSemantics
            2 5 Examples.heap3).
  - reflexivity.
  - vm_compute. congruence.
  - reflexivity.
  - cbn [rejects]. eexists _, _. split; [intros n; vm_compute; reflexivity |].
    split; [reflexivity |].
    eexists _, _. split; [intros n; vm_compute; reflexivity |].
    split; [reflexivity |].
    eexists _, _. split; [intros n; vm_compute; reflexivity |].
    split; [reflexivity |]. reflexivity.
  - lia.
Defined.

(** ** [choice]: ordered alternatives *)

Section ChoiceFacts.
Context {D E : Type} `{!Identifiable D, !Identifiable E}.
Implicit Types (parser : TokenParser D E) (state out : ParseState D E) (h : Heap D E).

Lemma choice_loop_all_fail (parsers : list (TokenParser D E)) state (n : nat) h h' :
  all_fail parsers state n h h' → choice_loop parsers state n h = Ret None h'.
Proof.
  revert h. induction parsers as [| parser rest IH]; intros h Hall; cbn in *.
  - by subst.
  - destruct Hall as (out & h1 & Hcall & Herr & Hrest).
    unfold bind. rewrite Hcall, Herr. cbn [negb]. by apply IH.
Qed.

Lemma choice_loop_first (before after : list (TokenParser D E)) parser state
    (n : nat) h h1 out h2 :
  all_fail before state n h h1 →
  transformer parser state n h1 = Ret out h2 → isError out = false →
  choice_loop (before ++ parser :: after) state n h = Ret (Some out) h2.
Proof.
  revert h. induction before as [| q before IH]; intros h Hall Hcall Hout; cbn in *.
  - subst. unfold bind. by rewrite Hcall, Hout.
  - destruct Hall as (out' & h' & Hq & Herr & Hrest).
    unfold bind. rewrite Hq, Herr. cbn [negb]. by eapply IH.
Qed.

(** [choice] commits to the first parser of the list that succeeds: when
    the parsers before it fail on the state and it succeeds, its answer
    is the answer of [choice], and the parsers after it are not called
    (the heap is the one it leaves). *)
Theorem choice_commits_to_the_first_success (before after : list (TokenParser D E))
    parser (matchError : ParseErrorProduction E) state (n : nat) h h1 out h2 :
  isError state = false →
  all_fail before state n h h1 →
  transformer parser state n h1 = Ret out h2 → isError out = false →
  choice_raw (before ++ parser :: after) matchError state n h = Ret out h2.
Proof.
  intros Hstate Hall Hcall Hout. unfold choice_raw. rewrite Hstate.
  unfold bind. by rewrite (choice_loop_first before after parser state n h h1 out h2).
Qed.

(** When every parser of the list fails, [choice] answers with one error
    of its own, made by [matchError] at the index of the entering state
    and carrying that state's tokens; the errors of the parsers are
    dropped. *)
Theorem choice_replaces_every_error (parsers : list (TokenParser D E))
    (matchError : ParseErrorProduction E) state (n : nat) h h' :
  isError state = false → index state ≤ js_length (target state) →
  all_fail parsers state n h h' →
  choice_raw parsers matchError state n h
  = Ret (ParseError (target state) (index state) (result state)
           (matchError (target state) (index state))) h'.
Proof.
  intros Hstate Hidx Hall. unfold choice_raw. rewrite Hstate.
  unfold bind. rewrite (choice_loop_all_fail parsers state n h h' Hall).
  unfold updateParseError. by rewrite new_ParseError_checked.
Qed.

End ChoiceFacts.

(** [choice([c, a, x], mismatch)] on ["ab"]: [c] fails, [a] succeeds. *)
Lemma choice_commits_to_the_first_success_witness :
  ∃ h2, choice_raw [Examples.c; Examples.a; Examples.x] Examples.mismatch
          (Examples.at_start "ab") 1%nat Examples.heap3
        = Ret (ParseResult "ab" 1 ["a"] NoSemantics) h2.
Proof.
  eexists.
  eapply (choice_commits_to_the_first_success [Examples.c] [Examples.x] Examples.a
            Examples.mismatch (Examples.at_start "ab") 1 Examples.heap3).
  - reflexivity.
  - cbn [all_fail]. eexists _, _. split; [vm_compute; reflexivity |].
    split; reflexivity.
  - vm_compute. reflexivity.
  - reflexivity.
Defined.

(** [choice([c, x], onEmpty)] on ["ab"]: both fail. *)
Lemma choice_replaces_every_error_witness :
  ∃ h', choice_raw [Examples.c; Examples.x] Examples.onEmpty
          (Examples.at_start "ab") 1%nat Examples.heap3
        = Ret (ParseError "ab" 0 [] (Examples.onEmpty "ab" 0)) h'.
Proof.
  eexists.
  eapply (choice_replaces_every_error [Examples.c; Examples.x] Examples.onEmpty
            (Examples.at_start "ab") 1 Examples.heap3).
  - reflexivity.
  - vm_compute. congruence.
  - cbn [all_fail]. eexists _, _. split; [vm_compute; reflexivity |].
    split; [reflexivity |].
    eexists _, _. split; [vm_compute; reflexivity |].
    split; reflexivity.
Defined.

(** ** [error] and [recovery] *)

Section RecoveryFacts.
Context {D E : Type} `{!Identifiable D, !Identifiable E}.

(** [recovery(d)] applied to what [error(e)] makes of a result state that
    satisfies the invariants gives the state back with [d] as its data:
    target, index and tokens are the ones before the error, and the
    error value is gone. *)
Theorem recovery_undoes_error (e : Semantics E) (d : Semantics D)
    (state : ParseState D E) (n : nat) (h : Heap D E) :
  state_invariant state → isError state = false →
  (let* failed := error_raw e state in recovery_raw d failed) n h
  = Ret (ParseResult (target state) (index state) (result state) d) h.
Proof.
  intros [[Hlo Hhi] Hres] Hstate. unfold bind, error_raw, recovery_raw. rewrite Hstate.
  unfold updateParseError. rewrite new_ParseError_checked by done. cbn.
  unfold updateParseResult. cbn. by rewrite new_ParseResult_checked.
Qed.

End RecoveryFacts.

(** An error raised after ["a"] of ["ab"] and recovered from. *)
Lemma recovery_undoes_error_witness :
  (let* failed := error_raw (Examples.mismatch "ab" 1) Examples.after_a in
   recovery_raw (Value (mkStatic "fixed" 0)) failed) 1%nat Examples.heap3
  = Ret (ParseResult "ab" 1 ["a"] (Value (mkStatic "fixed" 0))) Examples.heap3.
Proof.
  apply (recovery_undoes_error (Examples.mismatch "ab" 1) (Value (mkStatic "fixed" 0))
           Examples.after_a 1 Examples.heap3).
  - unfold state_invariant. vm_compute. repeat split; congruence.
  - reflexivity.
Defined.

(** ** The generator: what is yielded *)

Section GeneratorFacts.
Context {D E : Type} `{!Identifiable D, !Identifiable E}.
Variable MAX : option nat.
Variable g : Grammar D E.
Variable tf : nat.

Implicit Types (m : Machine D E) (s r : ParseState D E) (k : Continuation D E).

Lemma collected_sym_flush (p : nat) s m :
  collected (SymbolParser.sym_flush p s m) = collected m.
Proof. unfold SymbolParser.sym_flush. by destruct (decide _). Qed.

(** Whatever the machine does, the array of collected states only grows
    at its end. *)
Lemma perform_collected_grows :
  ∀ n task m m', SymbolParser.perform MAX g tf n task m = Ret tt m' →
                 collected m `prefix_of` collected m'.
Proof.
  induction n as [| n IH]; intros task m m' Hrun; [done |].
  cbn [SymbolParser.perform] in Hrun.
  destruct task as [[p | f] s k | [| p key | mdata merror k | assertion k] s
                    | loc i k | [| k ks] s | [| p ps] s k].
  - destruct (parsers g !! p) as [f |]; [| done].
    destruct (_ !! state_identity s) as [loc |].
    + apply IH in Hrun. cbn in Hrun. by rewrite collected_sym_flush in Hrun.
    + cbn in Hrun. injection Hrun as <-. cbn. by rewrite collected_sym_flush.
  - repeat case_match; try done; by apply IH in Hrun.
  - injection Hrun as <-. by apply prefix_app_r.
  - repeat case_match; try done; simplify_eq; [done | by apply IH in Hrun].
  - repeat case_match; try done; by apply IH in Hrun.
  - repeat case_match; try done; by apply IH in Hrun.
  - destruct (entries m !! loc ≫= _) as [[key r] |]; [| by injection Hrun as <-].
    destruct (SymbolParser.perform _ _ _ _ _ _) as [[] m1 | |] eqn:Hfirst; [| done | done].
    etrans; [by eapply IH | by eapply IH].
  - by injection Hrun as <-.
  - destruct (SymbolParser.perform _ _ _ _ _ _) as [[] m1 | |] eqn:Hfirst; [| done | done].
    etrans; [by eapply IH | by eapply IH].
  - by injection Hrun as <-.
  - destruct (SymbolParser.perform _ _ _ _ _ _) as [[] m1 | |] eqn:Hfirst; [| done | done].
    etrans; [by eapply IH | by eapply IH].
Qed.

Lemma pop_loop_collected_grows :
  ∀ n rc m m', SymbolParser.pop_loop MAX g tf n rc m = Ret tt m' →
               collected m `prefix_of` collected m'.
Proof.
  induction n as [| n IH]; intros rc m m' Hrun; [done |].
  rewrite pop_loop_S in Hrun.
  destruct (parseStack m) as [| [[t nextState] continuation] rest];
    [by injection Hrun as <- |].
  destruct (length (collected m) <=? rc)%nat; [| by injection Hrun as <-].
  destruct (SymbolParser.perform _ _ _ _ _ _) as [[] m1 | |] eqn:Hitem; [| done | done].
  apply perform_collected_grows in Hitem. apply IH in Hrun.
  cbn in Hitem. by etrans.
Qed.

Lemma generate_loop_drains :
  ∀ n rc yielded m ys m',
    SymbolParser.generate_loop MAX g tf n rc yielded m = Ret ys m' →
    yielded = collected m → rc = length (collected m) →
    ys = collected m' ∧ parseStack m' = [].
Proof.
  induction n as [| n IH]; intros rc yielded m ys m' Hrun Hyielded Hrc; [done |].
  rewrite generate_loop_S in Hrun.
  destruct (parseStack m) as [| item rest] eqn:Hstack.
  - injection Hrun as <- <-. done.
  - destruct (SymbolParser.pop_loop _ _ _ _ _ _) as [[] m1 | |] eqn:Hpops; [| done | done].
    apply pop_loop_collected_grows in Hpops as [extra Hextra].
    apply IH in Hrun; [done | |].
    + rewrite Hyielded, Hrc, Hextra. by rewrite drop_app_length.
    + rewrite Hrc, Hextra, length_app. lia.
Qed.

(** A drained generator has yielded every state the root continuation
    collected, each once and in the order of collection, and it ends
    only when the parse stack is empty: no pending work is left behind
    and no collected state is withheld. *)
Theorem generate_yields_all_that_was_collected (root : nat) (t : string)
    (d : Semantics D) (i : option Z) (n : nat) m (ys : list (ParseState D E)) m' :
  SymbolParser.generate MAX g tf root t d i n m = Ret ys m' →
  ys = collected m' ∧ parseStack m' = [].
Proof.
  unfold SymbolParser.generate.
  destruct (new_ParseResult t (default 0 i) [] d) as [f | s0]; [done |].
  intros Hrun. by apply generate_loop_drains in Hrun.
Qed.

End GeneratorFacts.

(** The generator of [alternatives([toSymbol(a), empty])] on ["a"]. *)
Lemma generate_yields_all_that_was_collected_witness :
  ∃ m', SymbolParser.generate None Examples.optional_a 5 0 "a" NoSemantics None 50
          (SymbolParser.empty_machine Examples.heap3)
        = Ret [ParseResult "a" 0 [] NoSemantics; ParseResult "a" 1 ["a"] NoSemantics] m' ∧
        [ParseResult "a" 0 [] NoSemantics; ParseResult "a" 1 ["a"] NoSemantics]
        = collected m' ∧ parseStack m' = [].
Proof.
  eexists. split; [vm_compute; reflexivity |].
  eapply (generate_yields_all_that_was_collected None Examples.optional_a 5 0 "a"
            NoSemantics None 50 (SymbolParser.empty_machine Examples.heap3)).
  vm_compute. reflexivity.
Defined.

(** ** The answer of [run] is uniform *)

Section UniformFacts.
Context {D E : Type} `{!Identifiable D, !Identifiable E}.

Implicit Types (s first : ParseState D E) (others : list (ParseState D E)).

Lemma max_index_attained first others :
  ∃ s, s ∈ first :: others ∧ index s = max_index first others.
Proof.
  induction others as [| y others (s & Hs & Hmax)]; cbn [max_index foldr].
  - exists first. split; [set_solver | done].
  - fold (max_index first others).
    destruct (Z.max_spec (index y) (max_index first others)) as [[_ ->] | [_ ->]].
    + exists s. split; [set_solver | done].
    + exists y. split; [set_solver | done].
Qed.

Lemma farthest_progress_uniform first others :
  farthest_progress first others ≠ [] ∧
  ∀ s, s ∈ farthest_progress first others →
       s ∈ first :: others ∧ index s = max_index first others ∧
       ∀ s', s' ∈ farthest_progress first others → isError s' = isError s.
Proof.
  unfold farthest_progress.
  set (farthest := filter (fun s => index s = max_index first others) (first :: others)).
  assert (Hfar : ∀ s, s ∈ farthest ↔ index s = max_index first others ∧ s ∈ first :: others)
    by (intros s; unfold farthest; by rewrite list_elem_of_filter).
  destruct (decide (Exists (fun s => isError s = false) farthest)) as [Hex | Hno].
  - split.
    + apply Exists_exists in Hex as (s & Hs & Herr).
      assert (Hin : s ∈ filter (fun s => isError s = false) farthest)
        by (by apply list_elem_of_filter).
      intros Hnil. rewrite Hnil in Hin. by apply elem_of_nil in Hin.
    + intros s Hs. apply list_elem_of_filter in Hs as [Herr Hs].
      apply Hfar in Hs as [Hidx Hin]. repeat split; [done | done |].
      intros s' Hs'. apply list_elem_of_filter in Hs' as [Herr' _]. congruence.
  - split.
    + destruct (max_index_attained first others) as (s & Hin & Hidx).
      assert (Hs : s ∈ farthest) by (by apply Hfar).
      assert (Herr : isError s = true).
      { destruct (isError s) eqn:Herr; [done |]. exfalso. apply Hno, Exists_exists. eauto. }
      assert (Hin' : s ∈ filter (fun s => isError s = true) farthest)
        by (by apply list_elem_of_filter).
      intros Hnil. rewrite Hnil in Hin'. by apply elem_of_nil in Hin'.
    + intros s Hs. apply list_elem_of_filter in Hs as [Herr Hs].
      apply Hfar in Hs as [Hidx Hin]. repeat split; [done | done |].
      intros s' Hs'. apply list_elem_of_filter in Hs' as [Herr' _]. congruence.
Qed.

(** [run] of a symbol parser never returns an empty array, and the states
    it returns are of one kind at one place: they all sit at the same
    index and they are either all results or all errors.  (When the
    generator yields nothing, [run] does not return: it throws.) *)
Theorem run_answers_share_index_and_kind (MAX : option nat) (g : Grammar D E)
    (tf root : nat) (t : string) (d : Semantics D) (i : option Z) (n : nat)
    (m m' : Machine D E) (out : list (ParseState D E)) :
  SymbolParser.run MAX g tf root t d i n m = Ret out m' →
  out ≠ [] ∧
  ∀ s s', s ∈ out → s' ∈ out → index s = index s' ∧ isError s = isError s'.
Proof.
  unfold SymbolParser.run.
  destruct (SymbolParser.generate _ _ _ _ _ _ _ _ _) as [ys m1 | |]; [| done | done].
  destruct ys as [| first others]; [done |].
  rewrite select_results_farthest. intros [= <- <-].
  destruct (farthest_progress_uniform first others) as [Hne Hall].
  split; [done |]. intros s s' Hs Hs'.
  destruct (Hall s Hs) as (_ & Hidx & Hkind).
  destruct (Hall s' Hs') as (_ & Hidx' & _).
  split; [congruence | symmetry; by apply Hkind].
Qed.

End UniformFacts.

(** The two parses of ["a"] by [two_parses]. *)
Lemma run_answers_share_index_and_kind_witness :
  [ParseResult (E := StaticSemantics) "a" 1 ["a"] (Value (mkStatic "y" 0));
   ParseResult "a" 1 ["a"] (Value (mkStatic "x" 0))] ≠ [] ∧
  ∀ s s' : Examples.St,
    s ∈ [ParseResult "a" 1 ["a"] (Value (mkStatic "y" 0));
         ParseResult "a" 1 ["a"] (Value (mkStatic "x" 0))] →
    s' ∈ [ParseResult "a" 1 ["a"] (Value (mkStatic "y" 0));
          ParseResult "a" 1 ["a"] (Value (mkStatic "x" 0))] →
    index s = index s' ∧ isError s = isError s'.
Proof.
  eapply (run_answers_share_index_and_kind None Examples.two_parses 5 0 "a" NoSemantics
            None 50 (SymbolParser.empty_machine Examples.heap3)).
  vm_compute. reflexivity.
Defined.

(** ** The generator: no identity is yielded twice *)

Section DistinctFacts.
Context {D E : Type} `{!Identifiable D, !Identifiable E}.
Variable MAX : option nat.
Variable g : Grammar D E.
Variable tf : nat.

Implicit Types (m : Machine D E) (s r : ParseState D E) (k : Continuation D E)
  (e : Entry D E).

Lemma results_get_None e (id : string) :
  SymbolParser.results_get e id = None → id ∉ (results e).*1.
Proof.
  unfold SymbolParser.results_get.
  destruct (list_find _ _) as [[j [key r]] |] eqn:Hfind; [done |]. intros _.
  apply list_find_None in Hfind. intros Hin.
  apply list_elem_of_fmap in Hin as ([key r] & -> & Hin).
  eapply Forall_forall in Hfind; [| exact Hin]. by apply Hfind.
Qed.

Lemma run_invariant_sym_flush (p : nat) s m :
  run_invariant m → run_invariant (SymbolParser.sym_flush p s m).
Proof. unfold SymbolParser.sym_flush. by destruct (decide _). Qed.

Lemma run_invariant_with_heap (h : Heap D E) m :
  run_invariant m → run_invariant (SymbolParser.with_heap h m).
Proof. done. Qed.

Lemma run_invariant_subscribe (loc : nat) k m :
  collect_free k → run_invariant m → run_invariant (SymbolParser.subscribe loc k m).
Proof.
  intros Hk [Hentries Hstack]. split; [| done].
  cbn [SymbolParser.subscribe SymbolParser.with_entries entries collected].
  destruct (entries m) as [| e0 rest]; [done |].
  destruct Hentries as [(Hsubs & Hcoll & Hkeys & Hids) Hrest].
  destruct loc as [| loc]; cbn [alter list_alter].
  - split; [| done]. split; [| done].
    destruct Hsubs as (ks & -> & Hks). exists (ks ++ [k])%list. split; [done |].
    apply Forall_app. split; [done |]. by apply Forall_singleton.
  - split; [done |].
    clear -Hk Hrest. revert loc. induction Hrest as [| e rest He Hrest IH]; intros loc.
    + done.
    + destruct loc as [| loc]; cbn [list_alter].
      * constructor; [| done]. cbn. apply Forall_app. split; [done |].
        by apply Forall_singleton.
      * constructor; [done | apply IH].
Qed.

Lemma run_invariant_new_entry (p : nat) (key : string) m :
  run_invariant m → run_invariant (SymbolParser.new_entry p key m).2.
Proof.
  intros [Hentries Hstack]. split; [| done].
  cbn [SymbolParser.new_entry snd entries collected].
  destruct (entries m) as [| e0 rest]; [done |].
  destruct Hentries as [Hseed Hrest]. cbn [app]. split; [done |].
  apply Forall_app. split; [done |]. by apply Forall_singleton.
Qed.

Lemma run_invariant_push (t : Transformer) s k m :
  collect_free k → run_invariant m →
  run_invariant (SymbolParser.with_stack ((t, s, k) :: parseStack m) m).
Proof. intros Hk [Hentries Hstack]. split; [done |]. by constructor. Qed.

Lemma run_invariant_pushed (p f : nat) s k m :
  collect_free k → run_invariant m → run_invariant (pushed p f s k m).
Proof.
  intros Hk Hinv. unfold pushed. cbv zeta.
  apply (run_invariant_push (RawFn f) s (KPublish p (state_identity s))); [done |].
  apply run_invariant_subscribe; [done |].
  by apply (run_invariant_new_entry p (state_identity s)), run_invariant_sym_flush.
Qed.

Lemma entry_collect_free (loc : nat) e m :
  run_invariant m → entries m !! S loc = Some e →
  Forall collect_free (continuations e).
Proof.
  intros [Hentries _] Hlookup.
  destruct (entries m) as [| e0 rest]; [done |]. destruct Hentries as [_ Hrest].
  cbn in Hlookup. eapply Forall_forall in Hrest; [exact Hrest |].
  by eapply list_elem_of_lookup_2.
Qed.

Lemma run_invariant_store_later (loc : nat) r m :
  run_invariant m → run_invariant (SymbolParser.store_result (S loc) r m).
Proof.
  intros [Hentries Hstack]. split; [| done].
  cbn [SymbolParser.store_result SymbolParser.with_entries entries collected].
  destruct (entries m) as [| e0 rest]; [done |]. destruct Hentries as [Hseed Hrest].
  cbn [alter list_alter]. split; [done |].
  clear -Hrest. revert loc. induction Hrest as [| e rest He Hrest IH]; intros loc; [done |].
  destruct loc as [| loc]; cbn [list_alter]; constructor; (done || apply IH).
Qed.

(** Publishing a state under a new key to the seed entry and collecting
    it restores the invariant. *)
Lemma run_invariant_store_seed r e0 m :
  run_invariant m → entries m !! 0%nat = Some e0 →
  SymbolParser.results_get e0 (state_identity r) = None →
  run_invariant (SymbolParser.collect r (SymbolParser.store_result 0 r m)).
Proof.
  intros [Hentries Hstack] Hlookup Hnew. split; [| done].
  cbn [SymbolParser.store_result SymbolParser.with_entries SymbolParser.collect
       entries collected].
  destruct (entries m) as [| e rest]; [done |]. injection Hlookup as ->.
  destruct Hentries as [(Hsubs & Hcoll & Hkeys & Hids) Hrest].
  cbn [alter list_alter]. split; [| done].
  split; [done |]. cbn [results]. rewrite !fmap_app. cbn [fmap list_fmap snd fst].
  split; [by rewrite Hcoll |]. split.
  - apply NoDup_app. split; [done |]. split; [| apply NoDup_singleton].
    intros key Hkey Hin. apply list_elem_of_singleton in Hin as ->.
    by apply results_get_None in Hnew.
  - apply Forall_app. split; [done |]. by apply Forall_singleton.
Qed.

Lemma perform_run_invariant_below :
  ∀ bound n task m m',
    (n ≤ bound)%nat → task_collect_free task → run_invariant m →
    SymbolParser.perform MAX g tf n task m = Ret tt m' → run_invariant m'.
Proof.
  induction bound as [| bound IH]; intros n task m m' Hle Htask Hinv Hrun;
    (destruct n as [| n]; [done |]); [lia |].
  assert (Hn : (n ≤ bound)%nat) by lia.
  cbn [SymbolParser.perform] in Hrun.
  destruct task as [[p | f] s k | [| p key | mdata merror k | assertion k] s
                    | loc i k | [| k ks] s | [| p ps] s k]; cbn in Htask.
  - destruct (parsers g !! p) as [f |]; [| done].
    destruct (_ !! state_identity s) as [loc |].
    + eapply (IH n); [done | | | exact Hrun]; [done |].
      by apply run_invariant_subscribe, run_invariant_sym_flush.
    + change (Ret tt (pushed p f s k m) = Ret tt m') in Hrun. injection Hrun as <-.
      by apply run_invariant_pushed.
  - destruct (functions g !! f) as [[parser | | ps | q | q mdata merror | q assertion] |];
      [| | | | | | done].
    + destruct (transformer parser s tf (heap m)) as [out h' | |]; [| done | done].
      eapply (IH n); [done | | | exact Hrun]; done.
    + eapply (IH n); [done | | | exact Hrun]; done.
    + destruct (isError s); (eapply (IH n); [done | | | exact Hrun]; done).
    + eapply (IH n); [done | | | exact Hrun]; done.
    + eapply (IH n); [done | | | exact Hrun]; done.
    + destruct (isError s); (eapply (IH n); [done | | | exact Hrun]; done).
  - done.
  - destruct (SymbolParser.symMemo p m !! key) as [loc |]; [| done].
    cbn [mbind option_bind] in Hrun.
    destruct (entries m !! loc) as [e |] eqn:Hentry; [| done].
    cbn [mbind option_bind] in Hrun.
    destruct (SymbolParser.breadth_exceeded MAX e); [done |].
    destruct (SymbolParser.results_get e (state_identity s)) eqn:Hget;
      [by injection Hrun as <- |].
    destruct loc as [| loc].
    + assert (Hsubs : ∃ ks, continuations e = KCollect :: ks ∧ Forall collect_free ks).
      { destruct Hinv as [Hentries _]. destruct (entries m) as [| e0 rest]; [done |].
        injection Hentry as ->. by destruct Hentries as [[Hsubs _] _]. }
      destruct Hsubs as (ks & Hconts & Hks). rewrite Hconts in Hrun.
      destruct n as [| n]; [done |]. cbn [SymbolParser.perform] in Hrun.
      destruct n as [| n]; [done |].
      change (SymbolParser.perform MAX g tf (S n) (ForEachContinuation ks s)
                (SymbolParser.collect s (SymbolParser.store_result 0 s m)) = Ret tt m')
        in Hrun.
      eapply (IH (S n)); [lia | | | exact Hrun]; [done |].
      by apply (run_invariant_store_seed s e).
    + eapply (IH n); [done | | | exact Hrun].
      * cbn. by eapply entry_collect_free.
      * by apply run_invariant_store_later.
  - destruct (if isError s then _ else _) as [f | mapped]; [done |].
    eapply (IH n); [done | | | exact Hrun]; done.
  - destruct (isError s).
    + eapply (IH n); [done | | | exact Hrun]; done.
    + destruct (assertion s) as [err |].
      * destruct (updateParseError s err) as [f | failed]; [done |].
        eapply (IH n); [done | | | exact Hrun]; done.
      * eapply (IH n); [done | | | exact Hrun]; done.
  - destruct (entries m !! loc ≫= _) as [[key r] |]; [| by injection Hrun as <-].
    destruct (SymbolParser.perform _ _ _ _ _ _) as [[] m1 | |] eqn:Hfirst; [| done | done].
    eapply (IH n); [done | | | exact Hrun]; [done |].
    eapply (IH n); [done | | | exact Hfirst]; done.
  - by injection Hrun as <-.
  - destruct (SymbolParser.perform _ _ _ _ _ _) as [[] m1 | |] eqn:Hfirst; [| done | done].
    apply Forall_cons in Htask as [Hk Hks].
    eapply (IH n); [done | | | exact Hrun]; [done |].
    eapply (IH n); [done | | | exact Hfirst]; done.
  - by injection Hrun as <-.
  - destruct (SymbolParser.perform _ _ _ _ _ _) as [[] m1 | |] eqn:Hfirst; [| done | done].
    eapply (IH n); [done | | | exact Hrun]; [done |].
    eapply (IH n); [done | | | exact Hfirst]; done.
Qed.

Lemma pop_loop_run_invariant :
  ∀ n rc m m', run_invariant m →
    SymbolParser.pop_loop MAX g tf n rc m = Ret tt m' → run_invariant m'.
Proof.
  induction n as [| n IH]; intros rc m m' Hinv Hrun; [done |].
  rewrite pop_loop_S in Hrun.
  destruct (parseStack m) as [| [[t nextState] continuation] rest] eqn:Hstack;
    [by injection Hrun as <- |].
  destruct (length (collected m) <=? rc)%nat; [| by injection Hrun as <-].
  destruct (SymbolParser.perform _ _ _ _ _ _) as [[] m1 | |] eqn:Hitem; [| done | done].
  eapply IH; [| exact Hrun].
  destruct Hinv as [Hentries Hitems]. rewrite Hstack in Hitems.
  apply Forall_cons in Hitems as [Hk Hrest].
  eapply (perform_run_invariant_below n n); [done | | | exact Hitem]; [done |].
  split; done.
Qed.

Lemma generate_loop_run_invariant :
  ∀ n rc yielded m ys m', run_invariant m →
    SymbolParser.generate_loop MAX g tf n rc yielded m = Ret ys m' → run_invariant m'.
Proof.
  induction n as [| n IH]; intros rc yielded m ys m' Hinv Hrun; [done |].
  rewrite generate_loop_S in Hrun.
  destruct (parseStack m) as [| item rest] eqn:Hstack; [by injection Hrun as <- <- |].
  destruct (SymbolParser.pop_loop _ _ _ _ _ _) as [[] m1 | |] eqn:Hpops; [| done | done].
  eapply IH; [| exact Hrun]. by eapply pop_loop_run_invariant.
Qed.

Lemma run_invariant_seeded (root f : nat) s (h : Heap D E) :
  run_invariant (pushed root f s KCollect (SymbolParser.empty_machine h)).
Proof.
  unfold pushed, SymbolParser.sym_flush.
  destruct (decide _); (split; [| by repeat constructor]); cbn.
  all: split; [| done]; split; [by exists [] |].
  all: split; [done |]; split; [apply NoDup_nil_2 | done].
Qed.

Lemma NoDup_identities (e0 : Entry D E) (coll : list (ParseState D E)) :
  seed_entry e0 coll → NoDup (state_identity <$> coll).
Proof.
  intros (_ & -> & Hkeys & Hids).
  replace (state_identity <$> (results e0).*2) with (results e0).*1; [done |].
  induction Hids as [| [key r] rest Hid Hrest IH]; [done |].
  cbn in *. rewrite Hid. f_equal. apply IH. by apply NoDup_cons in Hkeys as [_ ?].
Qed.

(** The generator of a symbol parser started on a fresh machine never
    yields two states with the same identity: whatever the grammar, an
    answer reached along several derivations is handed to the caller
    once. *)
Theorem generate_yields_each_identity_once (root : nat) (t : string)
    (d : Semantics D) (i : option Z) (n : nat) (h : Heap D E)
    (ys : list (ParseState D E)) (m' : Machine D E) :
  SymbolParser.generate MAX g tf root t d i n (SymbolParser.empty_machine h) = Ret ys m' →
  NoDup (state_identity <$> ys).
Proof.
  intros Hgen. unfold SymbolParser.generate in Hgen.
  destruct (new_ParseResult t (default 0 i) [] d) as [f | s0]; [done |].
  destruct (generate_loop_drains MAX g tf _ _ _ _ ys m' Hgen eq_refl eq_refl) as [-> _].
  cbn [SymbolParser.empty_machine heap entries symTargets symMemos] in Hgen.
  destruct n as [| n]; [done |]. rewrite generate_loop_S in Hgen. cbn [parseStack] in Hgen.
  destruct n as [| n]; [done |]. rewrite pop_loop_S in Hgen.
  cbn [parseStack collected length Nat.leb] in Hgen.
  change (SymbolParser.with_stack [] (mkMachine h [] ∅ ∅ [(Wrapped root, s0, KCollect)] []))
    with (SymbolParser.empty_machine h) in Hgen.
  destruct n as [| n]; [done |].
  destruct (parsers g !! root) as [f |] eqn:Hroot;
    [| by cbn [SymbolParser.perform] in Hgen; rewrite Hroot in Hgen].
  rewrite (perform_wrapped_miss MAX g tf n root f) in Hgen
    by (done || by rewrite symMemo_flush_empty).
  destruct (SymbolParser.pop_loop _ _ _ _ _ _) as [[] m1 | |] eqn:Hpops; [| done | done].
  apply pop_loop_run_invariant in Hpops; [| apply run_invariant_seeded].
  apply generate_loop_run_invariant in Hgen; [| done].
  destruct Hgen as [Hentries _].
  destruct (entries m') as [| e0 rest]; [done |]. destruct Hentries as [Hseed _].
  by eapply NoDup_identities.
Qed.

End DistinctFacts.

(** [shared_function] on ["a"]: the one state reaches the root along two
    alternatives and is yielded once. *)
Lemma generate_yields_each_identity_once_witness :
  NoDup (state_identity <$> [Examples.at_start "a"]).
Proof.
  eapply (generate_yields_each_identity_once None Examples.shared_function 0 0 "a"
            NoSemantics None 50 empty_heap).
  vm_compute. reflexivity.
Defined.
(** ** One step of the symbol machine on an explicit machine *)

Section StepFacts.
Context {D E : Type} `{!Identifiable D, !Identifiable E}.
Variable MAX : option nat.
Variable g : Grammar D E.
Variable tf : nat.
Implicit Types (s r : ParseState D E) (k : Continuation D E) (h : Heap D E)
  (es : list (Entry D E)).

Lemma alter_at_end {A} (f : A → A) (l : list A) (x : A) :
  alter f (length l) (l ++ [x])%list = (l ++ [f x])%list.
Proof. induction l as [| y l IH]; [done |]. cbn. by rewrite <- IH. Qed.

Lemma perform_wrapped_fresh (n p f : nat) s k h es tg mm st co :
  parsers g !! p = Some f → mm !! p = None →
  SymbolParser.perform MAX g tf (S n) (CallTransformer (Wrapped p) s k)
    (mkMachine h es tg mm st co)
  = Ret tt (mkMachine h (es ++ [mkEntry [] [k]])%list (flushed_targets p s tg)
              (<[p := {[state_identity s := length es]}]> mm)
              ((RawFn f, s, KPublish p (state_identity s)) :: st) co).
Proof.
  intros Hp Hfresh. cbn [SymbolParser.perform]. rewrite Hp.
  unfold SymbolParser.sym_flush, SymbolParser.symTarget, flushed_targets.
  cbn [symTargets].
  destruct (decide (target s = default "" (tg !! p))) as [Heq | Hne].
  - unfold SymbolParser.symMemo at 1. cbn [symMemos]. rewrite Hfresh.
    cbn [default from_option]. rewrite lookup_empty.
    unfold SymbolParser.new_entry, SymbolParser.subscribe, SymbolParser.with_entries,
      SymbolParser.with_stack, SymbolParser.js_truthy_array, SymbolParser.symMemo.
    cbn [heap entries symTargets symMemos parseStack collected].
    rewrite Hfresh. cbn [default from_option]. rewrite alter_at_end. cbn.
    by rewrite insert_empty.
  - unfold SymbolParser.symMemo at 1.
    cbn [heap entries symTargets symMemos parseStack collected].
    rewrite lookup_insert_eq. cbn [default from_option id]. rewrite lookup_empty.
    unfold SymbolParser.new_entry, SymbolParser.subscribe, SymbolParser.with_entries,
      SymbolParser.with_stack, SymbolParser.js_truthy_array, SymbolParser.symMemo.
    cbn [heap entries symTargets symMemos parseStack collected].
    rewrite lookup_insert_eq. cbn [default from_option id]. rewrite alter_at_end. cbn.
    by rewrite insert_insert_eq, insert_empty.
Qed.

Lemma perform_publish_new (n p loc : nat) (key : string) r ks h es tg mm st co
    (table : gmap string nat) :
  mm !! p = Some table → table !! key = Some loc →
  es !! loc = Some (mkEntry [] ks) →
  SymbolParser.perform MAX g tf (S n) (CallContinuation (KPublish p key) r)
    (mkMachine h es tg mm st co)
  = SymbolParser.perform MAX g tf n (ForEachContinuation ks r)
      (mkMachine h (alter (fun e => mkEntry (results e ++ [(state_identity r, r)])%list
                                      (continuations e)) loc es) tg mm st co).
Proof.
  intros Hp Hkey Hentry.
  rewrite (perform_publish_first MAX g tf n p loc key r ks); [done | | done].
  unfold SymbolParser.symMemo. cbn [symMemos]. by rewrite Hp.
Qed.

Lemma perform_lazy (n f q : nat) s k (m : Machine D E) :
  functions g !! f = Some (CodeLazy q) →
  SymbolParser.perform MAX g tf (S n) (CallTransformer (RawFn f) s k) m
  = SymbolParser.perform MAX g tf n (CallTransformer (Wrapped q) s k) m.
Proof. intros Hf. cbn [SymbolParser.perform]. by rewrite Hf. Qed.

Lemma perform_map (n f q : nat) mdata merror s k (m : Machine D E) :
  functions g !! f = Some (CodeMap q mdata merror) →
  SymbolParser.perform MAX g tf (S n) (CallTransformer (RawFn f) s k) m
  = SymbolParser.perform MAX g tf n
      (CallTransformer (Wrapped q) s (KMap mdata merror k)) m.
Proof. intros Hf. cbn [SymbolParser.perform]. by rewrite Hf. Qed.

Lemma perform_empty (n f : nat) s k (m : Machine D E) :
  functions g !! f = Some CodeEmpty →
  SymbolParser.perform MAX g tf (S n) (CallTransformer (RawFn f) s k) m
  = SymbolParser.perform MAX g tf n (CallContinuation k s) m.
Proof. intros Hf. cbn [SymbolParser.perform]. by rewrite Hf. Qed.

Lemma perform_alternatives (n f : nat) (ps : list nat) s k (m : Machine D E) :
  functions g !! f = Some (CodeAlternatives ps) → isError s = false →
  SymbolParser.perform MAX g tf (S n) (CallTransformer (RawFn f) s k) m
  = SymbolParser.perform MAX g tf n (ForEachParser ps s k) m.
Proof. intros Hf Hs. cbn [SymbolParser.perform]. by rewrite Hf, Hs. Qed.

Lemma perform_each_parser (n p : nat) (ps : list nat) s k (m : Machine D E) :
  SymbolParser.perform MAX g tf (S n) (ForEachParser (p :: ps) s k) m
  = match SymbolParser.perform MAX g tf n (CallTransformer (Wrapped p) s k) m with
    | Ret _ m' => SymbolParser.perform MAX g tf n (ForEachParser ps s k) m'
    | other => other
    end.
Proof.
  cbn [SymbolParser.perform]. by destruct (SymbolParser.perform _ _ _ _ _ _).
Qed.

Lemma perform_no_parser (n : nat) s k (m : Machine D E) :
  SymbolParser.perform MAX g tf (S n) (ForEachParser [] s k) m = Ret tt m.
Proof. reflexivity. Qed.

Lemma perform_each_continuation (n : nat) k (ks : list (Continuation D E)) s
    (m : Machine D E) :
  SymbolParser.perform MAX g tf (S n) (ForEachContinuation (k :: ks) s) m
  = match SymbolParser.perform MAX g tf n (CallContinuation k s) m with
    | Ret _ m' => SymbolParser.perform MAX g tf n (ForEachContinuation ks s) m'
    | other => other
    end.
Proof.
  cbn [SymbolParser.perform]. by destruct (SymbolParser.perform _ _ _ _ _ _).
Qed.

Lemma perform_no_continuation (n : nat) s (m : Machine D E) :
  SymbolParser.perform MAX g tf (S n) (ForEachContinuation [] s) m = Ret tt m.
Proof. reflexivity. Qed.

Lemma perform_collect (n : nat) s (m : Machine D E) :
  SymbolParser.perform MAX g tf (S n) (CallContinuation KCollect s) m
  = Ret tt (SymbolParser.collect s m).
Proof. reflexivity. Qed.

Lemma perform_mapped (n : nat) mdata merror k s (m : Machine D E) :
  SymbolParser.perform MAX g tf (S n) (CallContinuation (KMap mdata merror k) s) m
  = match (if isError s then updateParseError s (merror s)
           else updateParseResult s (index s) (mdata s) None) with
    | inl f => Throw f
    | inr mapped => SymbolParser.perform MAX g tf n (CallContinuation k mapped) m
    end.
Proof. reflexivity. Qed.

Lemma perform_publish_unbounded (n p loc : nat) (key : string) r e h es tg mm st co
    (table : gmap string nat) :
  mm !! p = Some table → table !! key = Some loc → es !! loc = Some e →
  SymbolParser.perform None g tf (S n) (CallContinuation (KPublish p key) r)
    (mkMachine h es tg mm st co)
  = match SymbolParser.results_get e (state_identity r) with
    | Some _ => Ret tt (mkMachine h es tg mm st co)
    | None =>
        SymbolParser.perform None g tf n (ForEachContinuation (continuations e) r)
          (SymbolParser.store_result loc r (mkMachine h es tg mm st co))
    end.
Proof.
  intros Hp Hkey Hentry. cbn [SymbolParser.perform].
  unfold SymbolParser.symMemo. cbn [symMemos entries]. rewrite Hp.
  cbn [default from_option id]. rewrite Hkey. cbn [mbind option_bind].
  rewrite Hentry. cbn [mbind option_bind]. reflexivity.
Qed.

End StepFacts.

(** ** [lazy], [map] and [alternatives] over a promoted token parser *)

Section PromotedFacts.
Context {D E : Type} `{!Identifiable D, !Identifiable E}.

Ltac machine_simpl :=
  unfold SymbolParser.with_stack, SymbolParser.with_heap, SymbolParser.with_entries,
    SymbolParser.store_result, SymbolParser.collect;
  cbn [heap entries symTargets symMemos parseStack collected length Nat.leb app
       alter list_alter results continuations Nat.max drop].

Lemma lazy_generate (p : TokenParser D E) (MAX : option nat) (s0 : ParseState D E)
    (tf n : nat) (h : Heap D E) :
  observe (SymbolParser.generate_loop MAX (lazy_toSymbol p) tf (12 + n) 0 []
             (mkMachine h [] ∅ ∅ [(Wrapped 0, s0, KCollect)] []))
  = observe ((let* out := transformer p s0 in ret [out]) tf h).
Proof.
  cbn [Nat.add]. rewrite generate_loop_S. cbn [parseStack].
  rewrite pop_loop_S. machine_simpl.
  rewrite (perform_wrapped_fresh MAX _ tf _ 0 0) by done.
  rewrite pop_loop_S. machine_simpl.
  rewrite (perform_lazy MAX _ tf _ 0 1) by done.
  rewrite (perform_wrapped_fresh MAX _ tf _ 1 1) by done.
  rewrite pop_loop_S. machine_simpl.
  rewrite (perform_toSymbol MAX _ tf _ 1 p) by done. machine_simpl.
  unfold bind. destruct (transformer p s0 tf h) as [out h' | f |]; [| done | done].
  machine_simpl.
  rewrite (perform_publish_new MAX _ tf _ 1 1 _ out [KPublish 0 (state_identity s0)]
             _ _ _ _ _ _ {[state_identity s0 := 1%nat]});
    [| done | by rewrite lookup_singleton_eq | done].
  machine_simpl. rewrite perform_each_continuation.
  rewrite (perform_publish_new MAX _ tf _ 0 0 _ out [KCollect]
             _ _ _ _ _ _ {[state_identity s0 := 0%nat]});
    [| done | by rewrite lookup_singleton_eq | done].
  machine_simpl. rewrite perform_each_continuation, perform_collect.
  rewrite perform_no_continuation. machine_simpl. rewrite perform_no_continuation.
  rewrite pop_loop_S. machine_simpl.
  rewrite generate_loop_S. machine_simpl. reflexivity.
Qed.

Lemma map_toSymbol_generate (p : TokenParser D E) (MAX : option nat)
    (mdata : ParseState D E → Semantics D) (merror : ParseState D E → Semantics E)
    (s0 : ParseState D E) (tf n : nat) (h : Heap D E) :
  observe (SymbolParser.generate_loop MAX (map_toSymbol p mdata merror) tf (12 + n) 0 []
             (mkMachine h [] ∅ ∅ [(Wrapped 0, s0, KCollect)] []))
  = observe ((let* out := map_raw p mdata merror s0 in ret [out]) tf h).
Proof.
  cbn [Nat.add]. rewrite generate_loop_S. cbn [parseStack].
  rewrite pop_loop_S. machine_simpl.
  rewrite (perform_wrapped_fresh MAX _ tf _ 0 0) by done.
  rewrite pop_loop_S. machine_simpl.
  rewrite (perform_map MAX _ tf _ 0 1 mdata merror) by done.
  rewrite (perform_wrapped_fresh MAX _ tf _ 1 1) by done.
  rewrite pop_loop_S. machine_simpl.
  rewrite (perform_toSymbol MAX _ tf _ 1 p) by done. machine_simpl.
  unfold map_raw, bind.
  destruct (transformer p s0 tf h) as [out h' | f |]; [| done | done].
  machine_simpl.
  rewrite (perform_publish_new MAX _ tf _ 1 1 _ out
             [KMap mdata merror (KPublish 0 (state_identity s0))]
             _ _ _ _ _ _ {[state_identity s0 := 1%nat]});
    [| done | by rewrite lookup_singleton_eq | done].
  machine_simpl. rewrite perform_each_continuation, perform_mapped.
  destruct (isError out).
  - destruct (updateParseError out (merror out)) as [f | mapped]; [done |].
    rewrite (perform_publish_new MAX _ tf _ 0 0 _ mapped [KCollect]
               _ _ _ _ _ _ {[state_identity s0 := 0%nat]});
      [| done | by rewrite lookup_singleton_eq | done].
    machine_simpl. rewrite perform_each_continuation, perform_collect.
    rewrite perform_no_continuation. machine_simpl. rewrite perform_no_continuation.
    rewrite pop_loop_S. machine_simpl.
    rewrite generate_loop_S. machine_simpl. reflexivity.
  - destruct (updateParseResult out (index out) (mdata out) None) as [f | mapped]; [done |].
    rewrite (perform_publish_new MAX _ tf _ 0 0 _ mapped [KCollect]
               _ _ _ _ _ _ {[state_identity s0 := 0%nat]});
      [| done | by rewrite lookup_singleton_eq | done].
    machine_simpl. rewrite perform_each_continuation, perform_collect.
    rewrite perform_no_continuation. machine_simpl. rewrite perform_no_continuation.
    rewrite pop_loop_S. machine_simpl.
    rewrite generate_loop_S. machine_simpl. reflexivity.
Qed.

Lemma toSymbol_or_empty_generate (p : TokenParser D E) (s0 : ParseState D E)
    (tf n : nat) (h : Heap D E) :
  isError s0 = false →
  observe (SymbolParser.generate_loop None (toSymbol_or_empty p) tf (20 + n) 0 []
             (mkMachine h [] ∅ ∅ [(Wrapped 0, s0, KCollect)] []))
  = observe ((let* out := transformer p s0 in
              ret (if decide (state_identity out = state_identity s0)
                   then [s0] else [s0; out])) tf h).
Proof.
  intros Hs0.
  cbn [Nat.add]. rewrite generate_loop_S. cbn [parseStack].
  rewrite pop_loop_S. machine_simpl.
  rewrite (perform_wrapped_fresh None _ tf _ 0 0) by done.
  rewrite pop_loop_S. machine_simpl.
  rewrite (perform_alternatives None _ tf _ 0 [1; 2]%nat) by done.
  rewrite perform_each_parser.
  rewrite (perform_wrapped_fresh None _ tf _ 1 1) by done.
  rewrite perform_each_parser.
  rewrite (perform_wrapped_fresh None _ tf _ 2 2) by done.
  rewrite perform_no_parser. machine_simpl.
  rewrite pop_loop_S. machine_simpl.
  rewrite (perform_empty None _ tf _ 2) by done.
  rewrite (perform_publish_new None _ tf _ 2 2 _ s0 [KPublish 0 (state_identity s0)]
             _ _ _ _ _ _ {[state_identity s0 := 2%nat]});
    [| done | by rewrite lookup_singleton_eq | done].
  machine_simpl. rewrite perform_each_continuation.
  rewrite (perform_publish_new None _ tf _ 0 0 _ s0 [KCollect]
             _ _ _ _ _ _ {[state_identity s0 := 0%nat]});
    [| done | by rewrite lookup_singleton_eq | done].
  machine_simpl. rewrite perform_each_continuation, perform_collect.
  rewrite perform_no_continuation. machine_simpl. rewrite perform_no_continuation.
  rewrite pop_loop_S. machine_simpl.
  rewrite generate_loop_S. machine_simpl.
  rewrite pop_loop_S. machine_simpl.
  rewrite (perform_toSymbol None _ tf _ 1 p) by done. machine_simpl.
  unfold bind. destruct (transformer p s0 tf h) as [out h' | f |]; [| done | done].
  machine_simpl.
  rewrite (perform_publish_new None _ tf _ 1 1 _ out [KPublish 0 (state_identity s0)]
             _ _ _ _ _ _ {[state_identity s0 := 1%nat]});
    [| done | by rewrite lookup_singleton_eq | done].
  machine_simpl. rewrite perform_each_continuation.
  rewrite (perform_publish_unbounded _ tf _ 0 0 _ out
             (mkEntry [(state_identity s0, s0)] [KCollect])
             _ _ _ _ _ _ {[state_identity s0 := 0%nat]});
    [| done | by rewrite lookup_singleton_eq | done].
  unfold SymbolParser.results_get. cbn [results list_find fst].
  destruct (decide (state_identity out = state_identity s0)) as [Hsame | Hother].
  - rewrite decide_True by done. cbn [fmap option_fmap option_map].
    rewrite perform_no_continuation.
    rewrite pop_loop_S. machine_simpl.
    rewrite generate_loop_S. machine_simpl. reflexivity.
  - rewrite decide_False by done. cbn [fmap option_fmap option_map list_find].
    machine_simpl. rewrite perform_each_continuation, perform_collect.
    rewrite perform_no_continuation. machine_simpl. rewrite perform_no_continuation.
    rewrite pop_loop_S. machine_simpl.
    rewrite generate_loop_S. machine_simpl. reflexivity.
Qed.


(** [SymbolParser.lazy(() => SymbolParser.toSymbol(p)).run] returns what
    [p.run] returns, throws the fault it throws, and has no answer when
    it has none: deferring the construction of a parser does not change
    its answers. *)
Theorem lazy_run_agrees_with_token_run (p : TokenParser D E) (MAX : option nat)
    (t : string) (d : Semantics D) (i : option Z) (tf n : nat) (h : Heap D E) :
  observe (SymbolParser.run MAX (lazy_toSymbol p) tf 0 t d i (12 + n)
             (SymbolParser.empty_machine h))
  = observe (run p t d i tf h).
Proof.
  unfold SymbolParser.run, SymbolParser.generate, run, SymbolParser.empty_machine.
  unfold bind at 1. cbn [heap entries symTargets symMemos].
  destruct (new_ParseResult t (default 0 i) [] d) as [f | s0]; [done |].
  cbn [lift ret].
  pose proof (lazy_generate p MAX s0 tf n h) as Hgen.
  unfold bind, ret in *.
  destruct (transformer p s0 tf h) as [out h' | f |];
    destruct (SymbolParser.generate_loop _ _ _ _ _ _ _) as [collected m' | f' |];
    cbn [observe] in Hgen; try discriminate; [| done | done].
  injection Hgen as ->.
  by rewrite select_results_farthest, farthest_progress_single.
Qed.

(** [map] commutes with the promotion of a token parser:
    [map(toSymbol(p), mdata, merror).run] returns the one state the
    function of the token parser [map(p, mdata, merror)] computes from
    the start state, and throws the fault it throws. *)
Theorem symbol_map_agrees_with_token_map (p : TokenParser D E) (MAX : option nat)
    (mdata : ParseState D E → Semantics D) (merror : ParseState D E → Semantics E)
    (t : string) (d : Semantics D) (i : option Z) (tf n : nat) (h : Heap D E) :
  observe (SymbolParser.run MAX (map_toSymbol p mdata merror) tf 0 t d i (12 + n)
             (SymbolParser.empty_machine h))
  = observe ((let* s0 := lift (new_ParseResult t (default 0 i) [] d) in
              let* out := map_raw p mdata merror s0 in
              ret [out]) tf h).
Proof.
  unfold SymbolParser.run, SymbolParser.generate, SymbolParser.empty_machine.
  unfold bind at 1. cbn [heap entries symTargets symMemos].
  destruct (new_ParseResult t (default 0 i) [] d) as [f | s0]; [done |].
  cbn [lift ret].
  pose proof (map_toSymbol_generate p MAX mdata merror s0 tf n h) as Hgen.
  unfold bind, ret in *.
  destruct (map_raw p mdata merror s0 tf h) as [out h' | f |];
    destruct (SymbolParser.generate_loop _ _ _ _ _ _ _) as [collected m' | f' |];
    cbn [observe] in Hgen; try discriminate; [| done | done].
  injection Hgen as ->.
  by rewrite select_results_farthest, farthest_progress_single.
Qed.

(** The generator of [alternatives([toSymbol(p), empty])], with the
    breadth bound at [Infinity], yields the start state first (the empty
    alternative is served before [p]) and then the answer of [p], unless
    that answer has the identity of the start state: then it is dropped
    as a duplicate, also when it is an error. *)
Theorem empty_alternative_is_yielded_first (p : TokenParser D E)
    (t : string) (d : Semantics D) (i : option Z) (tf n : nat) (h : Heap D E) :
  observe (SymbolParser.generate None (toSymbol_or_empty p) tf 0 t d i (20 + n)
             (SymbolParser.empty_machine h))
  = observe ((let* s0 := lift (new_ParseResult t (default 0 i) [] d) in
              let* out := transformer p s0 in
              ret (if decide (state_identity out = state_identity s0)
                   then [s0] else [s0; out])) tf h).
Proof.
  unfold SymbolParser.generate, SymbolParser.empty_machine.
  unfold bind at 1. cbn [heap entries symTargets symMemos].
  destruct (new_ParseResult t (default 0 i) [] d) as [f | s0] eqn:Hs0; [done |].
  cbn [lift ret].
  apply new_ParseResult_inr in Hs0 as [-> _].
  by apply toSymbol_or_empty_generate.
Qed.

End PromotedFacts.

(** ** Token parsers that cannot raise the breadth fault *)

Section BreadthFreeTokens.
Context {D E : Type} `{!Identifiable D, !Identifiable E}.

Lemma str_never_raises_breadth (t : string) (EOFError matchError : ParseErrorProduction E)
    (l : nat) (s : ParseState D E) (n : nat) (h : Heap D E) :
  transformer (mkTokenParser l (str_raw t EOFError matchError)) s n h ≠ Throw breadth_fault.
Proof.
  unfold transformer. cbn [self raw].
  destruct (_ !! state_identity s); [done |].
  unfold str_raw.
  destruct (isError s); [done |].
  destruct (js_length (target s) <=? index s).
  - destruct (updateParseError _ _) as [f |] eqn:Hupdate; [| done].
    cbn. intros [= ->]. by eapply updateParseError_fault.
  - destruct (negb _).
    + destruct (updateParseError _ _) as [f |] eqn:Hupdate; [| done].
      cbn. intros [= ->]. by eapply updateParseError_fault.
    + destruct (updateParseResult _ _ _ _) as [f |] eqn:Hupdate; [| done].
      cbn. intros [= ->]. by eapply updateParseResult_fault.
Qed.

End BreadthFreeTokens.

(** [alternatives([toSymbol(a), empty])] with the bound at [Infinity]. *)
Lemma run_unbounded_witness :
  SymbolParser.run None Examples.optional_a 5 0 "a" NoSemantics None 50
    (SymbolParser.empty_machine Examples.heap3) ≠ Throw breadth_fault.
Proof.
  apply (run_unbounded Examples.optional_a 5).
  intros f parser s h Hf.
  destruct f as [| [| [| f]]]; try discriminate Hf.
  injection Hf as <-. apply str_never_raises_breadth.
Defined.

(** ** [chain]: sequencing and the data handed to the action *)

Section ChainSequence.
Context {D E : Type} `{!Identifiable D, !Identifiable E}.
Implicit Types (p c : TokenParser D E) (s : ParseState D E) (h : Heap D E).

Lemma sequence_snoc (ps : list (TokenParser D E)) p s (n : nat) h :
  sequence (ps ++ [p]) s n h
  = (let* out := sequence ps s in transformer p out) n h.
Proof.
  revert s h. induction ps as [| q ps IH]; intros s h; cbn [sequence app].
  - unfold bind, ret. by destruct (transformer p s n h).
  - unfold bind in *. destruct (transformer q s n h) as [out h' | |]; [| done | done].
    apply IH.
Qed.

Lemma agree_below_flush (L l : nat) s h1 h2 :
  (L ≤ l)%nat → agree_below L h1 h2 → agree_below L (flush l s h1) h2.
Proof.
  intros Hl Hagree l' Hl'. eapply same_fields_trans; [| by apply Hagree].
  apply same_fields_flush. lia.
Qed.

Lemma final_stands_for (L top : nat) p :
  (L ≤ top)%nat → local_below L p → stands_for L top p [p].
Proof.
  intros Htop Hlocal s n h1 h2 Hagree Hh2 Hh1 _.
  specialize (Hlocal s n h1 h2 Hagree ltac:(lia) Hh2).
  cbn [sequence]. unfold bind, ret.
  destruct (transformer p s n h1) as [out1 h1' | f1 |],
           (transformer p s n h2) as [out2 h2' | f2 |]; try done.
  - by destruct Hlocal as [-> _].
  - by subst.
Qed.

Lemma step_stands_for (L top : nat) p c (rest : list (TokenParser D E)) :
  (L ≤ top)%nat → local_below L p → stands_for L top c rest →
  stands_for L (S top) (mkTokenParser (S top) (chain_step_raw L false p c)) (p :: rest).
Proof.
  intros Htop Hlocal Hc s n h1 h2 Hagree Hh2 Hh1 Hfresh.
  rewrite observe_transformer_miss
    by (apply fresh_miss; cbn [self]; apply Hfresh; lia).
  cbn [raw self sequence]. unfold chain_step_raw, bind. cbn [andb].
  set (h1a := flush (S top) s h1).
  assert (Hnext : next_loc h1a = next_loc h1) by apply next_loc_flush.
  specialize (Hlocal s n h1a h2 (agree_below_flush L (S top) s h1 h2 ltac:(lia) Hagree)
                ltac:(lia) Hh2).
  destruct (transformer p s n h1a) as [out1 h1b | f1 |],
           (transformer p s n h2) as [out2 h2b | f2 |]; try done; [| by subst].
  destruct Hlocal as (-> & Hagree' & Hmono1 & Hmono2 & Hkept).
  unfold ret at 1. apply Hc; [done | lia | lia |].
  intros l Hl. destruct (Hkept l ltac:(lia)) as [-> _].
  unfold h1a. rewrite map_at_flush_other by lia. apply Hfresh. lia.
Qed.

Lemma chain_link_stands_for (L : nat) (steps : list (TokenParser D E)) :
  Forall (local_below L) steps →
  ∀ (top : nat) c (rest : list (TokenParser D E)) (n : nat) h,
    (L ≤ top)%nat → stands_for L top c rest → next_loc h = S top →
    (∀ l, (L < l ≤ top)%nat → map_at l h = ∅) →
    ∃ first h',
      chain_link L false steps c n h = Ret first h' ∧
      stands_for L (top + length steps) first (rev steps ++ rest)%list ∧
      next_loc h' = S (top + length steps) ∧
      (∀ l, (L < l ≤ top + length steps)%nat → map_at l h' = ∅) ∧
      agree_below L h' h.
Proof.
  induction 1 as [| p steps Hp Hsteps IH]; intros top c rest n h Htop Hc Hnext Hfresh.
  - exists c, h. cbn [chain_link length rev app]. rewrite Nat.add_0_r.
    split; [done |]. split; [done |]. split; [done |]. split; [done |].
    intros l Hl. by split.
  - cbn [chain_link]. unfold bind at 1, new_TokenParser at 1. rewrite Hnext.
    destruct (IH (S top) (mkTokenParser (S top) (chain_step_raw L false p c)) (p :: rest)
                n (with_new_TokenParser h)) as (first & h' & Hlink & Hfirst & Hnext' & Hfresh' & Hagree).
    + lia.
    + by apply step_stands_for.
    + cbn. by rewrite Hnext.
    + intros l Hl. destruct (decide (l = S top)) as [-> | Hne].
      * rewrite <- Hnext. apply map_at_with_new_TokenParser.
      * destruct (same_fields_with_new_TokenParser l h) as [-> _]; [lia |].
        apply Hfresh. lia.
    + exists first, h'. split; [done |]. cbn [length rev].
      replace (top + S (length steps))%nat with (S top + length steps)%nat by lia.
      rewrite <- app_assoc. cbn [app].
      split; [done |]. split; [done |]. split; [done |].
      intros l Hl. eapply same_fields_trans; [by apply Hagree |].
      apply same_fields_with_new_TokenParser. lia.
Qed.

(** [chain(parsers)] without an action runs its parsers in sequence:
    called on a state, the function it wraps answers what the last
    parser answers on the answer of the one before, and so on back to
    the first parser on that state; an error of one parser is handed to
    the next like a result, and a fault of one is the fault of the
    chain.  The parsers are those that live below the objects the chain
    allocates. *)
Theorem chain_runs_its_parsers_in_sequence (parsers : list (TokenParser D E))
    s (n : nat) h :
  parsers ≠ [] → Forall (local_below (next_loc h)) parsers →
  observe (chain_raw parsers None s n h) = observe (sequence parsers s n h).
Proof.
  intros Hne Hlocal.
  destruct (exists_last Hne) as (front & final & ->).
  apply Forall_app in Hlocal as [Hfront Hfinal]. rewrite Forall_singleton in Hfinal.
  unfold chain_raw. unfold bind at 1, new_Map at 1.
  rewrite last_snoc, removelast_last.
  set (L := next_loc h) in *.
  destruct (chain_link_stands_for L (rev front) ltac:(by apply Forall_rev)
              L final [final] n (with_new_Map h))
    as (first & h' & Hlink & Hfirst & Hnext & Hfresh & Hagree).
  - done.
  - apply final_stands_for; [lia | done].
  - done.
  - intros l Hl. lia.
  - unfold bind at 1. rewrite Hlink. rewrite rev_involutive in Hfirst.
    apply Hfirst; [| done | lia | done].
    intros l Hl. eapply same_fields_trans; [by apply Hagree |].
    apply same_fields_with_new_Map. unfold L in Hl. lia.
Qed.

Lemma pure_raw_local_below (L : nat) p : pure_raw p → (self p < L)%nat → local_below L p.
Proof.
  intros [f Hf] Hself s n h1 h2 Hagree Hh1 Hh2.
  destruct (Hagree (self p) Hself) as [Hmap Htarget].
  unfold transformer.
  assert (Hflushed : map_at (self p) (flush (self p) s h1)
                     = map_at (self p) (flush (self p) s h2)).
  { unfold flush. rewrite Htarget. destruct (decide _); [done |].
    rewrite !map_at_set_map_at. by destruct (decide (self p = self p)). }
  assert (Hagree' : agree_below L (flush (self p) s h1) (flush (self p) s h2)).
  { intros l Hl. destruct (decide (l = self p)) as [-> | Hother].
    - split; [done |]. by rewrite !currentTarget_flush.
    - eapply same_fields_trans; [apply same_fields_flush; lia |].
      eapply same_fields_trans; [by apply Hagree |].
      destruct (same_fields_flush (self p) l s h2) as [? ?]; [lia |]. by split. }
  rewrite Hflushed.
  destruct (map_at (self p) (flush (self p) s h2) !! state_identity s).
  - repeat split; try done; try (by rewrite next_loc_flush).
    + by apply Hagree'.
    + by apply Hagree'.
    + apply same_fields_flush. lia.
    + apply same_fields_flush. lia.
  - rewrite !Hf. destruct (f s) as [e | nextState]; [done |]. cbn [lift ret].
    repeat split; try done; try (cbn; by rewrite next_loc_flush).
    + destruct (decide (l = self p)) as [-> | Hother].
      * rewrite !map_at_set_map_at. destruct (decide _); [| done]. by rewrite Hflushed.
      * destruct (same_fields_set_map_at (self p) l
                    (<[state_identity s := nextState]> (map_at (self p) (flush (self p) s h1)))
                    (flush (self p) s h1)) as [-> _]; [lia |].
        destruct (same_fields_set_map_at (self p) l
                    (<[state_identity s := nextState]> (map_at (self p) (flush (self p) s h2)))
                    (flush (self p) s h2)) as [-> _]; [lia |].
        by apply Hagree'.
    + rewrite !currentTarget_set_map_at. by apply Hagree'.
    + eapply same_fields_trans; [apply same_fields_set_map_at; lia |].
      apply same_fields_flush. lia.
    + eapply same_fields_trans; [apply same_fields_set_map_at; lia |].
      apply same_fields_flush. lia.
Qed.

End ChainSequence.

Section ChainAction.
Context {D E : Type} `{!Identifiable D, !Identifiable E}.
Implicit Types (p c : TokenParser D E) (s : ParseState D E) (h : Heap D E).
Variable action : list (Semantics D) → Semantics D.

Lemma default_last_cons (s out : ParseState D E) (outs : list (ParseState D E)) :
  default s (last (out :: outs)) = default out (last outs).
Proof.
  revert s out. induction outs as [| o outs IH]; intros s out; [done |].
  rewrite last_cons_cons. by rewrite (IH s o), (IH out o).
Qed.

Lemma action_stands_for (L len : nat) :
  stands_for_with_action L (S L) action len
    (mkTokenParser (S L) (chain_action_raw L len action)) [].
Proof.
  intros s n h1 h2 Hagree Hh2 Hh1 Hfresh.
  rewrite observe_transformer_miss
    by (apply fresh_miss; cbn [self]; apply Hfresh; lia).
  cbn [raw self trace ret recorded last default from_option id].
  unfold chain_action_raw, concluded.
  destruct (isError s); [done |].
  rewrite map_at_flush_other by lia.
  destruct (chain_data _ _ _ _) as [f | data]; [done |].
  by destruct (updateParseResult _ _ _ _).
Qed.

Lemma step_stands_for_with_action (L top len : nat) p c
    (rest : list (TokenParser D E)) :
  (L < top)%nat → local_below L p → stands_for_with_action L top action len c rest →
  stands_for_with_action L (S top) action len
    (mkTokenParser (S top) (chain_step_raw L true p c)) (p :: rest).
Proof.
  intros Htop Hlocal Hc s n h1 h2 Hagree Hh2 Hh1 Hfresh.
  rewrite observe_transformer_miss
    by (apply fresh_miss; cbn [self]; apply Hfresh; lia).
  cbn [raw self trace]. unfold chain_step_raw, bind. cbn [andb].
  set (h1a := flush (S top) s h1).
  assert (Hnext : next_loc h1a = next_loc h1) by apply next_loc_flush.
  assert (Hbackrefs : map_at L h1a = map_at L h1)
    by (unfold h1a; apply map_at_flush_other; lia).
  specialize (Hlocal s n h1a h2 (agree_below_flush L (S top) s h1 h2 ltac:(lia) Hagree)
                ltac:(lia) Hh2).
  destruct (transformer p s n h1a) as [out1 h1b | f1 |],
           (transformer p s n h2) as [out2 h2b | f2 |]; try done; [| by subst].
  destruct Hlocal as (-> & Hagree' & Hmono1 & Hmono2 & Hkept).
  assert (Hbackrefs' : map_at L h1b = map_at L h1).
  { destruct (Hkept L ltac:(lia)) as [-> _]. done. }
  assert (Hfresh' : ∀ l, (L < l ≤ top)%nat → map_at l h1b = ∅).
  { intros l Hl. destruct (Hkept l ltac:(lia)) as [-> _].
    unfold h1a. rewrite map_at_flush_other by lia. apply Hfresh. lia. }
  destruct (isError out2) eqn:Herr; cbn [negb].
  - unfold ret at 1.
    rewrite (Hc out2 n h1b h2b); [| exact Hagree' | lia | lia | exact Hfresh'].
    rewrite Hbackrefs'.
    destruct (trace rest out2 n h2b) as [outs h2c | |]; [| done | done].
    cbn [ret recorded]. rewrite Herr. by rewrite default_last_cons.
  - unfold map_set at 1.
    rewrite (Hc out2 n _ h2b).
    + rewrite map_at_set_map_at. destruct (decide (L = L)); [| done].
      rewrite Hbackrefs'.
      destruct (trace rest out2 n h2b) as [outs h2c | |]; [| done | done].
      cbn [ret recorded]. rewrite Herr. by rewrite default_last_cons.
    + intros l Hl. eapply same_fields_trans; [| by apply Hagree'].
      apply same_fields_set_map_at. lia.
    + lia.
    + cbn. lia.
    + intros l Hl. destruct (same_fields_set_map_at L l
        (<[state_identity out2 := s]> (map_at L h1b)) h1b) as [-> _]; [lia |].
      by apply Hfresh'.
Qed.

Lemma chain_link_stands_for_with_action (L len : nat) (steps : list (TokenParser D E)) :
  Forall (local_below L) steps →
  ∀ (top : nat) c (rest : list (TokenParser D E)) (n : nat) h,
    (L < top)%nat → stands_for_with_action L top action len c rest → next_loc h = S top →
    (∀ l, (L < l ≤ top)%nat → map_at l h = ∅) →
    ∃ first h',
      chain_link L true steps c n h = Ret first h' ∧
      stands_for_with_action L (top + length steps) action len first
        (rev steps ++ rest)%list ∧
      next_loc h' = S (top + length steps) ∧
      (∀ l, (L < l ≤ top + length steps)%nat → map_at l h' = ∅) ∧
      (∀ l, (l ≤ L)%nat → same_fields l h' h).
Proof.
  induction 1 as [| p steps Hp Hsteps IH]; intros top c rest n h Htop Hc Hnext Hfresh.
  - exists c, h. cbn [chain_link length rev app]. rewrite Nat.add_0_r.
    split; [done |]. split; [done |]. split; [done |]. split; [done |].
    intros l Hl. by split.
  - cbn [chain_link]. unfold bind at 1, new_TokenParser at 1. rewrite Hnext.
    destruct (IH (S top) (mkTokenParser (S top) (chain_step_raw L true p c)) (p :: rest)
                n (with_new_TokenParser h))
      as (first & h' & Hlink & Hfirst & Hnext' & Hfresh' & Hagree).
    + lia.
    + by apply step_stands_for_with_action.
    + cbn. by rewrite Hnext.
    + intros l Hl. destruct (decide (l = S top)) as [-> | Hne].
      * rewrite <- Hnext. apply map_at_with_new_TokenParser.
      * destruct (same_fields_with_new_TokenParser l h) as [-> _]; [lia |].
        apply Hfresh. lia.
    + exists first, h'. split; [done |]. cbn [length rev].
      replace (top + S (length steps))%nat with (S top + length steps)%nat by lia.
      rewrite <- app_assoc. cbn [app].
      split; [done |]. split; [done |]. split; [done |].
      intros l Hl. eapply same_fields_trans; [by apply Hagree |].
      apply same_fields_with_new_TokenParser. lia.
Qed.

(** What [chain(parsers, action)] computes, in terms of the answers of
    its parsers run in sequence and of the back-references written on
    the way. *)
Lemma chain_with_action_concludes (parsers : list (TokenParser D E)) s (n : nat) h :
  Forall (local_below (next_loc h)) parsers →
  observe (chain_raw parsers (Some action) s n h)
  = match trace parsers s n h with
    | Ret outs _ =>
        concluded action (length parsers) (recorded ∅ s outs) (default s (last outs))
    | Throw f => Throw f
    | Timeout => Timeout
    end.
Proof.
  intros Hlocal.
  unfold chain_raw. unfold bind at 1, new_Map at 1.
  unfold bind at 1, new_TokenParser at 1.
  set (L := next_loc h) in *.
  change (next_loc (with_new_Map h)) with (S L).
  destruct (chain_link_stands_for_with_action L (length parsers) (rev parsers)
              ltac:(by apply Forall_rev)
              (S L) (mkTokenParser (S L) (chain_action_raw L (length parsers) action)) []
              n (with_new_TokenParser (with_new_Map h)))
    as (first & h' & Hlink & Hfirst & Hnext & Hfresh & Hagree).
  - lia.
  - apply action_stands_for.
  - done.
  - intros l Hl. assert (l = S L) as -> by lia.
    change (S L) with (next_loc (with_new_Map h)). apply map_at_with_new_TokenParser.
  - unfold bind at 1. rewrite Hlink. rewrite rev_involutive, app_nil_r in Hfirst.
    rewrite (Hfirst s n h' h).
    + assert (Hempty : map_at L h' = ∅).
      { destruct (Hagree L (le_n _)) as [-> _].
        destruct (same_fields_with_new_TokenParser L (with_new_Map h)) as [-> _];
          [cbn; lia |].
        unfold map_at, with_new_Map. cbn. by rewrite lookup_insert_eq. }
      by rewrite Hempty.
    + intros l Hl. eapply same_fields_trans; [apply Hagree; lia |].
      eapply same_fields_trans; [apply same_fields_with_new_TokenParser; cbn; lia |].
      apply same_fields_with_new_Map. unfold L in Hl. lia.
    + done.
    + lia.
    + done.
Qed.

Lemma trace_length (parsers : list (TokenParser D E)) s (n : nat) h
    (outs : list (ParseState D E)) h' :
  trace parsers s n h = Ret outs h' → length outs = length parsers.
Proof.
  revert s h outs h'. induction parsers as [| p parsers IH]; intros s h outs h'; cbn [trace].
  - by intros [= <- _].
  - unfold bind. destruct (transformer p s n h) as [out h1 | |]; [| done | done].
    destruct (trace parsers out n h1) as [others h2 | |] eqn:Hrest; [| done | done].
    intros [= <- _]. cbn. f_equal. by eapply IH.
Qed.

Lemma recorded_other (backrefs : gmap string (ParseState D E)) s
    (outs : list (ParseState D E)) (key : string) :
  key ∉ state_identity <$> outs → recorded backrefs s outs !! key = backrefs !! key.
Proof.
  revert backrefs s. induction outs as [| out outs IH]; intros backrefs s Hkey; [done |].
  cbn [recorded]. rewrite fmap_cons in Hkey. apply not_elem_of_cons in Hkey as [Hne Hkey].
  rewrite IH by done. destruct (isError out); [done |]. by rewrite lookup_insert_ne.
Qed.

Lemma recorded_linked (outs : list (ParseState D E)) :
  Forall (fun out => isError out = false) outs → NoDup (state_identity <$> outs) →
  ∀ (backrefs : gmap string (ParseState D E)) s front a b back,
    outs = (front ++ a :: b :: back)%list →
    recorded backrefs s outs !! state_identity b = Some a.
Proof.
  intros Hok Hdistinct backrefs s front. revert backrefs s outs Hok Hdistinct.
  induction front as [| f front IH]; intros backrefs s outs Hok Hdistinct a b back ->.
  - cbn [app recorded fmap list_fmap] in *.
    apply Forall_cons in Hok as [Ha Hok]. apply Forall_cons in Hok as [Hb Hok].
    rewrite Ha, Hb.
    apply NoDup_cons in Hdistinct as [_ Hdistinct].
    apply NoDup_cons in Hdistinct as [Hfresh _].
    rewrite recorded_other by done. by rewrite lookup_insert_eq.
  - cbn [app recorded fmap list_fmap] in *. apply Forall_cons in Hok as [_ Hok].
    apply NoDup_cons in Hdistinct as [_ Hdistinct].
    by eapply IH.
Qed.

Lemma chain_data_S (backrefs : gmap string (ParseState D E)) (k : nat) s
    (acc : list (Semantics D)) :
  chain_data backrefs (S k) (Some s) acc
  = chain_data backrefs k (backrefs !! state_identity s) (data s :: acc).
Proof. reflexivity. Qed.

Lemma chain_data_walk (backrefs : gmap string (ParseState D E))
    (visited : list (ParseState D E)) :
  ∀ (current : ParseState D E) (acc : list (Semantics D)),
    (∀ front a b back, (visited ++ [current])%list = (front ++ a :: b :: back)%list →
                       backrefs !! state_identity b = Some a) →
    chain_data backrefs (S (length visited)) (Some current) acc
    = inr ((data <$> visited ++ [current]) ++ acc)%list.
Proof.
  induction visited as [| before visited IH] using rev_ind; intros current acc Hlinked.
  - done.
  - rewrite length_app. cbn [length]. rewrite Nat.add_1_r, chain_data_S.
    rewrite (Hlinked visited before current []) by (by rewrite <- app_assoc).
    rewrite IH.
    + rewrite !fmap_app. cbn [fmap list_fmap]. by rewrite <- !app_assoc.
    + intros front a b back Hsplit.
      apply (Hlinked front a b (back ++ [current])%list).
      rewrite Hsplit. by rewrite <- app_assoc.
Qed.

(** [chain(parsers, action)] hands [action] the data of the answers of
    its parsers, one for each parser and in their order, and puts what
    [action] returns on the last answer, keeping its target, index and
    tokens.  This holds when every parser succeeds and no two of the
    answers have the same identity: the answers are found again through
    back-references keyed by identity. *)
Theorem chain_action_receives_each_datum (parsers : list (TokenParser D E))
    s (n : nat) h (outs : list (ParseState D E)) h' (final : ParseState D E) :
  Forall (local_below (next_loc h)) parsers →
  trace parsers s n h = Ret outs h' →
  Forall (fun out => isError out = false) outs →
  NoDup (state_identity <$> outs) →
  last outs = Some final →
  observe (chain_raw parsers (Some action) s n h)
  = observe (lift (updateParseResult final (index final) (action (data <$> outs)) None) n h).
Proof.
  intros Hlocal Htrace Hok Hdistinct Hlast.
  rewrite chain_with_action_concludes, Htrace by done.
  rewrite Hlast. cbn [default from_option id]. unfold concluded.
  assert (Hfinal : isError final = false).
  { eapply Forall_forall in Hok; [exact Hok |]. by apply last_Some_elem_of. }
  rewrite Hfinal.
  apply last_Some in Hlast as [visited ->].
  rewrite <- (trace_length _ _ _ _ _ _ Htrace), length_app. cbn [length].
  rewrite Nat.add_1_r.
  rewrite chain_data_walk.
  - rewrite app_nil_r. by destruct (updateParseResult _ _ _ _).
  - intros front a b back Hsplit. by eapply recorded_linked.
Qed.

(** When the last of its parsers answers with an error, [chain(parsers,
    action)] answers with that error as it is, and [action] is not
    called. *)
Theorem chain_with_action_hands_on_the_last_error (parsers : list (TokenParser D E))
    s (n : nat) h (outs : list (ParseState D E)) h' (final : ParseState D E) :
  Forall (local_below (next_loc h)) parsers →
  trace parsers s n h = Ret outs h' →
  last outs = Some final → isError final = true →
  observe (chain_raw parsers (Some action) s n h) = Ret final tt.
Proof.
  intros Hlocal Htrace Hlast Hfinal.
  rewrite chain_with_action_concludes, Htrace by done.
  rewrite Hlast. cbn [default from_option id]. unfold concluded. by rewrite Hfinal.
Qed.

End ChainAction.

(** [chain([a, c])] on ["ac"]. *)
Lemma chain_runs_its_parsers_in_sequence_witness :
  observe (chain_raw [Examples.a; Examples.c] None (Examples.at_start "ac") 1%nat
             Examples.heap3)
  = observe (sequence [Examples.a; Examples.c] (Examples.at_start "ac") 1%nat Examples.heap3).
Proof.
  apply (chain_runs_its_parsers_in_sequence [Examples.a; Examples.c]
           (Examples.at_start "ac") 1 Examples.heap3).
  - discriminate.
  - repeat constructor; (apply pure_raw_local_below; [apply str_raw_pure | cbn; lia]).
Defined.

(** [chain([a, c], data => data[0])] on ["ac"]. *)
Lemma chain_action_receives_each_datum_witness :
  observe (chain_raw [Examples.a; Examples.c] (Some Examples.first_datum)
             (Examples.at_start "ac") 1%nat Examples.heap3)
  = observe (lift (updateParseResult
                     (ParseResult (E := StaticSemantics) "ac" 2 ["a"; "c"] NoSemantics) 2
                     (Examples.first_datum
                        (data <$> [ParseResult (E := StaticSemantics) "ac" 1 ["a"] NoSemantics;
                                   ParseResult "ac" 2 ["a"; "c"] NoSemantics]))
                     None) 1%nat Examples.heap3).
Proof.
  eapply (chain_action_receives_each_datum Examples.first_datum [Examples.a; Examples.c]
            (Examples.at_start "ac") 1 Examples.heap3
            [ParseResult "ac" 1 ["a"] NoSemantics; ParseResult "ac" 2 ["a"; "c"] NoSemantics]
            _ (ParseResult "ac" 2 ["a"; "c"] NoSemantics)).
  - repeat constructor; (apply pure_raw_local_below; [apply str_raw_pure | cbn; lia]).
  - vm_compute. reflexivity.
  - repeat constructor.
  - apply (bool_decide_unpack _). vm_compute. reflexivity.
  - reflexivity.
Defined.

(** [chain([a, c], data => data[0])] on ["ab"]: [c] fails after [a]. *)
Lemma chain_with_action_hands_on_the_last_error_witness :
  observe (chain_raw [Examples.a; Examples.c] (Some Examples.first_datum)
             (Examples.at_start "ab") 1%nat Examples.heap3)
  = Ret (ParseError "ab" 1 ["a"] (Examples.mismatch "ab" 1)) tt.
Proof.
  eapply (chain_with_action_hands_on_the_last_error Examples.first_datum
            [Examples.a; Examples.c] (Examples.at_start "ab") 1 Examples.heap3
            [ParseResult "ab" 1 ["a"] NoSemantics;
             ParseError "ab" 1 ["a"] (Examples.mismatch "ab" 1)]).
  - repeat constructor; (apply pure_raw_local_below; [apply str_raw_pure | cbn; lia]).
  - vm_compute. reflexivity.
  - reflexivity.
  - reflexivity.
Defined.

(** ** The start index of a run *)

Section StartIndexFacts.
Context {D E : Type} `{!Identifiable D, !Identifiable E}.

(** Both [run]s check the start index before any parser is called: an
    index beyond the end of the target throws the [RangeError] of the
    index check, and a negative one throws the [RangeError] of the
    check of the tokens against the index. *)
Theorem run_checks_the_start_index (p : TokenParser D E) (MAX : option nat)
    (g : Grammar D E) (tf root : nat) (t : string) (d : Semantics D) (i : Z)
    (n : nat) (h : Heap D E) (m : Machine D E) :
  ¬ (0 ≤ i ≤ js_length t) →
  run p t d (Some i) n h
    = Throw (if decide (js_length t < i) then index_fault else result_fault) ∧
  SymbolParser.run MAX g tf root t d (Some i) n m
    = Throw (if decide (js_length t < i) then index_fault else result_fault).
Proof.
  intros Hout.
  assert (Hnew : new_ParseResult (E := E) t i [] d
                 = inl (if decide (js_length t < i) then index_fault else result_fault)).
  { unfold new_ParseResult. destruct (decide (js_length t < i)) as [Hbeyond | Hwithin].
    - by replace (js_length t <? i) with true by (symmetry; by apply Z.ltb_lt).
    - replace (js_length t <? i) with false by (symmetry; apply Z.ltb_ge; lia).
      change (js_length (join [])) with 0.
      by replace (i <? 0) with true by (symmetry; apply Z.ltb_lt; lia). }
  split.
  - unfold run, bind. cbn [default from_option id]. by rewrite Hnew.
  - unfold SymbolParser.run, SymbolParser.generate. cbn [default from_option id].
    by rewrite Hnew.
Qed.

End StartIndexFacts.

(** [a.run("ab", data, 3)] and [toSymbol(a).run("ab", data, 3)]. *)
Lemma run_checks_the_start_index_witness :
  run Examples.a "ab" NoSemantics (Some 3) 1%nat Examples.heap3
    = Throw (if decide (js_length "ab" < 3) then index_fault else result_fault) ∧
  SymbolParser.run None (SymbolParser.toSymbol Examples.a) 1 0 "ab" NoSemantics (Some 3)
    1%nat (SymbolParser.empty_machine Examples.heap3)
    = Throw (if decide (js_length "ab" < 3) then index_fault else result_fault).
Proof.
  apply (run_checks_the_start_index Examples.a None (SymbolParser.toSymbol Examples.a)
           1 0 "ab" NoSemantics 3 1 Examples.heap3
           (SymbolParser.empty_machine Examples.heap3)).
  vm_compute. intros [_ Hle]. by apply Hle.
Defined.

(** ** [assert] and [optional] across the two layers *)

Section AcrossLayers.
Context {D E : Type} `{!Identifiable D, !Identifiable E}.

Ltac machine_steps :=
  unfold SymbolParser.with_stack, SymbolParser.with_heap, SymbolParser.with_entries,
    SymbolParser.store_result, SymbolParser.collect;
  cbn [heap entries symTargets symMemos parseStack collected length Nat.leb app
       alter list_alter results continuations Nat.max drop].

Ltac publish_and_collect MAX tf s0 r :=
  rewrite (perform_publish_new MAX _ tf _ 0 0 _ r [KCollect]
             _ _ _ _ _ _ {[state_identity s0 := 0%nat]});
    [| done | by rewrite lookup_singleton_eq | done];
  machine_steps; rewrite perform_each_continuation, perform_collect;
  rewrite perform_no_continuation; machine_steps; rewrite perform_no_continuation;
  rewrite pop_loop_S; machine_steps;
  rewrite generate_loop_S; machine_steps; reflexivity.

Lemma perform_assert (MAX : option nat) (g : Grammar D E) (tf n f q : nat)
    (assertion : ParseState D E → option (Semantics E)) (s : ParseState D E)
    (k : Continuation D E) (m : Machine D E) :
  functions g !! f = Some (CodeAssert q assertion) → isError s = false →
  SymbolParser.perform MAX g tf (S n) (CallTransformer (RawFn f) s k) m
  = SymbolParser.perform MAX g tf n
      (CallTransformer (Wrapped q) s (KAssert assertion k)) m.
Proof. intros Hf Hs. cbn [SymbolParser.perform]. by rewrite Hf, Hs. Qed.

Lemma perform_asserted (MAX : option nat) (g : Grammar D E) (tf n : nat)
    (assertion : ParseState D E → option (Semantics E)) (k : Continuation D E)
    (s : ParseState D E) (m : Machine D E) :
  SymbolParser.perform MAX g tf (S n) (CallContinuation (KAssert assertion k) s) m
  = if isError s then SymbolParser.perform MAX g tf n (CallContinuation k s) m
    else
      match assertion s with
      | Some e =>
          match updateParseError s e with
          | inl f => Throw f
          | inr failed => SymbolParser.perform MAX g tf n (CallContinuation k failed) m
          end
      | None => SymbolParser.perform MAX g tf n (CallContinuation k s) m
      end.
Proof. reflexivity. Qed.

Lemma assert_toSymbol_generate (p : TokenParser D E) (MAX : option nat)
    (assertion : ParseState D E → option (Semantics E))
    (s0 : ParseState D E) (tf n : nat) (h : Heap D E) :
  isError s0 = false →
  observe (SymbolParser.generate_loop MAX (assert_toSymbol p assertion) tf (12 + n) 0 []
             (mkMachine h [] ∅ ∅ [(Wrapped 0, s0, KCollect)] []))
  = observe ((let* out := assert_raw p assertion s0 in ret [out]) tf h).
Proof.
  intros Hs0.
  cbn [Nat.add]. rewrite generate_loop_S. cbn [parseStack].
  rewrite pop_loop_S. machine_steps.
  rewrite (perform_wrapped_fresh MAX _ tf _ 0 0) by done.
  rewrite pop_loop_S. machine_steps.
  rewrite (perform_assert MAX _ tf _ 0 1 assertion) by done.
  rewrite (perform_wrapped_fresh MAX _ tf _ 1 1) by done.
  rewrite pop_loop_S. machine_steps.
  rewrite (perform_toSymbol MAX _ tf _ 1 p) by done. machine_steps.
  unfold assert_raw, bind. rewrite Hs0.
  destruct (transformer p s0 tf h) as [out h' | f |]; [| done | done].
  machine_steps.
  rewrite (perform_publish_new MAX _ tf _ 1 1 _ out
             [KAssert assertion (KPublish 0 (state_identity s0))]
             _ _ _ _ _ _ {[state_identity s0 := 1%nat]});
    [| done | by rewrite lookup_singleton_eq | done].
  machine_steps. rewrite perform_each_continuation, perform_asserted.
  destruct (isError out).
  - publish_and_collect MAX tf s0 out.
  - destruct (assertion out) as [e |]; [| publish_and_collect MAX tf s0 out].
    destruct (updateParseError out e) as [f | failed]; [done |].
    publish_and_collect MAX tf s0 failed.
Qed.

(** [assert] commutes with the promotion of a token parser:
    [assert(toSymbol(p), assertion).run] returns the one state the
    function of the token parser [assert(p, assertion)] computes from
    the start state, and throws the fault it throws. *)
Theorem symbol_assert_agrees_with_token_assert (p : TokenParser D E) (MAX : option nat)
    (assertion : ParseState D E → option (Semantics E))
    (t : string) (d : Semantics D) (i : option Z) (tf n : nat) (h : Heap D E) :
  observe (SymbolParser.run MAX (assert_toSymbol p assertion) tf 0 t d i (12 + n)
             (SymbolParser.empty_machine h))
  = observe ((let* s0 := lift (new_ParseResult t (default 0 i) [] d) in
              let* out := assert_raw p assertion s0 in
              ret [out]) tf h).
Proof.
  unfold SymbolParser.run, SymbolParser.generate, SymbolParser.empty_machine.
  unfold bind at 1. cbn [heap entries symTargets symMemos].
  destruct (new_ParseResult t (default 0 i) [] d) as [f | s0] eqn:Hs0; [done |].
  cbn [lift ret].
  apply new_ParseResult_inr in Hs0 as [-> _].
  pose proof (assert_toSymbol_generate p MAX assertion (ParseResult t (default 0 i) [] d)
                tf n h eq_refl) as Hgen.
  unfold bind, ret in *.
  destruct (assert_raw p assertion _ tf h) as [out h' | f |];
    destruct (SymbolParser.generate_loop _ _ _ _ _ _ _) as [collected m' | f' |];
    cbn [observe] in Hgen; try discriminate; [| done | done].
  injection Hgen as ->.
  by rewrite select_results_farthest, farthest_progress_single.
Qed.

Lemma farthest_progress_later (s o : ParseState D E) :
  index s < index o → farthest_progress s [o] = [o].
Proof.
  intros Hlater. unfold farthest_progress. cbn [max_index foldr].
  replace (Z.max (index o) (index s)) with (index o) by lia.
  rewrite filter_cons_False by lia.
  rewrite filter_cons_True by done. rewrite filter_nil.
  destruct (decide _) as [Hex | Hno].
  - apply Exists_cons in Hex as [Ho | Hnil]; [| by apply Exists_nil in Hnil].
    by rewrite filter_cons_True.
  - rewrite filter_cons_True; [done |].
    destruct (isError o) eqn:Herr; [done |]. exfalso. apply Hno. by left.
Qed.

Lemma farthest_progress_not_passed (s o : ParseState D E) :
  index o ≤ index s → isError s = false → isError o = true →
  farthest_progress s [o] = [s].
Proof.
  intros Hbehind Hs Ho. unfold farthest_progress. cbn [max_index foldr].
  replace (Z.max (index o) (index s)) with (index s) by lia.
  rewrite filter_cons_True by done.
  rewrite decide_True by (by left).
  rewrite filter_cons_True by done.
  destruct (decide (index o = index s)) as [Hsame | Hless].
  - rewrite (filter_cons_True _ o) by done. rewrite filter_nil.
    rewrite filter_cons_False; [done |]. by rewrite Ho.
  - by rewrite (filter_cons_False _ o) by done.
Qed.

Lemma moved_index_moved_identity (s1 s2 : ParseState D E) :
  target s1 = target s2 → index s1 ≠ index s2 → state_identity s1 ≠ state_identity s2.
Proof.
  intros Htarget Hindex Hid. apply Hindex.
  unfold state_identity in Hid. rewrite Htarget in Hid.
  apply append_cancel_l in Hid. apply (append_cancel_l "_") in Hid.
  apply (split_at_underscore _ _ (identity_suffix s1) (identity_suffix s2))
    in Hid as [Hidx _];
    [| apply js_number_to_string_no_underscore | apply js_number_to_string_no_underscore
     | apply identity_suffix_starts_a_field | apply identity_suffix_starts_a_field].
  unfold js_number_to_string in Hidx. by apply (inj pretty).
Qed.

(** The token parser [optional(p)] and the symbol parser
    [alternatives([toSymbol(p), empty])] give the same answer on a start
    state whenever [p], keeping the target, either succeeds and moves
    the index forward or fails without moving it forward: the function
    of [optional(p)] then computes the one state the [run] of the symbol
    parser returns. *)
Theorem optional_agrees_with_the_empty_alternative (p : TokenParser D E)
    (t : string) (d : Semantics D) (i : option Z) (tf n : nat) (h h' : Heap D E)
    (s0 out : ParseState D E) :
  new_ParseResult t (default 0 i) [] d = inr s0 →
  transformer p s0 tf h = Ret out h' →
  target out = target s0 →
  (isError out = false ∧ index s0 < index out) ∨
  (isError out = true ∧ index out ≤ index s0) →
  observe (SymbolParser.run None (toSymbol_or_empty p) tf 0 t d i (20 + n)
             (SymbolParser.empty_machine h))
  = observe ((let* answer := optional_raw p s0 in ret [answer]) tf h).
Proof.
  intros Hs0 Hcall Htarget Hcases.
  assert (Hresult : isError s0 = false)
    by (by apply new_ParseResult_inr in Hs0 as [-> _]).
  unfold SymbolParser.run, SymbolParser.generate, SymbolParser.empty_machine.
  cbn [heap entries symTargets symMemos]. rewrite Hs0.
  pose proof (toSymbol_or_empty_generate p s0 tf n h Hresult) as Hgen.
  unfold optional_raw, bind, ret in *. rewrite Hresult, Hcall in *.
  destruct (SymbolParser.generate_loop _ _ _ _ _ _ _) as [ys m' | f' |];
    cbn [observe] in Hgen; try discriminate.
  injection Hgen as ->.
  destruct Hcases as [[Hout Hmoved] | [Hout Hstayed]]; rewrite Hout.
  - rewrite decide_False by (apply moved_index_moved_identity; [done | lia]).
    by rewrite select_results_farthest, farthest_progress_later.
  - destruct (decide (state_identity out = state_identity s0)).
    + by rewrite select_results_farthest, farthest_progress_single.
    + by rewrite select_results_farthest, farthest_progress_not_passed.
Qed.

End AcrossLayers.

(** [a] on ["ab"] succeeds and moves on; both layers answer with its
    result. *)
Lemma optional_agrees_with_the_empty_alternative_witness :
  observe (SymbolParser.run None (toSymbol_or_empty Examples.a) 1 0 "ab" NoSemantics None
             (20 + 0) (SymbolParser.empty_machine Examples.heap3))
  = observe ((let* answer := optional_raw Examples.a (Examples.at_start "ab") in
              ret [answer]) 1%nat Examples.heap3).
Proof.
  eapply (optional_agrees_with_the_empty_alternative Examples.a "ab" NoSemantics None 1 0
            Examples.heap3 _ (Examples.at_start "ab") (ParseResult "ab" 1 ["a"] NoSemantics)).
  - reflexivity.
  - vm_compute. reflexivity.
  - reflexivity.
  - left. split; [reflexivity | vm_compute; reflexivity].
Defined.

(** ** [many]: the longest run of successes *)

Section GreedyFacts.
Context {D E : Type} `{!Identifiable D, !Identifiable E}.
Implicit Types (parser : TokenParser D E) (state out : ParseState D E) (h : Heap D E).

Lemma many_loop_follows parser (outs : list (ParseState D E)) :
  ∀ state h h1 h2 (stop : ParseState D E) (n : nat),
    repeats parser state outs h h1 →
    (∀ n, transformer parser (default state (last outs)) n h1 = Ret stop h2) →
    isError stop = true ∨ js_length (target stop) ≤ index stop →
    (length outs < n)%nat →
    many_loop parser n state h
    = Ret (if isError stop then default state (last outs) else stop) h2.
Proof.
  induction outs as [| out outs IH]; intros state h h1 h2 stop n Hrun Hstop Hend Hn.
  - cbn in Hrun. subst h1. destruct n as [| n]; [cbn in Hn; lia |].
    cbn [many_loop last default from_option id] in *. rewrite Hstop.
    destruct (isError stop) eqn:Herr; [done |].
    destruct Hend as [Hfalse | Hend]; [done |].
    by replace (js_length (target stop) <=? index stop) with true
      by (symmetry; by apply Z.leb_le).
  - destruct Hrun as (h' & Hcall & Hout & Hshort & Hrun).
    destruct n as [| n]; [cbn in Hn; lia |]. cbn [many_loop].
    rewrite Hcall, Hout.
    replace (js_length (target out) <=? index out) with false
      by (symmetry; apply Z.leb_gt; lia).
    rewrite default_last_cons in *.
    apply (IH out h' h1 h2 stop n); [done | done | done | cbn in Hn; lia].
Qed.

(** [many] is greedy: when the parser, called on the state and then on
    its own answers, succeeds short of the end of the target a number
    of times, and the next call fails or reaches the end of the target,
    [many] returns the last success of the run (the entering state when
    there is none), or the answer that reached the end; the failing
    answer is dropped. *)
Theorem many_returns_the_longest_run parser (outs : list (ParseState D E))
    state h h1 h2 (stop : ParseState D E) (n : nat) :
  isError state = false →
  repeats parser state outs h h1 →
  (∀ n, transformer parser (default state (last outs)) n h1 = Ret stop h2) →
  isError stop = true ∨ js_length (target stop) ≤ index stop →
  (length outs < n)%nat →
  many_raw parser state n h
  = Ret (if isError stop then default state (last outs) else stop) h2.
Proof.
  intros Hstate Hrun Hstop Hend Hn. unfold many_raw. rewrite Hstate.
  by eapply many_loop_follows.
Qed.

End GreedyFacts.

(** [many(a)] on ["aab"]: two successes, then [a] fails on ["b"]. *)
Lemma many_returns_the_longest_run_witness :
  ∃ h2, many_raw Examples.a (Examples.at_start "aab") 5%nat Examples.heap3
        = Ret (ParseResult "aab" 2 ["a"; "a"] NoSemantics) h2.
Proof.
  eexists.
  eapply (many_returns_the_longest_run Examples.a
            [ParseResult "aab" 1 ["a"] NoSemantics; ParseResult "aab" 2 ["a"; "a"] NoSemantics]
            (Examples.at_start "aab") Examples.heap3 _ _
            (ParseError "aab" 2 ["a"; "a"] (Examples.mismatch "aab" 2)) 5).
  - reflexivity.
  - cbn [repeats]. eexists. split; [intros n; vm_compute; reflexivity |].
    split; [reflexivity |]. split; [vm_compute; reflexivity |].
    eexists. split; [intros n; vm_compute; reflexivity |].
    split; [reflexivity |]. split; [vm_compute; reflexivity |]. reflexivity.
  - intros n. vm_compute. reflexivity.
  - by left.
  - cbn. lia.
Defined.

(** ** [until] and the memo table of its terminator *)

Section UntilMemoFacts.
Context {D E : Type} `{!Identifiable D, !Identifiable E}.

Lemma map_at_set_map_at_other (l l' : nat) (m : gmap string (ParseState D E))
    (h : Heap D E) :
  l ≠ l' → map_at l' (set_map_at l m h) = map_at l' h.
Proof. intros Hne. rewrite map_at_set_map_at. by destruct (decide (l = l')). Qed.

(** After [until] has stopped before a match of its terminator, the
    terminator called on the answer of [until] does not run again: the
    state it was asked about during the scan has the same identity, and
    the terminator returns, from its memo table, the answer it gave
    then.  That answer was computed from the tokens the state carried
    before [until] appended the skipped substring. *)
Theorem terminator_after_until_answers_from_its_memo (terminator : TokenParser D E)
    (EOFError : ParseErrorProduction E) (l : nat)
    (t : string) (i : Z) (r : list string) (d : Semantics D) (k n : nat)
    (h h1 h2 : Heap D E) (out : ParseState D E) :
  pure_raw terminator → self terminator ≠ l →
  miss (mkTokenParser l (until_raw terminator EOFError)) (ParseResult t i r d) h →
  js_length (join r) ≤ i → i + Z.of_nat k ≤ js_length t →
  rejects terminator t r d i k (flush l (ParseResult t i r d) h) h1 →
  (∀ n, transformer terminator (ParseResult t (i + Z.of_nat k) r d) n h1 = Ret out h2) →
  isError out = false →
  (k < n)%nat →
  ∃ h3,
    transformer (mkTokenParser l (until_raw terminator EOFError)) (ParseResult t i r d) n h
    = Ret (ParseResult t (i + Z.of_nat k)
             (if decide (k = 0%nat) then r
              else (r ++ [js_substring t i (i + Z.of_nat k)])%list) d) h3 ∧
    ∀ n', transformer terminator
            (ParseResult t (i + Z.of_nat k)
               (if decide (k = 0%nat) then r
                else (r ++ [js_substring t i (i + Z.of_nat k)])%list) d) n' h3
          = Ret out h3.
Proof.
  intros Hpure Hother Hmiss Hr Hend Hrej Hcall Hout Hn.
  pose proof (js_length_nonneg (join r)).
  rewrite (transformer_miss _ _ _ _ Hmiss). cbn [raw self].
  unfold until_raw. cbn [isError index].
  rewrite (until_loop_stops_at_the_match terminator EOFError t r d i
             ltac:(lia) Hr k i _ h1 h2 out n) by (done || lia).
  replace (if decide (i = i + Z.of_nat k) then r
           else (r ++ [js_substring t i (i + Z.of_nat k)])%list)
    with (if decide (k = 0%nat) then r
          else (r ++ [js_substring t i (i + Z.of_nat k)])%list)
    by (destruct (decide (i = i + Z.of_nat k)), (decide (k = 0%nat)); (done || lia)).
  eexists. split; [reflexivity |].
  intros n'.
  destruct (transformer_records terminator _ 0 h1 out h2 Hpure (Hcall 0%nat))
    as [Hlookup Htarget].
  unfold transformer.
  rewrite flush_same_target
    by (rewrite currentTarget_set_map_at; cbn [target] in *; congruence).
  rewrite map_at_set_map_at_other by done.
  change (state_identity (ParseResult t (i + Z.of_nat k)
            (if decide (k = 0%nat) then r
             else (r ++ [js_substring t i (i + Z.of_nat k)])%list) d))
    with (state_identity (ParseResult (E := E) t (i + Z.of_nat k) r d)).
  by rewrite Hlookup.
Qed.

End UntilMemoFacts.

(** [until(c, eof)] on ["abc"] and then [c]: the answer of [c] carries
    the token ["c"] alone. *)
Lemma terminator_after_until_answers_from_its_memo_witness :
  ∃ h3,
    transformer Examples.until_c (Examples.at_start "abc") 5%nat Examples.heap3
    = Ret (ParseResult "abc" 2 ["ab"] NoSemantics) h3 ∧
    ∀ n', transformer Examples.c (ParseResult "abc" 2 ["ab"] NoSemantics) n' h3
          = Ret (ParseResult "abc" 3 ["c"] NoSemantics) h3.
Proof.
  eapply (terminator_after_until_answers_from_its_memo Examples.c Examples.eof 3 "abc" 0 []
            NoSemantics 2 5 Examples.heap3).
  - apply str_raw_pure.
  - discriminate.
  - reflexivity.
  - vm_compute. congruence.
  - vm_compute. congruence.
  - cbn [rejects]. eexists _, _. split; [intros n; vm_compute; reflexivity |].
    split; [reflexivity |].
    eexists _, _. split; [intros n; vm_compute; reflexivity |].
    split; [reflexivity |]. reflexivity.
  - intros n. vm_compute. reflexivity.
  - reflexivity.
  - lia.
Defined.
